(** * storagepacker: request keys, canonical order and root buckets

    A shallow embedding of [sdk/helper/storagepacker/ids2keys.go] and the
    properties its specification states about it (Part II), followed by
    further properties of the same functions (Part III).

    Conventions of the embedding:
    - a Go [string] is a sequence of bytes: Rocq's [string] (a list of
      8-bit [ascii]); [len] is [String.length], all indices count bytes;
    - a Go [int] is a [Z]; the places where the 64-bit width matters
      (the conversion of a float to [int]) are written out; the indices
      into a slice that package sort computes are natural numbers;
    - a slice is a window on an array in a store of arrays, so that
      writing through one slice shows in every slice on the same array;
    - a call that panics yields [None];
    - a function returning [(string, error)] returns a pair whose second
      component is [None] for a [nil] error. *)

From Stdlib Require Import ZArith Lia Bool List Ascii String Permutation Sorted.
From stdpp Require Import base option list gmap strings.

Local Open Scope Z_scope.

(** ** Part I. The embedding *)

(** *** Strings *)

Module GoString.

(** [len(s)] *)
Definition len (s : string) : Z := Z.of_nat (String.length s).

(** The first [n] bytes of [s] (all of [s] when it is shorter). *)
Fixpoint take (n : nat) (s : string) : string :=
  match n, s with
  | S n', String c s' => String c (take n' s')
  | _, _ => EmptyString
  end.

(** [s] without its first [n] bytes. *)
Fixpoint drop (n : nat) (s : string) : string :=
  match n, s with
  | S n', String _ s' => drop n' s'
  | _, _ => s
  end.

(** The slice expression [s[lo:hi]]; Go panics unless
    [0 <= lo <= hi <= len(s)]. *)
Definition slice (s : string) (lo hi : Z) : option string :=
  if (0 <=? lo) && (lo <=? hi) && (hi <=? len s)
  then Some (take (Z.to_nat (hi - lo)) (drop (Z.to_nat lo) s))
  else None.

(** [strings.HasPrefix(s, p)] *)
Fixpoint has_prefix (p s : string) : bool :=
  match p, s with
  | EmptyString, _ => true
  | String a p', String b s' => Ascii.eqb a b && has_prefix p' s'
  | String _ _, EmptyString => false
  end.

(** The scan behind [strings.Replace(s, old, new, n)] for a non-empty
    [old]: the text is read left to right; [skip] counts the bytes of
    the last match still to be stepped over, [n] the replacements still
    allowed (a negative [n] never runs out). *)
Fixpoint replace_scan (old new : string) (n : Z) (skip : nat) (s : string)
  : string :=
  match s with
  | EmptyString => EmptyString
  | String c s' =>
      match skip with
      | S k => replace_scan old new n k s'
      | O =>
          if negb (n =? 0) && has_prefix old s
          then new +:+ replace_scan old new (if 0 <? n then n - 1 else n)
                         (Nat.pred (String.length old)) s'
          else String c (replace_scan old new n O s')
      end
  end.

(** [strings.Replace(s, old, new, n)]: a copy of [s] with the first [n]
    non-overlapping instances of [old] replaced by [new], all of them
    when [n < 0].  Only a non-empty [old] is embedded: for an empty
    [old] Go splices [new] between UTF-8 sequences, which no call of the
    program asks for. *)
Definition Replace (s old new : string) (n : Z) : string :=
  if String.eqb old new || (n =? 0) then s
  else replace_scan old new n O s.

End GoString.

(** *** Configuration *)

(** The one field of [StoragePackerV2] the file reads. *)
Record StoragePackerV2 := { BaseBucketBits : Z }.

(** Go's integer division truncates toward zero. *)
Definition int_div (a b : Z) : Z := Z.quot a b.

(** *** firstKey *)

Definition errors_New (msg : string) : string := msg.

(** [func (s *StoragePackerV2) firstKey(cacheKey string) (string, error)] *)
Definition firstKey (s : StoragePackerV2) (cacheKey : string)
  : option (string * option string) :=
  let rootShardLength := int_div (BaseBucketBits s) 4 in
  if GoString.len cacheKey <? rootShardLength
  then Some (cacheKey, Some (errors_New "Key too short."))
  else
    match GoString.slice cacheKey 0 (int_div (BaseBucketBits s) 4) with
    | Some prefix => Some (prefix, None)
    | None => None
    end.

(** *** GetCacheKey *)

(** [func (s *StoragePackerV2) GetCacheKey(key string) string] *)
Definition GetCacheKey (s : StoragePackerV2) (key : string) : string :=
  GoString.Replace key "/" EmptyString (-1).

(** *** checkForDuplicateIds *)

(** The body of the [for _, id := range ids] loop, with the map
    [idsSeen] passed along. *)
Fixpoint checkForDuplicateIds_loop (idsSeen : gmap string bool)
  (ids : list string) : bool * string :=
  match ids with
  | [] => (false, EmptyString)
  | id :: rest =>
      match idsSeen !! id with
      | Some _ => (true, id)
      | None => checkForDuplicateIds_loop (<[id := true]> idsSeen) rest
      end
  end.

(** [func checkForDuplicateIds(ids []string) (bool, string)] *)
Definition checkForDuplicateIds (ids : list string) : bool * string :=
  checkForDuplicateIds_loop ∅ ids.

(** *** Hashing and requests *)

(** A Go pointer to a value that is never written through: [nil], or a
    reference identified with the value it points to. *)
Inductive pointer (A : Type) : Type :=
| nil_ptr
| ptr_to (a : A).
Arguments nil_ptr {A}.
Arguments ptr_to {A} a.

Module Hex.

Definition hextable : string := "0123456789abcdef".

(** [hextable[n]] *)
Definition digit (n : N) : ascii :=
  match String.get (N.to_nat n) hextable with
  | Some c => c
  | None => "0"%char
  end.

(** [hex.EncodeToString(src)]: two digits per byte, high nibble first. *)
Fixpoint EncodeToString (src : list Byte.byte) : string :=
  match src with
  | [] => EmptyString
  | v :: rest =>
      String (digit (N.shiftr (Byte.to_N v) 4))
        (String (digit (N.land (Byte.to_N v) 15)) (EncodeToString rest))
  end.

End Hex.

Section Requests.

(** Modelled from the spec: [cryptoutil.Blake2b256Hash], the
    cryptographic hash primitive [bytes -> fixed-width digest] the
    Hasher wraps; its code is not part of the sources at hand. *)
Variable Blake2b256Hash : string -> list Byte.byte.

(** The type [Item] is declared elsewhere in the package; the file
    reads its field [ID] only. *)
Variable Item : Type.
Variable Item_ID : Item -> string.

(** [func GetItemIDHash(itemID string) string] *)
Definition GetItemIDHash (itemID : string) : string :=
  Hex.EncodeToString (Blake2b256Hash itemID).

(** [type itemRequest struct { ID string; Key string; Value *Item }] *)
Record itemRequest := { ID : string; Key : string; Value : pointer Item }.

(** The loop of [keysForIDs]; [requests] is the slice built so far. *)
Fixpoint keysForIDs_loop (requests : list itemRequest) (ids : list string)
  : list itemRequest :=
  match ids with
  | [] => requests
  | id :: rest =>
      keysForIDs_loop
        (requests ++ [ {| ID := id; Key := GetItemIDHash id;
                          Value := nil_ptr |} ])
        rest
  end.

(** [func (s *StoragePackerV2) keysForIDs(ids []string) []*itemRequest] *)
Definition keysForIDs (ids : list string) : list itemRequest :=
  keysForIDs_loop [] ids.

(** The loop of [keysForItems]; reading [i.ID] through a [nil] pointer
    panics. *)
Fixpoint keysForItems_loop (requests : list itemRequest)
  (items : list (pointer Item)) : option (list itemRequest) :=
  match items with
  | [] => Some requests
  | i :: rest =>
      match i with
      | nil_ptr => None
      | ptr_to it =>
          keysForItems_loop
            (requests ++ [ {| ID := Item_ID it;
                              Key := GetItemIDHash (Item_ID it);
                              Value := i |} ])
            rest
      end
  end.

(** [func (s *StoragePackerV2) keysForItems(items []*Item) []*itemRequest] *)
Definition keysForItems (items : list (pointer Item))
  : option (list itemRequest) :=
  keysForItems_loop [] items.

End Requests.

Arguments ID {Item} _.
Arguments Key {Item} _.
Arguments Value {Item} _.

(** *** GetItemIDHash as a call in a running program

    Above, the hash primitive is a function, and so is [GetItemIDHash]:
    that two calls agree is then built in.  Here a call is handed the
    state of the program it runs in and returns the state it leaves, so
    that what a call depends on, and what it changes, can be told. *)

Module InProgram.

Section Calls.

(** What a call can read and change of the program it runs in. *)
Variable State : Type.

(** Modelled from the spec: [cryptoutil.Blake2b256Hash], the
    cryptographic hash primitive, whose code is not part of the sources
    at hand, as an operation of the program: it is handed the state it
    is called in and returns the digest and the state it leaves.
    Nothing is assumed of it here. *)
Variable Blake2b256Hash : string -> State -> list Byte.byte * State.

(** [func GetItemIDHash(itemID string) string], called in the state
    [st]. *)
Definition GetItemIDHash (itemID : string) (st : State) : string * State :=
  let (digest, st') := Blake2b256Hash itemID st in
  (Hex.EncodeToString digest, st').

End Calls.

End InProgram.

(** *** fmt.Sprintf, for the formats of this file *)

Module GoFmt.

(** [ldigits[n]] *)
Definition ldigit (n : Z) : ascii := Hex.digit (Z.to_N n).

(** The digit loop of [fmtInteger]: the digits of [u] in [base] are
    put in front of [acc], least significant first.  [fuel] bounds the
    number of digits; 64 are enough for a 64-bit operand. *)
Fixpoint digits_loop (fuel : nat) (base u : Z) (acc : string) : string :=
  match fuel with
  | O => acc
  | S fuel' =>
      if u <? base then String (ldigit u) acc
      else digits_loop fuel' base (u / base) (String (ldigit (u mod base)) acc)
  end.

(** [n] copies of the byte [c]. *)
Fixpoint padding (n : nat) (c : ascii) : string :=
  match n with
  | O => EmptyString
  | S n' => String c (padding n' c)
  end.

(** [fmtInteger] of package fmt for a signed operand [v], with the
    flags [zero] and [minus] and the optional width [wid]: zero padding
    is done through a minimal number of digits (one less when a sign is
    written), padding with blanks by its [pad]. *)
Definition fmtInteger (zero minus : bool) (wid : option Z) (base v : Z)
  : string :=
  let negative := v <? 0 in
  let u := Z.abs v in
  let prec :=
    match wid with
    | Some w => if zero then (if negative then w - 1 else w) else 0
    | None => 0
    end in
  let ds := digits_loop 64 base u EmptyString in
  let ds := padding (Z.to_nat (prec - GoString.len ds)) "0" +:+ ds in
  let b := if negative then String "-" ds else ds in
  match wid with
  | None => b
  | Some w =>
      let blanks := padding (Z.to_nat (w - GoString.len b)) " " in
      if minus then b +:+ blanks else blanks +:+ b
  end.

(** The parts of a format string. *)
Inductive piece : Type :=
| Lit (c : ascii)
| Verb (zero minus : bool) (wid : option Z) (verb : ascii)
| NoVerb.

(** Where the scan of [doPrintf] stands. *)
Inductive scan : Type :=
| Text
| Flags (zero minus : bool)
| Width (zero minus : bool) (num : Z)
| Stop.

Definition is_digit (c : ascii) : bool :=
  let n := Z.of_nat (nat_of_ascii c) in (48 <=? n) && (n <=? 57).

Definition digit_of (c : ascii) : Z := Z.of_nat (nat_of_ascii c) - 48.

(** [tooLarge] of package fmt *)
Definition tooLarge (x : Z) : bool := (1000000 <? x) || (x <? -1000000).

(** One byte of the format: the new state and the piece completed, if
    any.  After ['%'] come flags (['0'] and ['-']; a ['0'] counts only
    while no ['-'] was seen), then the width (a run of digits, given up
    with the rest of the format when it grows too large), then the
    verb. *)
Definition scan_step (st : scan) (c : ascii) : scan * option piece :=
  match st with
  | Stop => (Stop, None)
  | Text =>
      if Ascii.eqb c "%" then (Flags false false, None)
      else (Text, Some (Lit c))
  | Flags zero minus =>
      if Ascii.eqb c "0" then (Flags (negb minus) minus, None)
      else if Ascii.eqb c "-" then (Flags false true, None)
      else if is_digit c then (Width zero minus (digit_of c), None)
      else (Text, Some (Verb zero minus None c))
  | Width zero minus num =>
      if is_digit c then
        if tooLarge num then (Stop, Some NoVerb)
        else (Width zero minus (num * 10 + digit_of c), None)
      else (Text, Some (Verb zero minus (Some num) c))
  end.

Fixpoint parse (st : scan) (format : string) : list piece :=
  match format with
  | EmptyString =>
      match st with
      | Flags _ _ | Width _ _ _ => [NoVerb]
      | _ => []
      end
  | String c rest =>
      match scan_step st c with
      | (st', Some p) => p :: parse st' rest
      | (st', None) => parse st' rest
      end
  end.

(** The operands no verb has asked for: [type=value], one after the
    other. *)
Fixpoint extra_operands (a : list Z) : string :=
  match a with
  | [] => EmptyString
  | v :: a' =>
      "int=" +:+ fmtInteger false false None 10 v
      +:+ (match a' with [] => EmptyString | _ :: _ => ", " end)
      +:+ extra_operands a'
  end.

(** The output for a parsed format and integer operands; operands that
    are left over are reported at the end.  Embedded are the verbs [%%],
    [%d] and [%x]; any other verb is outside the fragment, and the
    result is then [None]. *)
Fixpoint render (ps : list piece) (a : list Z) : option string :=
  match ps with
  | [] =>
      Some (match a with
            | [] => EmptyString
            | _ :: _ => "%!(EXTRA " +:+ extra_operands a +:+ ")"
            end)
  | Lit c :: ps' => String c <$> render ps' a
  | NoVerb :: ps' => String.append "%!(NOVERB)" <$> render ps' a
  | Verb zero minus wid verb :: ps' =>
      if Ascii.eqb verb "%" then String "%" <$> render ps' a
      else
        let base :=
          if Ascii.eqb verb "d" then Some 10
          else if Ascii.eqb verb "x" then Some 16
          else None in
        match base, a with
        | Some base, v :: a' =>
            String.append (fmtInteger zero minus wid base v) <$> render ps' a'
        | Some _, [] =>
            String.append ("%!" +:+ String verb "(MISSING)") <$> render ps' a
        | None, _ => None
        end
  end.

(** [fmt.Sprintf(format, a...)] for integer operands. *)
Definition Sprintf (format : string) (a : list Z) : option string :=
  render (parse Text format) a.

(** The number a string of hexadecimal digits denotes, read from the
    left with [acc] for the digits already read. *)
Definition hex_digit_value (c : ascii) : Z :=
  let n := Z.of_nat (nat_of_ascii c) in
  if (48 <=? n) && (n <=? 57) then n - 48
  else if (97 <=? n) && (n <=? 102) then n - 87
  else 0.

Fixpoint hex_value (acc : Z) (s : string) : Z :=
  match s with
  | EmptyString => acc
  | String c s' => hex_value (acc * 16 + hex_digit_value c) s'
  end.

(** Lower-case hexadecimal digits only. *)
Definition is_ldigit (c : ascii) : bool :=
  let n := Z.of_nat (nat_of_ascii c) in
  ((48 <=? n) && (n <=? 57)) || ((97 <=? n) && (n <=? 102)).

Fixpoint all_ldigits (s : string) : bool :=
  match s with
  | EmptyString => true
  | String c s' => is_ldigit c && all_ldigits s'
  end.

(** Decimal digits only. *)
Definition all_decimal (s : string) : Prop :=
  Forall (λ c, is_digit c = true) (list_ascii_of_string s).

(** Pieces with no verb but [x]: [render] has an output for them. *)
Definition renderable (ps : list piece) : Prop :=
  Forall (λ p, match p with Verb _ _ _ v => v = "x"%char | _ => True end) ps.

End GoFmt.

(** *** getAllBaseBucketKeys *)

(** [int(math.Pow(2.0, float64(y)))] for an [int] [y].  The power of two
    is exact in [float64]; it is below 1 for a negative [y] and is then
    truncated to 0.  From [y = 63] on the power is outside the range of
    a 64-bit [int]: the value of the conversion is then left to the
    implementation, and is the least [int] on amd64. *)
Definition min_int : Z := - 2 ^ 63.

Definition int_of_Pow2 (y : Z) : Z :=
  if y <? 0 then 0
  else if y <=? 62 then 2 ^ y
  else min_int.

(** The loop [for i := 0; i < numBuckets; i++]; [fuel] is the number of
    rounds still to go. *)
Fixpoint getAllBaseBucketKeys_loop (fuel : nat) (formatString : string)
  (numBuckets i : Z) (ret : list string) : option (list string) :=
  match fuel with
  | O => Some ret
  | S fuel' =>
      if i <? numBuckets then
        match GoFmt.Sprintf formatString [i] with
        | Some bucketKey =>
            getAllBaseBucketKeys_loop fuel' formatString numBuckets (i + 1)
              (ret ++ [bucketKey])
        | None => None
        end
      else Some ret
  end.

(** The most bytes one allocation may have: [maxAlloc] of package
    runtime, [1 << 48] on linux/amd64. *)
Definition maxAlloc : Z := 2 ^ 48.

(** The size of a [string] value in an array: a pointer and a length,
    16 bytes on a 64-bit platform. *)
Definition string_size : Z := 16.

(** Whether [make([]T, 0, cap)] returns, for elements of [size] bytes.
    [makeslice] of package runtime multiplies [size] by [cap], taken as
    an unsigned word, and panics ("cap out of range") when the product
    overflows the word or is more than [maxAlloc], and when [cap] is
    less than the length 0.  A negative [cap] is, as an unsigned word, at
    least [2^63], beyond [maxAlloc] for every size.  Memory for an array
    within these bounds is taken to be there. *)
Definition makeslice_fits (size cap : Z) : bool :=
  (0 <=? cap) && (size * cap <=? maxAlloc).

(** [func (s *StoragePackerV2) getAllBaseBucketKeys() []string] *)
Definition getAllBaseBucketKeys (s : StoragePackerV2) : option (list string) :=
  let numBuckets := int_of_Pow2 (BaseBucketBits s) in
  let rootBucketLength := int_div (BaseBucketBits s) 4 in
  match GoFmt.Sprintf "%%0%dx" [rootBucketLength] with
  | Some formatString =>
      if makeslice_fits string_size numBuckets
      then getAllBaseBucketKeys_loop (Z.to_nat numBuckets) formatString
             numBuckets 0 []
      else None
  | None => None
  end.

(** *** Package sort: [sort.Slice]

    The algorithm of [sort.Slice] as the sort package has it up to
    Go 1.18, the releases this file was written for: a quicksort with
    a depth limit, falling back on heapsort, and finishing segments of at
    most 12 elements by one pass of ShellSort with gap 6 and an
    insertion sort.  As in the package, the code works on an opaque
    [data] through the two functions of [lessSwap].  Indices are natural
    numbers: where the package subtracts, the difference is not negative,
    except in the tests [b-a > 12] and [b-a > 1] and in [(hi - 1) / 2],
    which come out the same for a negative difference and for zero. *)

Module GoSort.

Section LessSwap.

Variable data : Type.
(** [data.Less(i, j)] *)
Variable Less : data -> nat -> nat -> bool.
(** [data.Swap(i, j)] *)
Variable Swap : data -> nat -> nat -> data.

(** The inner loop of [insertionSort_func]:
    [for j := i; j > a && data.Less(j, j-1); j-- { data.Swap(j, j-1) }]. *)
Fixpoint insert_down (a j : nat) (d : data) : data :=
  match j with
  | O => d
  | S j' =>
      if (a <? j)%nat && Less d j j' then insert_down a j' (Swap d j j')
      else d
  end.

(** The outer loop [for i := a + 1; i < b; i++], with [n = b - i] rounds
    to go. *)
Fixpoint insertionSort_loop (n : nat) (a i : nat) (d : data) : data :=
  match n with
  | O => d
  | S n' => insertionSort_loop n' a (S i) (insert_down a i d)
  end.

Definition insertionSort_func (d : data) (a b : nat) : data :=
  insertionSort_loop (b - (a + 1)) a (a + 1) d.

(** The loop of [siftDown_func]; the root moves down in every round, so
    that [n = hi - root] bounds the rounds: when none is left the child
    is beyond [hi] and the loop returns. *)
Fixpoint siftDown_loop (n : nat) (root hi first : nat) (d : data) : data :=
  match n with
  | O => d
  | S n' =>
      let child := (2 * root + 1)%nat in
      if (hi <=? child)%nat then d
      else
        let child :=
          if (child + 1 <? hi)%nat
             && Less d (first + child) (first + child + 1)
          then (child + 1)%nat else child in
        if negb (Less d (first + root) (first + child)) then d
        else siftDown_loop n' child hi first
               (Swap d (first + root) (first + child))
  end.

Definition siftDown_func (d : data) (lo hi first : nat) : data :=
  siftDown_loop (hi - lo) lo hi first d.

(** [for i := (hi - 1) / 2; i >= 0; i-- { siftDown_func(data, i, hi,
    first) }] *)
Fixpoint heapSort_build (i hi first : nat) (d : data) : data :=
  let d := siftDown_func d i hi first in
  match i with
  | O => d
  | S i' => heapSort_build i' hi first d
  end.

(** [for i := hi - 1; i >= 0; i-- { data.Swap(first, first+i);
    siftDown_func(data, lo, i, first) }], with [n = i + 1]. *)
Fixpoint heapSort_pop (n lo first : nat) (d : data) : data :=
  match n with
  | O => d
  | S i =>
      heapSort_pop i lo first
        (siftDown_func (Swap d first (first + i)) lo i first)
  end.

Definition heapSort_func (d : data) (a b : nat) : data :=
  let first := a in
  let lo := O in
  let hi := (b - a)%nat in
  let d := heapSort_build ((hi - 1) / 2) hi first d in
  heapSort_pop hi lo first d.

Definition medianOfThree_func (d : data) (m1 m0 m2 : nat) : data :=
  let d := if Less d m1 m0 then Swap d m1 m0 else d in
  if Less d m2 m1 then
    let d := Swap d m2 m1 in
    if Less d m1 m0 then Swap d m1 m0 else d
  else d.

(** [for ; a < c && data.Less(a, pivot); a++ {}], with [n = c - a]. *)
Fixpoint skip_less (n : nat) (d : data) (pivot a : nat) : nat :=
  match n with
  | O => a
  | S n' => if Less d a pivot then skip_less n' d pivot (S a) else a
  end.

(** [for ; b < c && !data.Less(pivot, b); b++ {}], with [n = c - b]. *)
Fixpoint skip_not_greater (n : nat) (d : data) (pivot b : nat) : nat :=
  match n with
  | O => b
  | S n' =>
      if negb (Less d pivot b) then skip_not_greater n' d pivot (S b) else b
  end.

(** [for ; b < c && data.Less(pivot, c-1); c-- {}], with [n = c - b]. *)
Fixpoint skip_greater (n : nat) (d : data) (pivot c : nat) : nat :=
  match n with
  | O => c
  | S n' =>
      if Less d pivot (c - 1) then skip_greater n' d pivot (c - 1) else c
  end.

(** The partitioning loop of [doPivot_func]; every round but the last
    brings [b] and [c] closer, so that [n = c - b] bounds the rounds. *)
Fixpoint partition_loop (n : nat) (d : data) (pivot b c : nat)
  : data * nat * nat :=
  let b := skip_not_greater (c - b) d pivot b in
  let c := skip_greater (c - b) d pivot c in
  if (c <=? b)%nat then (d, b, c)
  else
    match n with
    | O => (d, b, c)
    | S n' => partition_loop n' (Swap d b (c - 1)) pivot (S b) (c - 1)
    end.

(** [for ; a < b && !data.Less(b-1, pivot); b-- {}], with [n = b - a]. *)
Fixpoint skip_equal (n : nat) (d : data) (pivot b : nat) : nat :=
  match n with
  | O => b
  | S n' =>
      if negb (Less d (b - 1) pivot) then skip_equal n' d pivot (b - 1)
      else b
  end.

(** The loop that protects against many duplicates of the pivot, with
    [n = b - a]. *)
Fixpoint protect_loop (n : nat) (d : data) (pivot a b : nat)
  : data * nat * nat :=
  let b := skip_equal (b - a) d pivot b in
  let a := skip_less (b - a) d pivot a in
  if (b <=? a)%nat then (d, a, b)
  else
    match n with
    | O => (d, a, b)
    | S n' => protect_loop n' (Swap d a (b - 1)) pivot (S a) (b - 1)
    end.

Definition doPivot_func (d : data) (lo hi : nat) : data * nat * nat :=
  let m := ((lo + hi) / 2)%nat in
  let d :=
    if (40 <? hi - lo)%nat then
      let s := ((hi - lo) / 8)%nat in
      let d := medianOfThree_func d lo (lo + s) (lo + 2 * s) in
      let d := medianOfThree_func d m (m - s) (m + s) in
      medianOfThree_func d (hi - 1) (hi - 1 - s) (hi - 1 - 2 * s)
    else d in
  let d := medianOfThree_func d lo m (hi - 1) in
  let pivot := lo in
  let a := (lo + 1)%nat in
  let c := (hi - 1)%nat in
  let a := skip_less (c - a) d pivot a in
  let b := a in
  let '(d, b, c) := partition_loop (c - b) d pivot b c in
  let protect := (hi - c <? 5)%nat in
  let '(d, b, c, protect) :=
    if negb protect && (hi - c <? (hi - lo) / 4)%nat then
      let dups := O in
      let '(d, c, dups) :=
        if negb (Less d pivot (hi - 1))
        then (Swap d c (hi - 1), S c, S dups) else (d, c, dups) in
      let '(b, dups) :=
        if negb (Less d (b - 1) pivot)
        then ((b - 1)%nat, S dups) else (b, dups) in
      let '(d, b, dups) :=
        if negb (Less d m pivot)
        then (Swap d m (b - 1), (b - 1)%nat, S dups) else (d, b, dups) in
      (d, b, c, (1 <? dups)%nat)
    else (d, b, c, protect) in
  let '(d, a, b) :=
    if protect then protect_loop (b - a) d pivot a b else (d, a, b) in
  let d := Swap d pivot (b - 1) in
  (d, (b - 1)%nat, c).

(** [for i := a + 6; i < b; i++ { if data.Less(i, i-6) { data.Swap(i,
    i-6) } }], with [n = b - i]. *)
Fixpoint shell_pass (n : nat) (i : nat) (d : data) : data :=
  match n with
  | O => d
  | S n' =>
      shell_pass n' (S i) (if Less d i (i - 6) then Swap d i (i - 6) else d)
  end.

(** [quickSort_func].  Every round of its loop [for b-a > 12] lowers
    [maxDepth]; the round sorts the smaller side by a call and goes on
    with the larger one, which is the second call here. *)
Fixpoint quickSort_func (maxDepth : nat) (d : data) (a b : nat) : data :=
  if (12 <? b - a)%nat then
    match maxDepth with
    | O => heapSort_func d a b
    | S maxDepth =>
        let '(d, mlo, mhi) := doPivot_func d a b in
        if (mlo - a <? b - mhi)%nat then
          let d := quickSort_func maxDepth d a mlo in
          quickSort_func maxDepth d mhi b
        else
          let d := quickSort_func maxDepth d mhi b in
          quickSort_func maxDepth d a mlo
    end
  else if (1 <? b - a)%nat then
    let d := shell_pass (b - (a + 6)) (a + 6) d in
    insertionSort_func d a b
  else d.

End LessSwap.

(** [for i := n; i > 0; i >>= 1 { depth++ }], [fuel] bounding the rounds. *)
Fixpoint maxDepth_loop (fuel : nat) (i depth : nat) : nat :=
  match fuel with
  | O => depth
  | S fuel' =>
      if (0 <? i)%nat then maxDepth_loop fuel' (i / 2) (S depth) else depth
  end.

(** [maxDepth(n)]: twice the number of binary digits of [n]. *)
Definition maxDepth (n : nat) : nat := (maxDepth_loop n n O * 2)%nat.

Section Slice.

Context {A : Type} `{Inhabited A}.
(** The order on the elements that the closure [less] compares by. *)
Variable less : A -> A -> bool.

(** The closure [func(i, j int) bool { return less(slice[i], slice[j]) }]. *)
Definition slice_Less (s : list A) (i j : nat) : bool :=
  less (s !!! i) (s !!! j).

(** [reflect.Swapper(slice)] *)
Definition slice_Swap (s : list A) (i j : nat) : list A :=
  <[i := s !!! j]> (<[j := s !!! i]> s).

(** [sort.Slice(slice, less)], on the elements of the slice. *)
Definition Slice (s : list A) : list A :=
  quickSort_func (list A) slice_Less slice_Swap (maxDepth (length s)) s O
    (length s).

End Slice.

End GoSort.

(** *** Slices and their arrays *)

Module GoSlice.

(** The address of an array. *)
Definition loc := positive.

(** The address [&runtime.zerobase] that slices without elements point
    to. *)
Definition zerobase : loc := 1%positive.

(** A slice value: the array, the offset of the first element in it,
    the length and the capacity. *)
Record slice := { array : loc; off : nat; len : nat; cap : nat }.

(** The arrays that are allocated, each with its elements. *)
Abbreviation heap A := (gmap loc (list A)).

Section Elements.

Context {A : Type}.

(** The composite literal [[]T{}]. *)
Definition empty : slice := {| array := zerobase; off := 0; len := 0; cap := 0 |}.

(** The elements [s[0]], ..., [s[len(s)-1]]. *)
Definition read (h : heap A) (s : slice) : option (list A) :=
  if decide (len s = O) then Some []
  else
    match h !! array s with
    | Some arr =>
        if decide (off s + len s <= length arr)%nat
        then Some (take (len s) (drop (off s) arr))
        else None
    | None => None
    end.

(** The elements of [s] replaced by [elems], as many as [s] is long. *)
Definition write (h : heap A) (s : slice) (elems : list A) : heap A :=
  match h !! array s with
  | Some arr =>
      <[array s := take (off s) arr ++ elems ++ drop (off s + len s) arr]> h
  | None => h
  end.

(** [append(dst, src...)]: the elements go behind those of [dst] in its
    array when the capacity reaches; otherwise a new array receives the
    elements of both.  (The room the runtime adds to a new array beyond
    its length is left out: no slice here is ever extended twice.) *)
Definition append (h : heap A) (dst : slice) (src : list A)
  : option (slice * heap A) :=
  if decide (len dst + length src <= cap dst)%nat then
    match src with
    | [] => Some (dst, h)
    | _ :: _ =>
        let dst' := {| array := array dst; off := off dst;
                       len := len dst + length src; cap := cap dst |} in
        match h !! array dst with
        | Some arr =>
            if decide (off dst + len dst + length src <= length arr)%nat
            then Some (dst',
                       <[array dst := take (off dst + len dst) arr ++ src
                                      ++ drop (off dst + len dst + length src) arr]> h)
            else None
        | None => None
        end
    end
  else
    match read h dst with
    | Some old =>
        let l := fresh ({[zerobase]} ∪ dom h) in
        let n := length (old ++ src) in
        Some ({| array := l; off := 0; len := n; cap := n |},
              <[l := old ++ src]> h)
    | None => None
    end.

(** [sort.Slice(s, less)], where [less(i, j)] compares [s[i]] and [s[j]]
    by [lt]: the elements of [s] are sorted in their array. *)
Definition sort_Slice `{Inhabited A} (lt : A -> A -> bool) (h : heap A)
  (s : slice) : option (heap A) :=
  match read h s with
  | Some elems => Some (write h s (GoSort.Slice lt elems))
  | None => None
  end.

End Elements.

End GoSlice.

(** *** sortRequests *)

(** [s1 < s2] on strings: the order of the bytes at the first
    difference, a proper prefix coming first. *)
Fixpoint string_lt (s1 s2 : string) : bool :=
  match s1, s2 with
  | _, EmptyString => false
  | EmptyString, String _ _ => true
  | String a s1', String b s2' =>
      (nat_of_ascii a <? nat_of_ascii b)%nat
      || ((nat_of_ascii a =? nat_of_ascii b)%nat && string_lt s1' s2')
  end.

Section SortRequests.

Variable Item : Type.

#[export] Instance itemRequest_inhabited : Inhabited (itemRequest Item) :=
  populate {| ID := EmptyString; Key := EmptyString; Value := nil_ptr |}.

(** What the closure handed to [sort.Slice] compares:
    [duplicate[i].Key < duplicate[j].Key]. *)
Definition request_less (x y : itemRequest Item) : bool :=
  string_lt (Key x) (Key y).

(** [func sortRequests(requests []*itemRequest) []*itemRequest].  An
    element of the slices is a pointer to a request; the pointers in use
    come from [keysForIDs] and [keysForItems], are not [nil] and point to
    requests that are not written to, and each stands for its request. *)
Definition sortRequests (requests : GoSlice.slice)
  (h : GoSlice.heap (itemRequest Item))
  : option (GoSlice.slice * GoSlice.heap (itemRequest Item)) :=
  match GoSlice.read h requests with
  | Some elems =>
      match GoSlice.append h GoSlice.empty elems with
      | Some (duplicate, h) =>
          match GoSlice.sort_Slice request_less h duplicate with
          | Some h => Some (duplicate, h)
          | None => None
          end
      | None => None
      end
  | None => None
  end.

End SortRequests.

(** The key of [x] is not greater than the key of [y]. *)
Definition key_le {Item : Type} (x y : itemRequest Item) : Prop :=
  string_lt (Key y) (Key x) = false.

(** The requests of [l] with the key [k], in the order they have in
    [l]. *)
Definition with_key {Item : Type} (k : string) (l : list (itemRequest Item))
  : list (itemRequest Item) :=
  filter (λ r, Key r = k) l.

(** The key of [x] is less than the key of [y]. *)
Definition key_lt {Item : Type} (x y : itemRequest Item) : Prop :=
  string_lt (Key x) (Key y) = true.

(** *** What sorting a segment means *)

Section SortSpec.

Local Open Scope nat_scope.

Context {A : Type} `{Inhabited A}.
Variable less : A -> A -> bool.

(** [s'] comes from [s] by swaps at indices from [a] up to [b - 1]. *)
Inductive swapped_within (a b : nat) : list A -> list A -> Prop :=
| swapped_refl s : swapped_within a b s s
| swapped_step s s' i j :
    swapped_within a b s s' -> a <= i < b -> a <= j < b ->
    swapped_within a b s (GoSort.slice_Swap s' i j).

(** The elements at [a], ..., [b - 1] ascend: none is less than one
    before it. *)
Definition sorted_range (a b : nat) (s : list A) : Prop :=
  ∀ i j, a <= i -> i < j -> j < b -> less (s !!! j) (s !!! i) = false.

(** The elements at [first + lo], ..., [first + hi - 1] form a heap: no
    element at [first + p], [lo <= p], is less than one of its children
    at [first + 2p + 1] and [first + 2p + 2]. *)
Definition heap_from (lo hi first : nat) (s : list A) : Prop :=
  ∀ p c, lo <= p -> c < hi -> c = 2 * p + 1 ∨ c = 2 * p + 2 ->
         less (s !!! (first + p)) (s !!! (first + c)) = false.

(** The elements at [lo], ..., [hi - 1] are split around the value [P]:
    none before [b] is greater than [P], those from [b] to [c - 1] are
    neither less nor greater, none from [c] on is less. *)
Definition partitioned (lo b c hi : nat) (P : A) (s : list A) : Prop :=
  (∀ k, lo <= k < b -> less P (s !!! k) = false)
  ∧ (∀ k, b <= k < c -> less P (s !!! k) = false ∧ less (s !!! k) P = false)
  ∧ (∀ k, c <= k < hi -> less (s !!! k) P = false).

(** [s'] comes from [s] by swaps of neighbours of which the second was
    less than the first. *)
Inductive bubbled : list A -> list A -> Prop :=
| bubbled_refl s : bubbled s s
| bubbled_step s s' j :
    bubbled s s' -> S j < length s' ->
    less (s' !!! S j) (s' !!! j) = true ->
    bubbled s (GoSort.slice_Swap s' (S j) j).

End SortSpec.

(** What the specification asks of the enumeration of the root buckets
    for [bits = BaseBucketBits]: [2^bits] entries, no entry twice, every
    entry a string of [bits/4] hexadecimal digits, and the entry at
    index [i] the numeral of [i], so that the entries ascend. *)
Definition all_root_buckets (bits : Z) (keys : list string) : Prop :=
  Z.of_nat (length keys) = 2 ^ bits
  ∧ NoDup keys
  ∧ (∀ i k, keys !! i = Some k ->
       GoString.len k = int_div bits 4
       ∧ GoFmt.all_ldigits k = true
       ∧ GoFmt.hex_value 0 k = Z.of_nat i)
  ∧ (∀ i j ki kj, keys !! i = Some ki -> keys !! j = Some kj -> (i < j)%nat ->
       GoFmt.hex_value 0 ki < GoFmt.hex_value 0 kj).

(** ** Part II. Properties *)

(** *** Strings *)

Section StringFacts.

Lemma take_length n s :
  (n <= String.length s)%nat -> String.length (GoString.take n s) = n.
Proof.
  revert s. induction n as [|n IH]; intros [|c s] Hn; simpl in *;
    try reflexivity; try lia.
  rewrite IH; [reflexivity | lia].
Qed.

Lemma take_drop n s : (GoString.take n s ++ GoString.drop n s)%string = s.
Proof.
  revert s. induction n as [|n IH]; intros [|c s]; try reflexivity.
  change (String c (GoString.take n s +:+ GoString.drop n s) = String c s).
  f_equal. apply IH.
Qed.

Lemma slice_prefix s n :
  0 <= n <= GoString.len s ->
  GoString.slice s 0 n = Some (GoString.take (Z.to_nat n) s).
Proof.
  intros [H0 Hn]. unfold GoString.slice.
  replace (0 <=? 0) with true by reflexivity.
  destruct (Z.leb_spec 0 n); [|lia].
  destruct (Z.leb_spec n (GoString.len s)); [|lia].
  simpl. now rewrite Z.sub_0_r.
Qed.

Lemma replace_scan_slash n s :
  n < 0 ->
  list_ascii_of_string (GoString.replace_scan "/" EmptyString n O s)
  = filter (λ c, c ≠ "/"%char) (list_ascii_of_string s).
Proof.
  intros Hn. induction s as [|c s IH]; [reflexivity|].
  cbn [GoString.replace_scan list_ascii_of_string].
  destruct (Z.eqb_spec n 0) as [->|_]; [lia|].
  destruct (Z.ltb_spec 0 n); [lia|].
  cbn [negb andb GoString.has_prefix String.length Nat.pred].
  rewrite filter_cons.
  destruct (Ascii.eqb_spec "/"%char c) as [<-|Hne]; cbn [andb].
  - rewrite decide_False by (intros H'; now apply H').
    simpl. exact IH.
  - rewrite decide_True by congruence.
    cbn [list_ascii_of_string]. now rewrite IH.
Qed.

Lemma GetCacheKey_filter cfg x :
  list_ascii_of_string (GetCacheKey cfg x)
  = filter (λ c, c ≠ "/"%char) (list_ascii_of_string x).
Proof.
  unfold GetCacheKey, GoString.Replace.
  cbn [String.eqb Ascii.eqb orb Z.eqb].
  now apply replace_scan_slash.
Qed.

Lemma list_ascii_inj s1 s2 :
  list_ascii_of_string s1 = list_ascii_of_string s2 -> s1 = s2.
Proof.
  intros H.
  rewrite <- (string_of_list_ascii_of_string s1),
          <- (string_of_list_ascii_of_string s2).
  now rewrite H.
Qed.

Lemma filter_id_not_in (l : list ascii) c :
  c ∉ l -> filter (λ b, b ≠ c) l = l.
Proof.
  induction l as [|b l IH]; intros Hc; [reflexivity|].
  rewrite filter_cons.
  rewrite not_elem_of_cons in Hc. destruct Hc as [Hb Hl].
  rewrite decide_True by congruence. now rewrite IH.
Qed.

End StringFacts.

(** *** firstKey *)

(** C4: with a non-negative [BaseBucketBits], [firstKey] returns an error
    exactly when the key is shorter than [BaseBucketBits/4] bytes (the
    error being "Key too short."); otherwise it returns, without error,
    the first [BaseBucketBits/4] bytes of the key. *)
Theorem firstKey_error_iff (s : StoragePackerV2) (key : string) :
  0 <= BaseBucketBits s ->
  let n := int_div (BaseBucketBits s) 4 in
  ((∃ r e, firstKey s key = Some (r, Some e)) ↔ GoString.len key < n)
  ∧ (GoString.len key < n ->
     ∃ r, firstKey s key = Some (r, Some "Key too short."%string))
  ∧ (n <= GoString.len key ->
     ∃ prefix rest,
       firstKey s key = Some (prefix, None)
       ∧ key = (prefix ++ rest)%string
       ∧ GoString.len prefix = n).
Proof.
  intros Hbits n.
  assert (Hn : 0 <= n) by (subst n; unfold int_div; apply Z.quot_pos; lia).
  unfold firstKey. fold n.
  destruct (Z.ltb_spec (GoString.len key) n) as [Hlt|Hge].
  - split; [|split].
    + split; [intros _; exact Hlt | intros _; eauto].
    + intros _. eauto.
    + intros Hle. lia.
  - rewrite slice_prefix by lia.
    split; [|split].
    + split; [intros (r & e & H); discriminate | lia].
    + lia.
    + intros _.
      exists (GoString.take (Z.to_nat n) key), (GoString.drop (Z.to_nat n) key).
      split; [reflexivity|]. split; [now rewrite take_drop|].
      unfold GoString.len in *. rewrite take_length; lia.
Qed.

Lemma firstKey_error_iff_witness :
  let s := {| BaseBucketBits := 8 |} in
  0 <= BaseBucketBits s
  ∧ firstKey s "3f9a" = Some ("3f"%string, None)
  ∧ firstKey s "3" = Some ("3"%string, Some "Key too short."%string)
  ∧ ((∃ r e, firstKey s "3" = Some (r, Some e)) ↔ GoString.len "3" < 2).
Proof.
  split; [simpl; lia|]. split; [reflexivity|]. split; [reflexivity|].
  exact (proj1 (firstKey_error_iff {| BaseBucketBits := 8 |} "3"
                  ltac:(simpl; lia))).
Defined.

(** C10: when the key is shorter than [BaseBucketBits/4] bytes,
    [firstKey] hands back the whole key, unchanged, next to the error. *)
Theorem firstKey_short_returns_key (s : StoragePackerV2) (key : string) :
  GoString.len key < int_div (BaseBucketBits s) 4 ->
  firstKey s key = Some (key, Some "Key too short."%string).
Proof.
  intros Hlt. unfold firstKey.
  destruct (Z.ltb_spec (GoString.len key) (int_div (BaseBucketBits s) 4));
    [reflexivity | lia].
Qed.

Lemma firstKey_short_returns_key_witness :
  GoString.len "a" < int_div (BaseBucketBits {| BaseBucketBits := 8 |}) 4
  ∧ firstKey {| BaseBucketBits := 8 |} "a"
    = Some ("a"%string, Some "Key too short."%string).
Proof.
  split; [reflexivity|].
  apply (firstKey_short_returns_key {| BaseBucketBits := 8 |} "a").
  reflexivity.
Defined.

(** *** GetCacheKey *)

(** C9: for every string, [GetCacheKey] returns its bytes, in order,
    without the ['/'] bytes; the result holds no ['/']. *)
Theorem GetCacheKey_removes_separators (s : StoragePackerV2) (x : string) :
  list_ascii_of_string (GetCacheKey s x)
  = filter (λ c, c ≠ "/"%char) (list_ascii_of_string x)
  ∧ ("/"%char ∉ list_ascii_of_string (GetCacheKey s x))
  ∧ GetCacheKey s EmptyString = EmptyString
  ∧ GetCacheKey s "//a//b/" = "ab"%string.
Proof.
  split; [apply GetCacheKey_filter|].
  split; [|split; reflexivity].
  rewrite GetCacheKey_filter. intros Hin.
  apply list_elem_of_filter in Hin. now destruct Hin as [Hne _].
Qed.

(** C7: [GetCacheKey] is idempotent, and a string without ['/'] is
    returned as it is. *)
Theorem GetCacheKey_idempotent (s : StoragePackerV2) (x : string) :
  GetCacheKey s (GetCacheKey s x) = GetCacheKey s x
  ∧ ("/"%char ∉ list_ascii_of_string x -> GetCacheKey s x = x).
Proof.
  split.
  - apply list_ascii_inj. rewrite !GetCacheKey_filter.
    apply filter_id_not_in. intros Hin.
    apply list_elem_of_filter in Hin. now destruct Hin as [Hne _].
  - intros Hx. apply list_ascii_inj. rewrite GetCacheKey_filter.
    now apply filter_id_not_in.
Qed.

(** *** checkForDuplicateIds *)

Lemma checkForDuplicateIds_loop_spec (ids : list string) :
  ∀ idsSeen : gmap string bool,
    (NoDup ids
     ∧ (∀ x, x ∈ ids -> idsSeen !! x = None)
     ∧ checkForDuplicateIds_loop idsSeen ids = (false, EmptyString))
    ∨ (∃ pre id post,
         ids = pre ++ id :: post
         ∧ NoDup pre
         ∧ (∀ x, x ∈ pre -> idsSeen !! x = None)
         ∧ (id ∈ pre ∨ is_Some (idsSeen !! id))
         ∧ checkForDuplicateIds_loop idsSeen ids = (true, id)).
Proof.
  induction ids as [|id rest IH]; intros idsSeen.
  - left. split; [constructor|]. split; [|reflexivity].
    intros x Hx. inversion Hx.
  - cbn [checkForDuplicateIds_loop].
    destruct (idsSeen !! id) as [b|] eqn:Hid.
    + right. exists [], id, rest.
      split; [reflexivity|]. split; [constructor|].
      split; [intros x Hx; inversion Hx|]. split; [right; eauto | reflexivity].
    + destruct (IH (<[id := true]> idsSeen))
        as [(Hnd & Hfresh & Hres) | (pre & d & post & -> & Hnd & Hfresh & Hd & Hres)].
      * left. split; [|split; [|exact Hres]].
        -- constructor; [|exact Hnd]. intros Hin.
           specialize (Hfresh _ Hin). now rewrite lookup_insert_eq in Hfresh.
        -- intros x Hx. apply elem_of_cons in Hx as [->|Hx]; [exact Hid|].
           specialize (Hfresh _ Hx).
           destruct (decide (id = x)) as [->|Hne].
           ++ now rewrite lookup_insert_eq in Hfresh.
           ++ now rewrite lookup_insert_ne in Hfresh.
      * right. exists (id :: pre), d, post.
        assert (Hpre : ∀ x, x ∈ pre -> x ≠ id ∧ idsSeen !! x = None).
        { intros x Hx. specialize (Hfresh _ Hx).
          destruct (decide (id = x)) as [->|Hne].
          - now rewrite lookup_insert_eq in Hfresh.
          - rewrite lookup_insert_ne in Hfresh by exact Hne. split; congruence. }
        split; [reflexivity|]. split.
        { constructor; [|exact Hnd]. intros Hin. now destruct (Hpre _ Hin). }
        split.
        { intros x Hx. apply elem_of_cons in Hx as [->|Hx]; [exact Hid|].
          now destruct (Hpre _ Hx). }
        split; [|exact Hres].
        destruct Hd as [Hd|Hd].
        -- left. now apply elem_of_cons; right.
        -- destruct (decide (id = d)) as [->|Hne].
           ++ left. now apply elem_of_cons; left.
           ++ rewrite lookup_insert_ne in Hd by exact Hne. now right.
Qed.

(** C5: [checkForDuplicateIds] answers [false] and the empty string on
    a sequence without repetition; otherwise it answers [(true, id)] for
    the first entry [id] that already occurs before it: the first ID, in
    the order of the input, to come a second time.  The two examples of
    the specification are instances. *)
Theorem checkForDuplicateIds_first_repeat (ids : list string) :
  (NoDup ids -> checkForDuplicateIds ids = (false, EmptyString))
  ∧ (¬ NoDup ids ->
     ∃ pre id post,
       ids = pre ++ id :: post ∧ NoDup pre ∧ id ∈ pre
       ∧ checkForDuplicateIds ids = (true, id))
  ∧ checkForDuplicateIds ["a"; "b"; "a"]%string = (true, "a"%string)
  ∧ checkForDuplicateIds ["a"; "b"; "c"]%string = (false, EmptyString)
  ∧ checkForDuplicateIds ["a"; "b"; "b"; "a"]%string = (true, "b"%string).
Proof.
  unfold checkForDuplicateIds.
  destruct (checkForDuplicateIds_loop_spec ids ∅)
    as [(Hnd & _ & Hres) | (pre & id & post & Hids & Hnd & _ & Hd & Hres)].
  - split; [intros _; exact Hres|]. split; [intros Hn; contradiction|].
    repeat split; reflexivity.
  - assert (Hin : id ∈ pre).
    { destruct Hd as [Hd|[b Hb]]; [exact Hd|]. now rewrite lookup_empty in Hb. }
    split; [|split; [|repeat split; reflexivity]].
    + intros Hall. exfalso. subst ids.
      apply NoDup_app in Hall as (_ & Hdisj & _).
      apply (Hdisj id Hin). now apply elem_of_cons; left.
    + intros _. exists pre, id, post. auto.
Qed.

(** *** GetItemIDHash, keysForIDs, keysForItems *)

Section RequestFacts.

Variable Blake2b256Hash : string -> list Byte.byte.
Variable Item : Type.
Variable Item_ID : Item -> string.

Lemma keysForIDs_loop_app (ids : list string) :
  ∀ requests : list (itemRequest Item),
    keysForIDs_loop Blake2b256Hash Item requests ids
    = requests
      ++ ((λ id, {| ID := id; Key := GetItemIDHash Blake2b256Hash id;
                    Value := nil_ptr |}) <$> ids).
Proof.
  induction ids as [|id rest IH]; intros requests; cbn.
  - now rewrite app_nil_r.
  - rewrite IH, <- app_assoc. reflexivity.
Qed.

Lemma keysForItems_loop_app (items : list Item) :
  ∀ requests : list (itemRequest Item),
    keysForItems_loop Blake2b256Hash Item Item_ID requests (ptr_to <$> items)
    = Some (requests
            ++ ((λ it, {| ID := Item_ID it;
                          Key := GetItemIDHash Blake2b256Hash (Item_ID it);
                          Value := ptr_to it |}) <$> items)).
Proof.
  induction items as [|it rest IH]; intros requests; cbn.
  - now rewrite app_nil_r.
  - rewrite IH, <- app_assoc. reflexivity.
Qed.

(** A [nil] among the items makes [keysForItems] panic. *)
Lemma keysForItems_loop_nil (items : list (pointer Item)) :
  nil_ptr ∈ items ->
  ∀ requests, keysForItems_loop Blake2b256Hash Item Item_ID requests items
              = None.
Proof.
  induction items as [|[|it] rest IH]; intros Hin requests; cbn.
  - inversion Hin.
  - reflexivity.
  - apply IH. apply elem_of_cons in Hin as [Hin|Hin]; [discriminate|exact Hin].
Qed.

End RequestFacts.

(** C6: [keysForIDs] and [keysForItems] return one request per input, in
    the order of the input: request [i] carries the [i]-th ID, the hash
    of that ID as its key, and as its value [nil] ([keysForIDs]) or the
    [i]-th item itself ([keysForItems]). *)
Theorem keysFor_preserve_order
  (Blake2b256Hash : string -> list Byte.byte)
  (Item : Type) (Item_ID : Item -> string)
  (ids : list string) (items : list Item) :
  let Hash := GetItemIDHash Blake2b256Hash in
  (length (keysForIDs Blake2b256Hash Item ids) = length ids
   ∧ ∀ i id, ids !! i = Some id ->
       keysForIDs Blake2b256Hash Item ids !! i
       = Some {| ID := id; Key := Hash id; Value := nil_ptr |})
  ∧ ∃ requests,
      keysForItems Blake2b256Hash Item Item_ID (ptr_to <$> items)
      = Some requests
      ∧ length requests = length items
      ∧ ∀ i it, items !! i = Some it ->
          requests !! i
          = Some {| ID := Item_ID it; Key := Hash (Item_ID it);
                    Value := ptr_to it |}.
Proof.
  intros Hash. split.
  - unfold keysForIDs. rewrite keysForIDs_loop_app. cbn [app].
    split; [apply length_fmap|].
    intros i id Hi. rewrite list_lookup_fmap, Hi. reflexivity.
  - unfold keysForItems. rewrite keysForItems_loop_app. cbn [app].
    eexists. split; [reflexivity|]. split; [apply length_fmap|].
    intros i it Hi. rewrite list_lookup_fmap, Hi. reflexivity.
Qed.



(** What the hypothesis on the primitive is for: were the digest to
    depend on the state (here: on the number of calls so far), two calls
    of [GetItemIDHash] on one ID would return different keys. *)
Example GetItemIDHash_of_a_counting_primitive :
  let hash := λ (id : string) (calls : nat),
    (String.list_byte_of_string id ++ [default Byte.x00 (Byte.of_nat calls)],
     S calls) in
  let first := InProgram.GetItemIDHash nat hash "ab" 0%nat in
  let second := InProgram.GetItemIDHash nat hash "ab" first.2 in
  first.1 = "616200"%string ∧ second.1 = "616201"%string.
Proof. split; reflexivity. Qed.

(** *** fmt.Sprintf and getAllBaseBucketKeys *)

Section FmtFacts.

Import GoFmt.

Lemma string_app_nil_r (s : string) : s +:+ EmptyString = s.
Proof.
  induction s as [|c s IH]; [reflexivity|].
  change (String c (s +:+ EmptyString) = String c s). now rewrite IH.
Qed.

Lemma string_app_length (s1 s2 : string) :
  String.length (s1 +:+ s2) = (String.length s1 + String.length s2)%nat.
Proof.
  induction s1 as [|c s1 IH]; [reflexivity|].
  change (S (String.length (s1 +:+ s2))
          = S (String.length s1 + String.length s2)).
  now rewrite IH.
Qed.

Lemma padding_length n c : String.length (padding n c) = n.
Proof. induction n as [|n IH]; simpl; [reflexivity | now rewrite IH]. Qed.

Lemma hex_value_app acc s1 s2 :
  hex_value acc (s1 +:+ s2) = hex_value (hex_value acc s1) s2.
Proof.
  revert acc. induction s1 as [|c s1 IH]; intros acc; [reflexivity|].
  change (hex_value (acc * 16 + hex_digit_value c) (s1 +:+ s2)
          = hex_value (hex_value (acc * 16 + hex_digit_value c) s1) s2).
  apply IH.
Qed.

Lemma hex_value_padding n acc :
  hex_value acc (padding n "0") = acc * 16 ^ Z.of_nat n.
Proof.
  revert acc. induction n as [|n IH]; intros acc.
  - simpl. lia.
  - cbn [padding hex_value]. rewrite IH.
    change (hex_digit_value "0") with 0.
    rewrite Nat2Z.inj_succ, Z.pow_succ_r by lia. lia.
Qed.

Lemma all_ldigits_app s1 s2 :
  all_ldigits (s1 +:+ s2) = all_ldigits s1 && all_ldigits s2.
Proof.
  induction s1 as [|c s1 IH]; [reflexivity|].
  change (is_ldigit c && all_ldigits (s1 +:+ s2)
          = is_ldigit c && all_ldigits s1 && all_ldigits s2).
  rewrite IH. now rewrite andb_assoc.
Qed.

Lemma all_ldigits_padding n : all_ldigits (padding n "0") = true.
Proof. induction n as [|n IH]; [reflexivity | exact IH]. Qed.

(** A digit of the table is read back as its index. *)
Lemma ldigit_value d :
  0 <= d < 16 -> hex_digit_value (ldigit d) = d ∧ is_ldigit (ldigit d) = true.
Proof.
  intros Hd.
  assert (H : d = 0 ∨ d = 1 ∨ d = 2 ∨ d = 3 ∨ d = 4 ∨ d = 5 ∨ d = 6 ∨ d = 7
              ∨ d = 8 ∨ d = 9 ∨ d = 10 ∨ d = 11 ∨ d = 12 ∨ d = 13 ∨ d = 14
              ∨ d = 15) by lia.
  repeat (destruct H as [->|H]; [split; reflexivity|]).
  subst d. split; reflexivity.
Qed.

(** The digit loop writes the numeral of [u] in front of [acc]. *)
Lemma digits_loop_hex (fuel : nat) :
  ∀ u acc (n : nat),
    0 <= u < 16 ^ Z.of_nat n -> (1 <= n <= fuel)%nat ->
    ∃ ds, digits_loop fuel 16 u acc = ds +:+ acc
          ∧ (1 <= String.length ds <= n)%nat
          ∧ all_ldigits ds = true
          ∧ ∀ a, hex_value a ds = a * 16 ^ Z.of_nat (String.length ds) + u.
Proof.
  induction fuel as [|fuel IH]; intros u acc n Hu Hn; [lia|].
  cbn [digits_loop].
  destruct (Z.ltb_spec u 16) as [Hlt|Hge].
  - exists (String (ldigit u) EmptyString).
    destruct (ldigit_value u ltac:(lia)) as [Hv Hd].
    split; [reflexivity|]. split; [simpl; lia|].
    split; [cbn [all_ldigits]; now rewrite Hd|].
    intros a. cbn [hex_value String.length]. rewrite Hv. lia.
  - destruct n as [|[|n]]; [lia | simpl in Hu; lia |].
    assert (Hpow : 16 ^ Z.of_nat (S (S n)) = 16 * 16 ^ Z.of_nat (S n)).
    { rewrite (Nat2Z.inj_succ (S n)), Z.pow_succ_r by lia. reflexivity. }
    destruct (IH (u / 16) (String (ldigit (u mod 16)) acc) (S n))
      as (ds & Heq & Hlen & Hall & Hval).
    { split; [apply Z.div_pos; lia|].
      apply Z.div_lt_upper_bound; lia. }
    { lia. }
    exists (ds +:+ String (ldigit (u mod 16)) EmptyString).
    destruct (ldigit_value (u mod 16)) as [Hv Hd];
      [apply Z.mod_pos_bound; lia|].
    split.
    { rewrite Heq. clear. induction ds as [|c ds IHds]; [reflexivity|].
      change (String c (ds +:+ String (ldigit (u mod 16)) acc)
              = String c ((ds +:+ String (ldigit (u mod 16)) EmptyString)
                          +:+ acc)).
      now rewrite IHds. }
    split; [rewrite string_app_length; simpl; lia|].
    split.
    { rewrite all_ldigits_app, Hall. cbn [all_ldigits]. now rewrite Hd. }
    intros a. rewrite hex_value_app, Hval. cbn [hex_value].
    rewrite Hv, string_app_length. cbn [String.length].
    replace (String.length ds + 1)%nat with (S (String.length ds)) by lia.
    rewrite Nat2Z.inj_succ, Z.pow_succ_r by lia.
    pose proof (Z.div_mod u 16 ltac:(lia)). lia.
Qed.

(** [%0nx] of [i] is the numeral of [i], [n] digits long. *)
Lemma fmtInteger_hex (n : nat) (i : Z) :
  (1 <= n <= 64)%nat -> 0 <= i < 16 ^ Z.of_nat n ->
  let k := fmtInteger true false (Some (Z.of_nat n)) 16 i in
  String.length k = n ∧ all_ldigits k = true ∧ hex_value 0 k = i.
Proof.
  intros Hn Hi. unfold fmtInteger.
  destruct (Z.ltb_spec i 0) as [?|_]; [lia|].
  rewrite Z.abs_eq by lia.
  destruct (digits_loop_hex 64 i EmptyString n Hi ltac:(lia))
    as (ds & -> & Hlen & Hall & Hval).
  rewrite string_app_nil_r.
  set (zs := padding _ "0").
  assert (Hzs : String.length zs = (n - String.length ds)%nat).
  { subst zs. rewrite padding_length. unfold GoString.len. lia. }
  assert (Hk : String.length (zs +:+ ds) = n).
  { rewrite string_app_length, Hzs. lia. }
  replace (Z.to_nat (Z.of_nat n - GoString.len (zs +:+ ds))) with O
    by (unfold GoString.len; lia).
  cbn [padding].
  change (EmptyString +:+ (zs +:+ ds)) with (zs +:+ ds).
  split; [exact Hk|]. split.
  - rewrite all_ldigits_app, Hall. subst zs.
    now rewrite all_ldigits_padding.
  - rewrite hex_value_app. subst zs. rewrite hex_value_padding, Hval. lia.
Qed.

(** The format built for a root bucket length of 1 to 15 digits asks
    for zero padding to that width and for the verb [x]. *)
Lemma formatString_parse (n : Z) :
  1 <= n <= 15 ->
  ∃ formatString,
    Sprintf "%%0%dx" [n] = Some formatString
    ∧ parse Text formatString = [Verb true false (Some n) "x"].
Proof.
  intros Hn.
  assert (H : n = 1 ∨ n = 2 ∨ n = 3 ∨ n = 4 ∨ n = 5 ∨ n = 6 ∨ n = 7 ∨ n = 8
              ∨ n = 9 ∨ n = 10 ∨ n = 11 ∨ n = 12 ∨ n = 13 ∨ n = 14
              ∨ n = 15) by lia.
  repeat (destruct H as [->|H]; [eexists; split; reflexivity|]).
  subst n. eexists; split; reflexivity.
Qed.

Lemma Sprintf_hex formatString (n : Z) (i : Z) :
  parse Text formatString = [Verb true false (Some n) "x"] ->
  Sprintf formatString [i] = Some (fmtInteger true false (Some n) 16 i).
Proof.
  intros Hp. unfold Sprintf. rewrite Hp.
  change (render [Verb true false (Some n) "x"] [i])
    with (Some (fmtInteger true false (Some n) 16 i +:+ EmptyString)).
  now rewrite string_app_nil_r.
Qed.

Lemma getAllBaseBucketKeys_loop_spec formatString (key : Z -> string)
  (numBuckets : Z) (fuel : nat) :
  ∀ i ret,
    (∀ j, i <= j < numBuckets -> Sprintf formatString [j] = Some (key j)) ->
    numBuckets - i = Z.of_nat fuel ->
    getAllBaseBucketKeys_loop fuel formatString numBuckets i ret
    = Some (ret ++ (key <$> seqZ i (numBuckets - i))).
Proof.
  induction fuel as [|fuel IH]; intros i ret Hkey Hfuel.
  - cbn. rewrite seqZ_nil by lia. now rewrite app_nil_r.
  - cbn [getAllBaseBucketKeys_loop].
    destruct (Z.ltb_spec i numBuckets) as [Hlt|?]; [|lia].
    rewrite Hkey by lia.
    rewrite IH; [|intros j Hj; apply Hkey; lia | lia].
    rewrite (seqZ_cons i) by lia. cbn [fmap list_fmap].
    rewrite <- app_assoc. cbn [app].
    replace (Z.succ i) with (i + 1) by lia.
    replace (Z.pred (numBuckets - i)) with (numBuckets - (i + 1)) by lia.
    reflexivity.
Qed.

End FmtFacts.

(** **** The formats of getAllBaseBucketKeys are all understood *)

Section FmtTotal.

Import GoFmt.

Lemma ldigit_decimal d : 0 <= d < 10 -> is_digit (ldigit d) = true.
Proof.
  intros Hd.
  assert (H : d = 0 ∨ d = 1 ∨ d = 2 ∨ d = 3 ∨ d = 4 ∨ d = 5 ∨ d = 6 ∨ d = 7
              ∨ d = 8 ∨ d = 9) by lia.
  repeat (destruct H as [->|H]; [reflexivity|]). now subst d.
Qed.

Lemma digits_loop_decimal (fuel : nat) :
  ∀ u acc, 0 <= u -> all_decimal acc ->
           all_decimal (digits_loop fuel 10 u acc).
Proof.
  induction fuel as [|fuel IH]; intros u acc Hu Hacc; cbn [digits_loop];
    [exact Hacc|].
  destruct (Z.ltb_spec u 10).
  - constructor; [apply ldigit_decimal; lia | exact Hacc].
  - apply IH; [apply Z.div_pos; lia|].
    constructor; [|exact Hacc].
    apply ldigit_decimal, Z.mod_pos_bound. lia.
Qed.

Lemma render_renderable (ps : list piece) :
  renderable ps -> ∀ a, is_Some (render ps a).
Proof.
  induction 1 as [|p ps Hp _ IH]; intros a; [now eexists|].
  destruct p as [c|zero minus wid verb|]; cbn [render].
  - destruct (IH a) as [r ->]. now eexists.
  - subst verb. change (Ascii.eqb "x" "%") with false.
    change (Ascii.eqb "x" "d") with false. change (Ascii.eqb "x" "x") with true.
    cbv iota. destruct a as [|v a].
    + destruct (IH []) as [r ->]. now eexists.
    + destruct (IH a) as [r ->]. now eexists.
  - destruct (IH a) as [r ->]. now eexists.
Qed.

Lemma parse_width_renderable (ds : list ascii) :
  Forall (λ c, is_digit c = true) ds ->
  ∀ st, st ≠ Text ->
        renderable (parse st (string_of_list_ascii ds +:+ "x")).
Proof.
  induction 1 as [|c ds Hc _ IH]; intros st Hst.
  - change (string_of_list_ascii [] +:+ "x") with "x"%string.
    destruct st as [|zero minus|zero minus num|]; [congruence| | |];
      cbn; repeat constructor.
  - change (string_of_list_ascii (c :: ds) +:+ "x")
      with (String c (string_of_list_ascii ds +:+ "x")).
    cbn [parse].
    assert (Hminus : Ascii.eqb c "-" = false).
    { destruct (Ascii.eqb_spec c "-") as [->|]; [discriminate | reflexivity]. }
    destruct st as [|zero minus|zero minus num|]; [congruence| | |];
      cbn [scan_step]; rewrite ?Hminus, ?Hc.
    + destruct (Ascii.eqb c "0"); apply IH; discriminate.
    + destruct (tooLarge num).
      * constructor; [exact I|]. apply IH; discriminate.
      * apply IH; discriminate.
    + apply IH; discriminate.
Qed.

(** The format string for any root bucket length, and what [Sprintf]
    makes of it. *)
Lemma formatString_total (n i : Z) :
  ∃ formatString bucketKey,
    Sprintf "%%0%dx" [n] = Some formatString
    ∧ Sprintf formatString [i] = Some bucketKey.
Proof.
  set (ds := digits_loop 64 10 (Z.abs n) EmptyString).
  assert (Hds : all_decimal ds).
  { apply digits_loop_decimal; [lia | constructor]. }
  assert (Hfmt : Sprintf "%%0%dx" [n]
                 = Some (String "%" (String "0"
                           (fmtInteger false false None 10 n +:+ "x")))).
  { reflexivity. }
  rewrite Hfmt.
  assert (Hint : fmtInteger false false None 10 n
                 = if n <? 0 then String "-" ds else ds).
  { unfold fmtInteger. fold ds. cbv zeta.
    replace (Z.to_nat (0 - GoString.len ds)) with O
      by (unfold GoString.len; lia).
    reflexivity. }
  rewrite Hint.
  assert (Hp : renderable
            (parse Text (String "%" (String "0"
               ((if n <? 0 then String "-" ds else ds) +:+ "x"))))).
  { cbn [parse scan_step]. change (Ascii.eqb "%" "%") with true. cbv iota.
    cbn [parse scan_step]. change (Ascii.eqb "0" "0") with true. cbv iota.
    change (negb false) with true.
    rewrite <- (string_of_list_ascii_of_string ds).
    destruct (n <? 0).
    - change (String "-" (string_of_list_ascii (list_ascii_of_string ds))
              +:+ "x")
        with (String "-" (string_of_list_ascii (list_ascii_of_string ds)
                          +:+ "x")).
      cbn [parse scan_step]. change (Ascii.eqb "-" "0") with false.
      change (Ascii.eqb "-" "-") with true. cbv iota.
      apply parse_width_renderable; [exact Hds | discriminate].
    - apply parse_width_renderable; [exact Hds | discriminate]. }
  destruct (render_renderable _ Hp [i]) as [k Hk].
  eexists _, k. split; [reflexivity | exact Hk].
Qed.

Lemma getAllBaseBucketKeys_loop_total formatString (numBuckets : Z)
  (fuel : nat) :
  (∀ i, is_Some (Sprintf formatString [i])) ->
  ∀ i ret,
    is_Some (getAllBaseBucketKeys_loop fuel formatString numBuckets i ret).
Proof.
  intros Hfmt. induction fuel as [|fuel IH]; intros i ret;
    cbn [getAllBaseBucketKeys_loop]; [now eexists|].
  destruct (i <? numBuckets); [|now eexists].
  destruct (Hfmt i) as [k ->]. apply IH.
Qed.

(** The capacity [numBuckets] that [make] accepts: up to [2^44]
    strings. *)
Lemma makeslice_fits_Pow2 (bits : Z) :
  makeslice_fits string_size (int_of_Pow2 bits) = true ↔ bits <= 44.
Proof.
  unfold makeslice_fits, int_of_Pow2, min_int, string_size, maxAlloc.
  destruct (Z.ltb_spec bits 0) as [Hneg|Hpos]; [split; [lia | reflexivity]|].
  destruct (Z.leb_spec bits 62) as [Hin|Hout].
  - assert (H2 : 0 < 2 ^ bits) by (apply Z.pow_pos_nonneg; lia).
    destruct (Z.leb_spec 0 (2 ^ bits)); [|lia]. cbn [andb].
    change 16 with (2 ^ 4). rewrite <- Z.pow_add_r by lia.
    destruct (Z.leb_spec (2 ^ (4 + bits)) (2 ^ 48)) as [Hle|Hgt].
    + split; [intros _ | reflexivity].
      apply Z.pow_le_mono_r_iff in Hle; lia.
    + split; [discriminate|]. intros Hb. exfalso.
      assert (2 ^ (4 + bits) <= 2 ^ 48) by (apply Z.pow_le_mono_r; lia). lia.
  - split; [discriminate | lia].
Qed.

(** [getAllBaseBucketKeys] fails to return exactly when [make] refuses
    the capacity [2^BaseBucketBits]: from 45 bits on. *)
Lemma getAllBaseBucketKeys_panics_iff (s : StoragePackerV2) :
  getAllBaseBucketKeys s = None ↔ 45 <= BaseBucketBits s.
Proof.
  unfold getAllBaseBucketKeys. cbv zeta.
  destruct (formatString_total (int_div (BaseBucketBits s) 4) 0)
    as (formatString & _ & Hf & _).
  rewrite Hf.
  assert (Htotal : ∀ i, is_Some (Sprintf formatString [i])).
  { intros i.
    destruct (formatString_total (int_div (BaseBucketBits s) 4) i)
      as (f & k & Hf' & Hk).
    rewrite Hf in Hf'. injection Hf' as <-. exists k. exact Hk. }
  pose proof (makeslice_fits_Pow2 (BaseBucketBits s)) as Hfits.
  destruct (makeslice_fits string_size (int_of_Pow2 (BaseBucketBits s))).
  - destruct (getAllBaseBucketKeys_loop_total formatString
                (int_of_Pow2 (BaseBucketBits s))
                (Z.to_nat (int_of_Pow2 (BaseBucketBits s)))
                Htotal 0 []) as [keys ->].
    split; [discriminate|]. intros Hb. apply proj1 in Hfits.
    specialize (Hfits eq_refl). lia.
  - split; [intros _ | reflexivity].
    destruct (Z_le_gt_dec (BaseBucketBits s) 44) as [Hle|Hgt]; [|lia].
    apply Hfits in Hle. discriminate.
Qed.

End FmtTotal.

(** C3 (as amended): when [BaseBucketBits] is a positive multiple of 4
    and [make] accepts [2^BaseBucketBits] strings (that is, up to 44
    bits), [getAllBaseBucketKeys] returns [2^BaseBucketBits] entries, all
    distinct, each a numeral of [BaseBucketBits/4] hexadecimal digits
    padded with zeros, the entry at index [i] denoting [i]: the entries
    are in ascending numeric order. *)
Theorem getAllBaseBucketKeys_enumerates (s : StoragePackerV2) :
  0 < BaseBucketBits s ->
  Z.rem (BaseBucketBits s) 4 = 0 ->
  BaseBucketBits s <= 44 ->
  ∃ keys, getAllBaseBucketKeys s = Some keys
          ∧ all_root_buckets (BaseBucketBits s) keys.
Proof.
  destruct s as [bits]. cbn [BaseBucketBits]. intros Hpos Hrem Hmax.
  set (n := int_div bits 4).
  assert (Hbits : bits = 4 * n).
  { subst n. unfold int_div. pose proof (Z.quot_rem' bits 4). lia. }
  assert (Hn : 1 <= n <= 15) by lia.
  assert (Hpow : 2 ^ bits = 16 ^ Z.of_nat (Z.to_nat n)).
  { rewrite Z2Nat.id by lia. rewrite Hbits.
    change 16 with (2 ^ 4). rewrite <- Z.pow_mul_r by lia. reflexivity. }
  set (key := λ j, GoFmt.fmtInteger true false (Some n) 16 j).
  assert (Hkey : ∀ j, 0 <= j < 2 ^ bits ->
            String.length (key j) = Z.to_nat n
            ∧ GoFmt.all_ldigits (key j) = true
            ∧ GoFmt.hex_value 0 (key j) = j).
  { intros j Hj. subst key. cbv beta.
    pose proof (fmtInteger_hex (Z.to_nat n) j ltac:(lia)) as Hhex.
    rewrite <- Hpow, Z2Nat.id in Hhex by lia. now apply Hhex. }
  destruct (formatString_parse n Hn) as (formatString & Hfmt & Hparse).
  unfold getAllBaseBucketKeys. cbn [BaseBucketBits]. fold n. rewrite Hfmt.
  rewrite (proj2 (makeslice_fits_Pow2 bits) Hmax).
  assert (Hnum : int_of_Pow2 bits = 2 ^ bits).
  { unfold int_of_Pow2.
    destruct (Z.ltb_spec bits 0); [lia|].
    destruct (Z.leb_spec bits 62); [reflexivity | lia]. }
  rewrite Hnum.
  assert (H2 : 0 < 2 ^ bits) by (apply Z.pow_pos_nonneg; lia).
  rewrite (getAllBaseBucketKeys_loop_spec formatString key);
    [|intros j Hj; now apply Sprintf_hex | lia].
  cbn [app]. rewrite Z.sub_0_r.
  eexists. split; [reflexivity|].
  assert (Hlook : ∀ i k, (key <$> seqZ 0 (2 ^ bits)) !! i = Some k ->
            k = key (Z.of_nat i) ∧ 0 <= Z.of_nat i < 2 ^ bits).
  { intros i k Hi. rewrite list_lookup_fmap in Hi.
    destruct (seqZ 0 (2 ^ bits) !! i) as [j|] eqn:Hj; [|discriminate].
    apply lookup_seqZ in Hj as [-> Hlt].
    change (Some (key (0 + Z.of_nat i)) = Some k) in Hi.
    injection Hi as <-. split; [reflexivity | lia]. }
  unfold all_root_buckets. split; [|split; [|split]].
  - rewrite length_fmap, length_seqZ. lia.
  - apply NoDup_fmap_2_strong; [|apply NoDup_seqZ].
    intros x y Hx Hy Heq.
    apply elem_of_seqZ in Hx, Hy.
    destruct (Hkey x ltac:(lia)) as (_ & _ & Hvx).
    destruct (Hkey y ltac:(lia)) as (_ & _ & Hvy).
    rewrite <- Hvx, <- Hvy, Heq. reflexivity.
  - intros i k Hi. apply Hlook in Hi as [-> Hi].
    destruct (Hkey _ Hi) as (Hl & Ha & Hv).
    unfold GoString.len. rewrite Hl. fold n. split; [lia|]. now split.
  - intros i j ki kj Hi Hj Hlt.
    apply Hlook in Hi as [-> Hi]. apply Hlook in Hj as [-> Hj].
    destruct (Hkey _ Hi) as (_ & _ & ->).
    destruct (Hkey _ Hj) as (_ & _ & ->). lia.
Qed.

Lemma getAllBaseBucketKeys_enumerates_witness :
  let s := {| BaseBucketBits := 8 |} in
  0 < BaseBucketBits s
  ∧ Z.rem (BaseBucketBits s) 4 = 0
  ∧ BaseBucketBits s <= 44
  ∧ ∃ keys, getAllBaseBucketKeys s = Some keys
            ∧ all_root_buckets (BaseBucketBits s) keys.
Proof.
  cbn zeta. split; [reflexivity|]. split; [reflexivity|].
  split; [cbn; lia|].
  apply (getAllBaseBucketKeys_enumerates {| BaseBucketBits := 8 |});
    cbn; [lia | reflexivity | lia].
Defined.

(** The scenario of the specification: 8 bits give the 256 keys from
    "00" to "ff". *)
Example getAllBaseBucketKeys_8_bits :
  (λ keys, (length keys, head keys, last keys))
    <$> getAllBaseBucketKeys {| BaseBucketBits := 8 |}
  = Some (256%nat, Some "00"%string, Some "ff"%string).
Proof. vm_compute. reflexivity. Qed.

(** C3 as stated fails: for [BaseBucketBits = 64], a positive multiple
    of 4, [2^64] is not an [int], the capacity handed to [make] is
    negative and the call panics instead of returning the keys.  (So it
    does from 45 bits on, where the capacity is more than [make]
    allows.) *)
Lemma getAllBaseBucketKeys_not_for_64_bits :
  ¬ (∀ s : StoragePackerV2,
       0 < BaseBucketBits s ->
       Z.rem (BaseBucketBits s) 4 = 0 ->
       ∃ keys, getAllBaseBucketKeys s = Some keys
               ∧ all_root_buckets (BaseBucketBits s) keys).
Proof.
  intros H.
  destruct (H {| BaseBucketBits := 64 |}) as (keys & Hkeys & _);
    [reflexivity | reflexivity |].
  vm_compute in Hkeys. discriminate.
Qed.

(** *** sort.Slice *)

Section SortFacts.

Local Open Scope nat_scope.

Context {A : Type} `{Inhabited A}.
Variable less : A -> A -> bool.

(** [less] is a strict weak order, as the comparison of keys is. *)
Hypothesis less_irrefl : ∀ x, less x x = false.
Hypothesis less_trans : ∀ x y z, less x y = true -> less y z = true -> less x z = true.
Hypothesis less_negtrans :
  ∀ x y z, less y x = false -> less z y = false -> less z x = false.

Local Abbreviation Less := (GoSort.slice_Less less).
Local Abbreviation Swap := (@GoSort.slice_Swap A _).
Local Abbreviation within := (@swapped_within A _).
Local Abbreviation sorted := (sorted_range less).

Lemma less_asym x y : less x y = true -> less y x = false.
Proof.
  intros Hxy. destruct (less y x) eqn:Hyx; [|reflexivity].
  pose proof (less_trans x y x Hxy Hyx) as Hc.
  rewrite less_irrefl in Hc. discriminate.
Qed.

(** **** Swaps *)

Lemma Swap_length (s : list A) i j : length (Swap s i j) = length s.
Proof. unfold GoSort.slice_Swap. now rewrite !length_insert. Qed.

Lemma Swap_lookup (s : list A) i j k :
  i < length s -> j < length s ->
  Swap s i j !!! k
  = if decide (k = i) then s !!! j
    else if decide (k = j) then s !!! i else s !!! k.
Proof.
  intros Hi Hj. unfold GoSort.slice_Swap.
  destruct (decide (k = i)) as [->|Hki].
  - rewrite list_lookup_total_insert_eq; [reflexivity|].
    now rewrite length_insert.
  - rewrite list_lookup_total_insert_ne by congruence.
    destruct (decide (k = j)) as [->|Hkj].
    + now rewrite list_lookup_total_insert_eq.
    + now rewrite list_lookup_total_insert_ne by congruence.
Qed.

Lemma Swap_lookup_other (s : list A) i j k :
  k ≠ i -> k ≠ j -> Swap s i j !! k = s !! k.
Proof.
  intros Hi Hj. unfold GoSort.slice_Swap.
  now rewrite !list_lookup_insert_ne by congruence.
Qed.

Lemma insert_head_Permutation (s : list A) j x :
  j < length s -> s !!! j :: <[j := x]> s ≡ₚ x :: s.
Proof.
  revert j. induction s as [|y s IH]; intros [|j] Hj; simpl in Hj; try lia.
  - cbn. apply perm_swap.
  - cbn [lookup_total list_lookup_total insert list_insert].
    etrans; [apply perm_swap|]. etrans; [|apply perm_swap].
    apply perm_skip. apply IH. lia.
Qed.

Lemma Swap_Permutation (s : list A) i j :
  i < length s -> j < length s -> Swap s i j ≡ₚ s.
Proof.
  unfold GoSort.slice_Swap.
  revert i j. induction s as [|x s IH]; intros [|i] [|j] Hi Hj;
    simpl in Hi, Hj; try lia.
  - reflexivity.
  - cbn. now apply insert_head_Permutation; lia.
  - cbn. now apply insert_head_Permutation; lia.
  - cbn [lookup_total list_lookup_total insert list_insert].
    apply perm_skip. apply IH; lia.
Qed.

(** **** Segments changed by swaps *)

Lemma within_trans a b (s1 s2 s3 : list A) :
  within a b s1 s2 -> within a b s2 s3 -> within a b s1 s3.
Proof.
  intros H12 H23. induction H23 as [|s2 s3 i j _ IH Hi Hj]; [exact H12|].
  apply swapped_step; auto.
Qed.

Lemma within_mono a b a' b' (s s' : list A) :
  a' <= a -> b <= b' -> within a b s s' -> within a' b' s s'.
Proof.
  intros Ha Hb Hs. induction Hs as [|s s' i j _ IH Hi Hj]; [constructor|].
  apply swapped_step; [exact IH | lia | lia].
Qed.

Lemma within_Swap a b (s : list A) i j :
  a <= i < b -> a <= j < b -> within a b s (Swap s i j).
Proof. intros Hi Hj. apply swapped_step; [constructor | lia | lia]. Qed.

Lemma within_length a b (s s' : list A) :
  within a b s s' -> length s' = length s.
Proof.
  induction 1 as [|s s' i j _ IH Hi Hj]; [reflexivity|].
  now rewrite Swap_length.
Qed.

Lemma within_outside a b (s s' : list A) k :
  within a b s s' -> ¬ (a <= k < b) -> s' !! k = s !! k.
Proof.
  intros Hs Hk. induction Hs as [|s s' i j _ IH Hi Hj]; [reflexivity|].
  rewrite Swap_lookup_other by lia. exact IH.
Qed.

Lemma within_outside_total a b (s s' : list A) k :
  within a b s s' -> ¬ (a <= k < b) -> s' !!! k = s !!! k.
Proof.
  intros Hs Hk. rewrite !list_lookup_total_alt.
  now rewrite (within_outside a b s s' k Hs Hk).
Qed.

Lemma within_Forall a b (s s' : list A) (P : A -> Prop) :
  within a b s s' -> b <= length s ->
  (∀ k, a <= k < b -> P (s !!! k)) -> ∀ k, a <= k < b -> P (s' !!! k).
Proof.
  intros Hs Hb HP. induction Hs as [|s s' i j Hs IH Hi Hj]; [exact HP|].
  intros k Hk. pose proof (within_length _ _ _ _ Hs) as Hlen.
  rewrite Swap_lookup by lia.
  repeat case_decide; apply IH; auto; lia.
Qed.

Lemma within_Permutation a b (s s' : list A) :
  within a b s s' -> b <= length s -> s' ≡ₚ s.
Proof.
  intros Hs Hb. induction Hs as [|s s' i j Hs IH Hi Hj]; [reflexivity|].
  pose proof (within_length _ _ _ _ Hs) as Hlen.
  rewrite Swap_Permutation by lia. now apply IH.
Qed.

(** **** Insertion sort *)

Lemma sorted_outside a b c e (s s' : list A) :
  within c e s s' -> (e <= a ∨ b <= c) -> sorted a b s -> sorted a b s'.
Proof.
  intros Hw Hdisj Hs i j Hi Hij Hj.
  rewrite !(within_outside_total c e s s') by (auto; lia). apply Hs; lia.
Qed.

Lemma insert_down_spec a (j : nat) :
  ∀ (s : list A) i,
    a <= j -> j <= i -> i < length s ->
    sorted a j s -> sorted j (S i) s ->
    (∀ p q, a <= p < j -> j < q <= i -> less (s !!! q) (s !!! p) = false) ->
    let s' := GoSort.insert_down (list A) Less Swap a j s in
    within a (S i) s s' ∧ sorted a (S i) s'.
Proof.
  induction j as [|j IH]; intros s i Ha Hji Hi Hlow Hhigh Hcross.
  - cbn. split; [constructor|].
    intros p q Hp Hpq Hq. apply Hhigh; lia.
  - cbn [GoSort.insert_down].
    destruct (Nat.ltb_spec a (S j)) as [Haj|Haj]; cbn [andb].
    + destruct (Less s (S j) j) eqn:Hless; unfold GoSort.slice_Less in Hless.
      * (* the element moves one place down *)
        assert (Hsw : ∀ k, Swap s (S j) j !!! k
                  = if decide (k = S j) then s !!! j
                    else if decide (k = j) then s !!! S j else s !!! k).
        { intros k. apply Swap_lookup; lia. }
        destruct (IH (Swap s (S j) j) i) as [Hw Hs]; try lia.
        { now rewrite Swap_length. }
        { intros p q Hp Hpq Hq. rewrite !Hsw.
          repeat case_decide; try lia. apply Hlow; lia. }
        { intros p q Hp Hpq Hq. rewrite !Hsw.
          repeat case_decide; try lia.
          - now apply less_asym.
          - apply Hcross; lia.
          - apply Hhigh; lia.
          - apply Hhigh; lia. }
        { intros p q Hp Hq. rewrite !Hsw.
          repeat case_decide; try lia.
          - apply Hlow; lia.
          - apply Hcross; lia. }
        split; [|exact Hs].
        apply (within_trans _ _ _ (Swap s (S j) j)); [|exact Hw].
        apply within_Swap; lia.
      * (* the element stays *)
        split; [constructor|].
        intros p q Hp Hpq Hq.
        destruct (le_lt_dec (S j) p) as [Hjp|Hjp]; [apply Hhigh; lia|].
        destruct (le_lt_dec q j) as [Hqj|Hqj]; [apply Hlow; lia|].
        destruct (decide (q = S j)) as [->|Hq'].
        -- destruct (decide (p = j)) as [->|Hp']; [exact Hless|].
           apply less_negtrans with (y := s !!! j); [apply Hlow; lia | exact Hless].
        -- apply Hcross; lia.
    + assert (a = S j) by lia. subst a.
      split; [constructor|].
      intros p q Hp Hpq Hq. apply Hhigh; lia.
Qed.

Lemma insertionSort_loop_spec (n : nat) :
  ∀ (s : list A) a i,
    a < i -> i + n <= length s -> sorted a i s ->
    let s' := GoSort.insertionSort_loop (list A) Less Swap n a i s in
    within a (i + n) s s' ∧ sorted a (i + n) s'.
Proof.
  induction n as [|n IH]; intros s a i Hai Hlen Hs.
  - cbn. rewrite Nat.add_0_r. split; [constructor | exact Hs].
  - cbn [GoSort.insertionSort_loop].
    assert (Hhigh : sorted i (S i) s) by (intros p q Hp Hpq Hq; lia).
    assert (Hcross : ∀ p q, a <= p < i -> i < q <= i ->
              less (s !!! q) (s !!! p) = false) by (intros p q Hp Hq; lia).
    destruct (insert_down_spec a i s i ltac:(lia) ltac:(lia) ltac:(lia)
                Hs Hhigh Hcross) as [Hw1 Hs1].
    pose proof (within_length _ _ _ _ Hw1) as Hlen1.
    destruct (IH (GoSort.insert_down (list A) Less Swap a i s) a (S i)
                ltac:(lia) ltac:(lia) Hs1) as [Hw2 Hs2].
    replace (i + S n) with (S i + n) by lia.
    split; [|exact Hs2].
    eapply within_trans; [|exact Hw2].
    eapply within_mono; [| |exact Hw1]; lia.
Qed.

Lemma insertionSort_func_spec (s : list A) a b :
  b <= length s ->
  let s' := GoSort.insertionSort_func (list A) Less Swap s a b in
  within a b s s' ∧ sorted a b s'.
Proof.
  intros Hb. unfold GoSort.insertionSort_func.
  destruct (le_lt_dec b (a + 1)) as [Hsmall|Hbig].
  - replace (b - (a + 1)) with 0 by lia. cbn.
    split; [constructor|]. intros p q Hp Hpq Hq. lia.
  - assert (Hone : sorted a (a + 1) s) by (intros p q Hp Hpq Hq; lia).
    destruct (insertionSort_loop_spec (b - (a + 1)) s a (a + 1)
                ltac:(lia) ltac:(lia) Hone) as [Hw Hs].
    replace (a + 1 + (b - (a + 1))) with b in * by lia.
    split; assumption.
Qed.

(** **** Heapsort *)

Lemma Swap_lookup_rel (s : list A) first r c k :
  first + r < length s -> first + c < length s ->
  Swap s (first + r) (first + c) !!! (first + k)
  = if decide (k = r) then s !!! (first + c)
    else if decide (k = c) then s !!! (first + r) else s !!! (first + k).
Proof.
  intros Hr Hc. rewrite Swap_lookup by lia.
  repeat case_decide; try reflexivity; lia.
Qed.

Lemma siftDown_loop_spec lo hi first (n : nat) :
  ∀ root (s : list A),
    lo <= root -> hi - root <= n -> first + hi <= length s ->
    (∀ p c, lo <= p -> p ≠ root -> c < hi -> c = 2 * p + 1 ∨ c = 2 * p + 2 ->
            less (s !!! (first + p)) (s !!! (first + c)) = false) ->
    (∀ g c, lo <= g -> root = 2 * g + 1 ∨ root = 2 * g + 2 -> c < hi ->
            c = 2 * root + 1 ∨ c = 2 * root + 2 ->
            less (s !!! (first + g)) (s !!! (first + c)) = false) ->
    let s' := GoSort.siftDown_loop (list A) Less Swap n root hi first s in
    within (first + root) (first + hi) s s' ∧ heap_from less lo hi first s'.
Proof.
  induction n as [|n IH]; intros root s Hlo Hn Hlen Hrest Hgrand.
  - cbn. split; [constructor|].
    intros p c Hp Hc Hpc.
    destruct (decide (p = root)) as [->|Hne]; [lia|]. now apply Hrest.
  - cbn [GoSort.siftDown_loop]. cbv zeta.
    destruct (Nat.leb_spec hi (2 * root + 1)) as [Hleaf|Hchild].
    { split; [constructor|].
      intros p c Hp Hc Hpc.
      destruct (decide (p = root)) as [->|Hne]; [lia|]. now apply Hrest. }
    set (child := if ((2 * root + 1 + 1 <? hi)
                      && Less s (first + (2 * root + 1)) (first + (2 * root + 1) + 1))%bool
                  then 2 * root + 1 + 1 else 2 * root + 1).
    assert (Hchild' : child < hi ∧ (child = 2 * root + 1 ∨ child = 2 * root + 2)
              ∧ ∀ c, c < hi -> c = 2 * root + 1 ∨ c = 2 * root + 2 ->
                     less (s !!! (first + child)) (s !!! (first + c)) = false).
    { subst child.
      destruct (Nat.ltb_spec (2 * root + 1 + 1) hi) as [Htwo|Hone]; cbn [andb].
      - destruct (Less s (first + (2 * root + 1)) (first + (2 * root + 1) + 1))
          eqn:Hl; unfold GoSort.slice_Less in Hl.
        + split; [lia|]. split; [lia|]. intros c Hc [->| ->].
          * replace (first + (2 * root + 1 + 1))
              with (first + (2 * root + 1) + 1) by lia.
            now apply less_asym.
          * replace (2 * root + 1 + 1) with (2 * root + 2) by lia.
            apply less_irrefl.
        + split; [lia|]. split; [lia|]. intros c Hc [->| ->].
          * apply less_irrefl.
          * replace (first + (2 * root + 2))
              with (first + (2 * root + 1) + 1) by lia.
            exact Hl.
      - split; [lia|]. split; [lia|]. intros c Hc [->| ->]; [|lia].
        apply less_irrefl. }
    destruct Hchild' as (Hclt & Hcrel & Hmax).
    destruct (Less s (first + root) (first + child)) eqn:Hl;
      unfold GoSort.slice_Less in Hl; cbn [negb].
    + (* the root goes down to the greater child *)
      assert (Hsw : ∀ k, Swap s (first + root) (first + child) !!! (first + k)
                = if decide (k = root) then s !!! (first + child)
                  else if decide (k = child) then s !!! (first + root)
                  else s !!! (first + k)).
      { intros k. apply Swap_lookup_rel; lia. }
      destruct (IH child (Swap s (first + root) (first + child)))
        as [Hw Hheap]; try lia.
      { now rewrite Swap_length. }
      { intros p c Hp Hne Hc Hpc. rewrite !Hsw.
        repeat case_decide; try lia.
        - now apply less_asym.
        - apply Hmax; [lia|]. lia.
        - apply (Hgrand p child); try lia.
        - apply Hrest; try lia. }
      { intros g c Hg Hgc Hc Hcc. rewrite !Hsw.
        repeat case_decide; try lia.
        apply Hrest; lia. }
      split; [|exact Hheap].
      apply (within_trans _ _ _ (Swap s (first + root) (first + child)));
        [apply within_Swap; lia | eapply within_mono; [| |exact Hw]; lia].
    + (* the root is in place *)
      split; [constructor|].
      intros p c Hp Hc Hpc.
      destruct (decide (p = root)) as [->|Hne]; [|now apply Hrest].
      apply less_negtrans with (y := s !!! (first + child)); [|exact Hl].
      now apply Hmax.
Qed.

Lemma siftDown_func_spec lo hi first (s : list A) :
  first + hi <= length s ->
  heap_from less (S lo) hi first s ->
  let s' := GoSort.siftDown_func (list A) Less Swap s lo hi first in
  within (first + lo) (first + hi) s s' ∧ heap_from less lo hi first s'.
Proof.
  intros Hlen Hheap. unfold GoSort.siftDown_func.
  apply siftDown_loop_spec; [lia | lia | lia | |].
  - intros p c Hp Hne Hc Hpc. apply Hheap; lia.
  - intros g c Hg Hgc. lia.
Qed.

Lemma heapSort_build_spec hi first (i : nat) :
  ∀ s : list A,
    first + hi <= length s ->
    heap_from less (S i) hi first s ->
    let s' := GoSort.heapSort_build (list A) Less Swap i hi first s in
    within first (first + hi) s s' ∧ heap_from less 0 hi first s'.
Proof.
  induction i as [|i IH]; intros s Hlen Hheap;
    cbn [GoSort.heapSort_build]; cbv zeta;
    destruct (siftDown_func_spec _ hi first s Hlen Hheap) as [Hw Hh].
  - split; [|exact Hh]. eapply within_mono; [| |exact Hw]; lia.
  - pose proof (within_length _ _ _ _ Hw) as Hl.
    destruct (IH (GoSort.siftDown_func (list A) Less Swap s (S i) hi first)
                ltac:(lia) Hh) as [Hw' Hh'].
    split; [|exact Hh'].
    eapply within_trans; [eapply within_mono; [| |exact Hw]; lia | exact Hw'].
Qed.

(** No element of a heap is greater than its root. *)
Lemma heap_root_max n first (s : list A) :
  heap_from less 0 n first s ->
  ∀ k, k < n -> less (s !!! first) (s !!! (first + k)) = false.
Proof.
  intros Hheap k. induction k as [k IH] using lt_wf_ind. intros Hk.
  destruct k as [|k].
  - rewrite Nat.add_0_r. apply less_irrefl.
  - assert (Hp : S k = 2 * (k / 2) + 1 ∨ S k = 2 * (k / 2) + 2).
    { pose proof (Nat.div_mod k 2 ltac:(lia)).
      pose proof (Nat.mod_upper_bound k 2 ltac:(lia)). lia. }
    assert (Hlt : k / 2 < S k).
    { pose proof (Nat.div_mod k 2 ltac:(lia)). lia. }
    apply less_negtrans with (y := s !!! (first + k / 2)).
    + apply Hheap; [lia | lia | exact Hp].
    + apply IH; lia.
Qed.

Lemma heapSort_pop_spec hi first (n : nat) :
  ∀ s : list A,
    n <= hi -> first + hi <= length s ->
    heap_from less 0 n first s ->
    sorted (first + n) (first + hi) s ->
    (∀ p q, p < n -> n <= q < hi ->
            less (s !!! (first + q)) (s !!! (first + p)) = false) ->
    let s' := GoSort.heapSort_pop (list A) Less Swap n 0 first s in
    within first (first + hi) s s' ∧ sorted first (first + hi) s'.
Proof.
  induction n as [|i IH]; intros s Hn Hlen Hheap Hsorted Hcross.
  - cbn. rewrite Nat.add_0_r in Hsorted. split; [constructor | exact Hsorted].
  - cbn [GoSort.heapSort_pop].
    set (s1 := Swap s first (first + i)).
    assert (Hs1 : ∀ k, s1 !!! (first + k)
              = if decide (k = 0) then s !!! (first + i)
                else if decide (k = i) then s !!! first else s !!! (first + k)).
    { intros k. subst s1.
      replace (Swap s first (first + i)) with (Swap s (first + 0) (first + i))
        by (now rewrite Nat.add_0_r).
      rewrite Swap_lookup_rel by lia. now rewrite Nat.add_0_r. }
    assert (Hl1 : length s1 = length s) by (subst s1; apply Swap_length).
    assert (Hw1 : within first (first + hi) s s1).
    { subst s1. apply within_Swap; lia. }
    assert (Hh1 : heap_from less 1 i first s1).
    { intros p c Hp Hc Hpc. rewrite !Hs1.
      repeat case_decide; try lia. apply Hheap; lia. }
    destruct (siftDown_func_spec 0 i first s1 ltac:(lia) Hh1) as [Hw2 Hh2].
    set (s2 := GoSort.siftDown_func (list A) Less Swap s1 0 i first) in *.
    rewrite Nat.add_0_r in Hw2.
    pose proof (within_length _ _ _ _ Hw2) as Hl2.
    assert (Hout : ∀ q, i <= q -> s2 !!! (first + q) = s1 !!! (first + q)).
    { intros q Hq. apply (within_outside_total first (first + i)); [exact Hw2 | lia]. }
    pose proof (heap_root_max _ _ _ Hheap) as Hmax.
    assert (Hroot : ∀ q, S i <= q < hi ->
              less (s !!! (first + q)) (s !!! first) = false).
    { intros q Hq. specialize (Hcross 0 q ltac:(lia) Hq).
      now rewrite Nat.add_0_r in Hcross. }
    destruct (IH s2) as [Hw3 Hs3]; try lia.
    + exact Hh2.
    + intros p q Hp Hpq Hq.
      replace p with (first + (p - first)) by lia.
      replace q with (first + (q - first)) by lia.
      rewrite !Hout, !Hs1 by lia.
      repeat case_decide; try lia;
        first [apply Hroot; lia | apply Hcross; lia | apply Hsorted; lia].
    + intros p q Hp Hq. rewrite Hout by lia.
      assert (Hall : ∀ k, first <= k < first + i ->
                less (s1 !!! (first + q)) (s1 !!! k) = false).
      { intros k Hk. replace k with (first + (k - first)) by lia.
        rewrite !Hs1.
        repeat case_decide; try lia;
          first [apply Hmax; lia | apply Hroot; lia | apply Hcross; lia]. }
      apply (within_Forall first (first + i) s1 s2
               (λ x, less (s1 !!! (first + q)) x = false) Hw2 ltac:(lia) Hall).
      lia.
    + split; [|exact Hs3].
      eapply within_trans; [exact Hw1|].
      eapply within_trans; [eapply within_mono; [| |exact Hw2]; lia | exact Hw3].
Qed.

Lemma heapSort_func_spec (s : list A) a b :
  a <= b -> b <= length s ->
  let s' := GoSort.heapSort_func (list A) Less Swap s a b in
  within a b s s' ∧ sorted a b s'.
Proof.
  intros Hab Hb. unfold GoSort.heapSort_func. cbv zeta.
  assert (Hvac : heap_from less (S ((b - a - 1) / 2)) (b - a) a s).
  { intros p c Hp Hc Hpc.
    pose proof (Nat.div_mod (b - a - 1) 2 ltac:(lia)).
    pose proof (Nat.mod_upper_bound (b - a - 1) 2 ltac:(lia)). lia. }
  destruct (heapSort_build_spec (b - a) a _ s ltac:(lia) Hvac) as [Hw1 Hh1].
  pose proof (within_length _ _ _ _ Hw1) as Hl1.
  destruct (heapSort_pop_spec (b - a) a (b - a)
              (GoSort.heapSort_build (list A) Less Swap ((b - a - 1) / 2)
                 (b - a) a s) ltac:(lia) ltac:(lia) Hh1)
    as [Hw2 Hs2].
  { intros p q Hp Hpq Hq. lia. }
  { intros p q Hp Hq. lia. }
  replace (a + (b - a)) with b in * by lia.
  split; [|exact Hs2]. eapply within_trans; eassumption.
Qed.

(** **** The pivot *)

Lemma medianOfThree_within a b (s : list A) m1 m0 m2 :
  a <= m1 < b -> a <= m0 < b -> a <= m2 < b ->
  within a b s (GoSort.medianOfThree_func (list A) Less Swap s m1 m0 m2).
Proof.
  intros H1 H0 H2. unfold GoSort.medianOfThree_func. cbv zeta.
  set (s1 := if Less s m1 m0 then Swap s m1 m0 else s).
  assert (Hw1 : within a b s s1).
  { subst s1. destruct (Less s m1 m0); [apply within_Swap; lia | constructor]. }
  clearbody s1.
  destruct (Less s1 m2 m1); [|exact Hw1].
  destruct (Less (Swap s1 m2 m1) m1 m0).
  - apply swapped_step; [|lia|lia]. apply swapped_step; [exact Hw1|lia|lia].
  - apply swapped_step; [exact Hw1|lia|lia].
Qed.

(** After [medianOfThree_func(data, m1, m0, m2)] the element at [m2] is
    not less than the one at [m1]. *)
Lemma medianOfThree_upper (s : list A) m1 m0 m2 :
  m1 < length s -> m0 < length s -> m2 < length s ->
  m1 ≠ m0 -> m0 ≠ m2 -> m1 ≠ m2 ->
  let s' := GoSort.medianOfThree_func (list A) Less Swap s m1 m0 m2 in
  less (s' !!! m2) (s' !!! m1) = false.
Proof.
  intros H1 H0 H2 N10 N02 N12. unfold GoSort.medianOfThree_func. cbv zeta.
  set (s1 := if Less s m1 m0 then Swap s m1 m0 else s).
  assert (Hl1 : length s1 = length s).
  { subst s1. destruct (Less s m1 m0); [apply Swap_length | reflexivity]. }
  assert (H01 : less (s1 !!! m1) (s1 !!! m0) = false).
  { subst s1. destruct (Less s m1 m0) eqn:Hl; unfold GoSort.slice_Less in Hl.
    - rewrite !Swap_lookup by lia. repeat case_decide; try lia.
      now apply less_asym.
    - exact Hl. }
  clearbody s1.
  destruct (Less s1 m2 m1) eqn:Hl2; unfold GoSort.slice_Less in Hl2;
    [|exact Hl2].
  assert (Hsw : ∀ k, Swap s1 m2 m1 !!! k
            = if decide (k = m2) then s1 !!! m1
              else if decide (k = m1) then s1 !!! m2 else s1 !!! k).
  { intros k. apply Swap_lookup; lia. }
  destruct (Less (Swap s1 m2 m1) m1 m0) eqn:Hl3;
    unfold GoSort.slice_Less in Hl3.
  - rewrite !Swap_lookup by (rewrite ?Swap_length; lia).
    repeat case_decide; try lia. exact H01.
  - rewrite !Hsw. repeat case_decide; try lia. now apply less_asym.
Qed.

Lemma skip_less_spec (n : nat) :
  ∀ (s : list A) pivot a,
    let a' := GoSort.skip_less (list A) Less n s pivot a in
    a <= a' <= a + n
    ∧ (∀ k, a <= k < a' -> less (s !!! k) (s !!! pivot) = true)
    ∧ (a' < a + n -> less (s !!! a') (s !!! pivot) = false).
Proof.
  induction n as [|n IH]; intros s pivot a; cbn [GoSort.skip_less].
  - cbv zeta. split; [lia|]. split; intros; lia.
  - destruct (Less s a pivot) eqn:Hl; unfold GoSort.slice_Less in Hl.
    + destruct (IH s pivot (S a)) as (Hr & Hall & Hstop). cbv zeta.
      split; [lia|]. split.
      * intros k Hk. destruct (decide (k = a)) as [->|Hne]; [exact Hl|].
        apply Hall. lia.
      * intros Hlt. apply Hstop. lia.
    + cbv zeta. split; [lia|]. split; [intros; lia | intros _; exact Hl].
Qed.

Lemma skip_not_greater_spec (n : nat) :
  ∀ (s : list A) pivot b,
    let b' := GoSort.skip_not_greater (list A) Less n s pivot b in
    b <= b' <= b + n
    ∧ (∀ k, b <= k < b' -> less (s !!! pivot) (s !!! k) = false)
    ∧ (b' < b + n -> less (s !!! pivot) (s !!! b') = true).
Proof.
  induction n as [|n IH]; intros s pivot b; cbn [GoSort.skip_not_greater].
  - cbv zeta. split; [lia|]. split; intros; lia.
  - destruct (Less s pivot b) eqn:Hl; unfold GoSort.slice_Less in Hl;
      cbn [negb].
    + cbv zeta. split; [lia|]. split; [intros; lia | intros _; exact Hl].
    + destruct (IH s pivot (S b)) as (Hr & Hall & Hstop). cbv zeta.
      split; [lia|]. split.
      * intros k Hk. destruct (decide (k = b)) as [->|Hne]; [exact Hl|].
        apply Hall. lia.
      * intros Hlt. apply Hstop. lia.
Qed.

Lemma skip_greater_spec (n : nat) :
  ∀ (s : list A) pivot c,
    n <= c ->
    let c' := GoSort.skip_greater (list A) Less n s pivot c in
    c - n <= c' <= c
    ∧ (∀ k, c' <= k < c -> less (s !!! pivot) (s !!! k) = true)
    ∧ (c - n < c' -> less (s !!! pivot) (s !!! (c' - 1)) = false).
Proof.
  induction n as [|n IH]; intros s pivot c Hn; cbn [GoSort.skip_greater].
  - cbv zeta. split; [lia|]. split; intros; lia.
  - destruct (Less s pivot (c - 1)) eqn:Hl; unfold GoSort.slice_Less in Hl.
    + destruct (IH s pivot (c - 1) ltac:(lia)) as (Hr & Hall & Hstop).
      cbv zeta. split; [lia|]. split.
      * intros k Hk. destruct (decide (k = c - 1)) as [->|Hne]; [exact Hl|].
        apply Hall. lia.
      * intros Hlt. apply Hstop. lia.
    + cbv zeta. split; [lia|]. split; [intros; lia | intros _; exact Hl].
Qed.

Lemma skip_equal_spec (n : nat) :
  ∀ (s : list A) pivot b,
    n <= b ->
    let b' := GoSort.skip_equal (list A) Less n s pivot b in
    b - n <= b' <= b
    ∧ (∀ k, b' <= k < b -> less (s !!! k) (s !!! pivot) = false)
    ∧ (b - n < b' -> less (s !!! (b' - 1)) (s !!! pivot) = true).
Proof.
  induction n as [|n IH]; intros s pivot b Hn; cbn [GoSort.skip_equal].
  - cbv zeta. split; [lia|]. split; intros; lia.
  - destruct (Less s (b - 1) pivot) eqn:Hl; unfold GoSort.slice_Less in Hl;
      cbn [negb].
    + cbv zeta. split; [lia|]. split; [intros; lia | intros _; exact Hl].
    + destruct (IH s pivot (b - 1) ltac:(lia)) as (Hr & Hall & Hstop).
      cbv zeta. split; [lia|]. split.
      * intros k Hk. destruct (decide (k = b - 1)) as [->|Hne]; [exact Hl|].
        apply Hall. lia.
      * intros Hlt. apply Hstop. lia.
Qed.

(** The partitioning loop: elements up to [b] are not greater than the
    pivot at [lo], elements from [c] on are not less; the loop ends with
    [b = c]. *)
Lemma partition_loop_spec lo hi (n : nat) :
  ∀ (s : list A) b c s' b' c',
    GoSort.partition_loop (list A) Less Swap n s lo b c = (s', b', c') ->
    c - b <= n -> lo < b -> b <= c -> c < hi -> hi <= length s ->
    (∀ k, S lo <= k < b -> less (s !!! lo) (s !!! k) = false) ->
    (∀ k, c <= k < hi -> less (s !!! k) (s !!! lo) = false) ->
    within (S lo) (hi - 1) s s'
    ∧ b' = c' ∧ b <= b' ∧ c' <= c
    ∧ partitioned less (S lo) b' b' hi (s !!! lo) s'.
Proof.
  induction n as [|n IH]; intros s b c s' b' c' Hrun Hn Hb Hbc Hc Hlen
    HL HR;
    cbn [GoSort.partition_loop] in Hrun; cbv zeta in Hrun;
    destruct (skip_not_greater_spec (c - b) s lo b) as (Hb1 & Hle & Hgt);
    set (b1 := GoSort.skip_not_greater (list A) Less (c - b) s lo b) in *;
    destruct (skip_greater_spec (c - b1) s lo c ltac:(lia))
      as (Hc1 & Hge & Hngt);
    set (c1 := GoSort.skip_greater (list A) Less (c - b1) s lo c) in *;
    clearbody b1 c1.
  1, 2: assert (Hdone : c1 <= b1 -> within (S lo) (hi - 1) s s
            ∧ b1 = c1 ∧ b <= b1 ∧ c1 <= c
            ∧ partitioned less (S lo) b1 b1 hi (s !!! lo) s).
  1, 3: intros Hcb; split; [constructor|]; split; [lia|]; split; [lia|];
      split; [lia|]; (split; [|split]);
      [ intros k Hk; destruct (le_lt_dec b k); [apply Hle | apply HL]; lia
      | intros k Hk; lia
      | intros k Hk; destruct (le_lt_dec c k);
          [apply HR; lia | apply less_asym, Hge; lia] ].
  - destruct (Nat.leb_spec c1 b1) as [Hcb|Hcb]; [|lia].
    injection Hrun as <- <- <-. now apply Hdone.
  - destruct (Nat.leb_spec c1 b1) as [Hcb|Hcb].
    { injection Hrun as <- <- <-. now apply Hdone. }
    clear Hdone.
    assert (Hgt1 : less (s !!! lo) (s !!! b1) = true) by (apply Hgt; lia).
    assert (Hle1 : less (s !!! lo) (s !!! (c1 - 1)) = false)
      by (apply Hngt; lia).
    assert (Hne : b1 ≠ c1 - 1) by (intros Heq; rewrite Heq in Hgt1; congruence).
    assert (Hsw : ∀ k, Swap s b1 (c1 - 1) !!! k
              = if decide (k = b1) then s !!! (c1 - 1)
                else if decide (k = c1 - 1) then s !!! b1 else s !!! k).
    { intros k. apply Swap_lookup; lia. }
    assert (Hlo : Swap s b1 (c1 - 1) !!! lo = s !!! lo).
    { rewrite Hsw. repeat case_decide; try lia. reflexivity. }
    apply IH in Hrun; try lia.
    + rewrite Hlo in Hrun.
      destruct Hrun as (Hw & Heq & Hbb & Hcc & Hpart).
      split.
      { apply (within_trans _ _ _ (Swap s b1 (c1 - 1))); [|exact Hw].
        apply within_Swap; lia. }
      split; [exact Heq|]. split; [lia|]. split; [lia | exact Hpart].
    + now rewrite Swap_length.
    + intros k Hk. rewrite Hlo, Hsw. repeat case_decide; try lia.
      * exact Hle1.
      * destruct (le_lt_dec b k); [apply Hle | apply HL]; lia.
    + intros k Hk. rewrite Hlo, Hsw. repeat case_decide; try lia.
      * now apply less_asym.
      * destruct (le_lt_dec c k); [apply HR; lia | apply less_asym, Hge; lia].
Qed.

(** The loop against duplicates of the pivot: elements equal to the
    pivot are gathered below [c]. *)
Lemma protect_loop_spec lo c hi (n : nat) :
  ∀ (s : list A) a b s' a' b',
    GoSort.protect_loop (list A) Less Swap n s lo a b = (s', a', b') ->
    b - a <= n -> lo < a -> lo < b -> b <= c -> c <= hi -> hi <= length s ->
    partitioned less (S lo) b c hi (s !!! lo) s ->
    within (S lo) hi s s'
    ∧ lo < b' ∧ b' <= b
    ∧ partitioned less (S lo) b' c hi (s !!! lo) s'.
Proof.
  induction n as [|n IH]; intros s a b s' a' b' Hrun Hn Ha Hb Hbc Hc Hlen
    (HL & HE & HR);
    cbn [GoSort.protect_loop] in Hrun; cbv zeta in Hrun;
    destruct (skip_equal_spec (b - a) s lo b ltac:(lia)) as (Hb1 & Heq & Hlt);
    set (b1 := GoSort.skip_equal (list A) Less (b - a) s lo b) in *;
    destruct (skip_less_spec (b1 - a) s lo a) as (Ha1 & Hless & Hnl);
    set (a1 := GoSort.skip_less (list A) Less (b1 - a) s lo a) in *;
    clearbody b1 a1.
  1, 2: assert (Hpart : partitioned less (S lo) b1 c hi (s !!! lo) s).
  1, 3: split; [|split];
      [ intros k Hk; apply HL; lia
      | intros k Hk; destruct (le_lt_dec b k);
          [apply HE; lia | split; [apply HL; lia | apply Heq; lia]]
      | exact HR ].
  - destruct (Nat.leb_spec b1 a1) as [Hba|Hba]; [|lia].
    injection Hrun as <- <- <-.
    split; [constructor|]. split; [lia|]. split; [lia | exact Hpart].
  - destruct (Nat.leb_spec b1 a1) as [Hba|Hba].
    { injection Hrun as <- <- <-.
      split; [constructor|]. split; [lia|]. split; [lia | exact Hpart]. }
    destruct Hpart as (HL1 & HE1 & _).
    assert (Hge : less (s !!! a1) (s !!! lo) = false) by (apply Hnl; lia).
    assert (Hlt1 : less (s !!! (b1 - 1)) (s !!! lo) = true) by (apply Hlt; lia).
    assert (Hne : a1 ≠ b1 - 1) by (intros Heq'; rewrite Heq' in Hge; congruence).
    assert (Hsw : ∀ k, Swap s a1 (b1 - 1) !!! k
              = if decide (k = a1) then s !!! (b1 - 1)
                else if decide (k = b1 - 1) then s !!! a1 else s !!! k).
    { intros k. apply Swap_lookup; lia. }
    assert (Hlo : Swap s a1 (b1 - 1) !!! lo = s !!! lo).
    { rewrite Hsw. repeat case_decide; try lia. reflexivity. }
    apply IH in Hrun; try lia.
    + rewrite Hlo in Hrun. destruct Hrun as (Hw & Hb' & Hbb & Hpart).
      split.
      { apply (within_trans _ _ _ (Swap s a1 (b1 - 1))); [|exact Hw].
        apply within_Swap; lia. }
      split; [lia|]. split; [lia | exact Hpart].
    + now rewrite Swap_length.
    + rewrite Hlo. split; [|split].
      * intros k Hk. rewrite Hsw. repeat case_decide; try lia.
        -- now apply less_asym.
        -- apply HL1; lia.
      * intros k Hk. rewrite Hsw. repeat case_decide; try lia.
        -- split; [apply HL1; lia | exact Hge].
        -- apply HE1; lia.
      * intros k Hk. rewrite Hsw. repeat case_decide; try lia.
        apply HR; lia.
Qed.

(** The three probes for duplicates of the pivot keep the partition. *)
Lemma partitioned_swap_last lo c hi P (s : list A) :
  lo < c -> c < hi - 1 -> hi <= length s ->
  partitioned less (S lo) c c hi P s ->
  less P (s !!! (hi - 1)) = false ->
  partitioned less (S lo) c (S c) hi P (Swap s c (hi - 1)).
Proof.
  intros Hlo Hc Hlen (HL & _ & HR) Hle.
  assert (Hsw : ∀ k, Swap s c (hi - 1) !!! k
            = if decide (k = c) then s !!! (hi - 1)
              else if decide (k = hi - 1) then s !!! c else s !!! k).
  { intros k. apply Swap_lookup; lia. }
  split; [|split]; intros k Hk; rewrite Hsw; repeat case_decide; try lia.
  - apply HL; lia.
  - split; [exact Hle | apply HR; lia].
  - apply HR; lia.
  - apply HR; lia.
Qed.

Lemma partitioned_extend lo b c hi P (s : list A) :
  S lo < b ->
  partitioned less (S lo) b c hi P s ->
  less (s !!! (b - 1)) P = false ->
  partitioned less (S lo) (b - 1) c hi P s.
Proof.
  intros Hb (HL & HE & HR) Hge. split; [|split]; intros k Hk.
  - apply HL; lia.
  - destruct (decide (k = b - 1)) as [->|Hne].
    + split; [apply HL; lia | exact Hge].
    + apply HE; lia.
  - apply HR; lia.
Qed.

Lemma partitioned_swap_mid lo m b c hi P (s : list A) :
  lo < m -> m < b -> b <= c -> c <= hi -> hi <= length s ->
  partitioned less (S lo) b c hi P s ->
  less (s !!! m) P = false ->
  partitioned less (S lo) (b - 1) c hi P (Swap s m (b - 1)).
Proof.
  intros Hlo Hm Hbc Hc Hlen (HL & HE & HR) Hge.
  assert (Hsw : ∀ k, Swap s m (b - 1) !!! k
            = if decide (k = m) then s !!! (b - 1)
              else if decide (k = b - 1) then s !!! m else s !!! k).
  { intros k. apply Swap_lookup; lia. }
  split; [|split]; intros k Hk; rewrite Hsw; repeat case_decide; try lia.
  - apply HL; lia.
  - apply HL; lia.
  - subst k. replace m with (b - 1) by lia. split; [apply HL; lia|].
    replace (b - 1) with m by lia. exact Hge.
  - split; [apply HL; lia | exact Hge].
  - apply HE; lia.
  - apply HR; lia.
Qed.

Lemma partitioned_pivot_in lo b c hi (s : list A) :
  lo < b -> b <= c -> c <= hi -> hi <= length s ->
  partitioned less (S lo) b c hi (s !!! lo) s ->
  let s' := Swap s lo (b - 1) in
  s' !!! (b - 1) = s !!! lo
  ∧ partitioned less lo (b - 1) c hi (s !!! lo) s'.
Proof.
  intros Hlo Hbc Hc Hlen (HL & HE & HR). cbv zeta.
  assert (Hsw : ∀ k, Swap s lo (b - 1) !!! k
            = if decide (k = lo) then s !!! (b - 1)
              else if decide (k = b - 1) then s !!! lo else s !!! k).
  { intros k. apply Swap_lookup; lia. }
  split.
  { rewrite Hsw. repeat case_decide; try reflexivity; try lia. f_equal. lia. }
  split; [|split]; intros k Hk; rewrite Hsw; repeat case_decide; try lia.
  - apply HL; lia.
  - apply HL; lia.
  - subst k. replace (b - 1) with lo by lia. split; apply less_irrefl.
  - split; apply less_irrefl.
  - apply HE; lia.
  - apply HR; lia.
Qed.

Lemma doPivot_func_spec (s : list A) lo hi s' mlo mhi :
  GoSort.doPivot_func (list A) Less Swap s lo hi = (s', mlo, mhi) ->
  12 < hi - lo -> hi <= length s ->
  within lo hi s s'
  ∧ lo <= mlo ∧ mlo < mhi ∧ mhi <= hi
  ∧ partitioned less lo mlo mhi hi (s' !!! mlo) s'.
Proof.
  intros Hrun Hn Hlen. unfold GoSort.doPivot_func in Hrun. cbv zeta in Hrun.
  pose proof (Nat.div_mod (lo + hi) 2 ltac:(lia)) as Hm.
  pose proof (Nat.mod_upper_bound (lo + hi) 2 ltac:(lia)) as Hm'.
  pose proof (Nat.div_mod (hi - lo) 8 ltac:(lia)) as Hs8.
  pose proof (Nat.mod_upper_bound (hi - lo) 8 ltac:(lia)) as Hs8'.
  pose proof (Nat.div_mod (hi - lo) 4 ltac:(lia)) as Hq.
  pose proof (Nat.mod_upper_bound (hi - lo) 4 ltac:(lia)) as Hq'.
  set (m := (lo + hi) / 2) in *.
  set (s8 := (hi - lo) / 8) in *.
  set (q := (hi - lo) / 4) in *.
  clearbody m s8 q.
  (* the choice of the pivot *)
  set (d0 := if 40 <? hi - lo then _ else s) in Hrun.
  assert (Hw0 : within lo hi s d0).
  { subst d0. destruct (Nat.ltb_spec 40 (hi - lo)); [|constructor].
    eapply within_trans; [eapply within_trans|];
      apply medianOfThree_within; lia. }
  clearbody d0.
  pose proof (within_length _ _ _ _ Hw0) as Hl0.
  pose proof (medianOfThree_within lo hi d0 lo m (hi - 1)
                ltac:(lia) ltac:(lia) ltac:(lia)) as Hw1.
  pose proof (medianOfThree_upper d0 lo m (hi - 1) ltac:(lia) ltac:(lia)
                ltac:(lia) ltac:(lia) ltac:(lia) ltac:(lia)) as Hup.
  cbv zeta in Hup.
  set (d1 := GoSort.medianOfThree_func (list A) Less Swap d0 lo m (hi - 1)) in *.
  clearbody d1.
  pose proof (within_length _ _ _ _ Hw1) as Hl1.
  assert (Hw : within lo hi s d1) by (eapply within_trans; eassumption).
  assert (Hlen1 : length d1 = length s) by lia.
  clear Hw0 Hw1 Hl0 Hl1. clear d0.
  (* the elements less than the pivot at the front *)
  destruct (skip_less_spec (hi - 1 - (lo + 1)) d1 lo (lo + 1))
    as (Ha & Hlow & _).
  set (a := GoSort.skip_less (list A) Less (hi - 1 - (lo + 1)) d1 lo (lo + 1)) in *.
  clearbody a.
  (* the partition *)
  destruct (GoSort.partition_loop (list A) Less Swap (hi - 1 - a) d1 lo a (hi - 1))
    as [[d2 b] c] eqn:Hpart.
  apply (partition_loop_spec lo hi) in Hpart; try lia.
  2: { intros k Hk. apply less_asym, Hlow. lia. }
  2: { intros k Hk. replace k with (hi - 1) by lia. exact Hup. }
  destruct Hpart as (Hw2 & Hbc & Hab & Hc & Hpart).
  subst c.
  set (P := d1 !!! lo) in *.
  assert (Hinv : length d2 = length s ∧ within lo hi s d2 ∧ d2 !!! lo = P).
  { pose proof (within_length _ _ _ _ Hw2). split; [lia|]. split.
    - eapply within_trans; [exact Hw|]. eapply within_mono; [| |exact Hw2]; lia.
    - apply (within_outside_total (S lo) (hi - 1)); [exact Hw2 | lia]. }
  clear Hw2 Hw Hlow Hup.
  destruct Hinv as (Hl2 & Hw2 & Hlo2).
  (* the probes for duplicates of the pivot *)
  set (blk := if negb (hi - b <? 5) && (hi - b <? q) then _ else _) in Hrun.
  assert (Hblk : ∃ d5 b5 c5 protect,
            blk = (d5, b5, c5, protect)
            ∧ length d5 = length s ∧ within lo hi s d5 ∧ d5 !!! lo = P
            ∧ lo < b5 ∧ b5 <= c5 ∧ c5 <= hi
            ∧ partitioned less (S lo) b5 c5 hi P d5).
  { subst blk.
    destruct (Nat.ltb_spec (hi - b) 5) as [Hfew|Hmany]; cbn [negb andb].
    { exists d2, b, b, true. repeat (split; [first [reflexivity | assumption | lia]|]).
      exact Hpart. }
    destruct (Nat.ltb_spec (hi - b) q) as [Hskew|Hbal].
    2: { exists d2, b, b, false.
         repeat (split; [first [reflexivity | assumption | lia]|]).
         exact Hpart. }
    (* the last element *)
    set (stepA := if negb (Less d2 lo (hi - 1)) then _ else _).
    assert (HA : ∃ d3 c3 dups,
              stepA = (d3, c3, dups)
              ∧ length d3 = length s ∧ within lo hi s d3 ∧ d3 !!! lo = P
              ∧ b <= c3 ∧ c3 <= hi
              ∧ partitioned less (S lo) b c3 hi P d3).
    { subst stepA.
      destruct (Less d2 lo (hi - 1)) eqn:Hl; unfold GoSort.slice_Less in Hl;
        cbn [negb].
      - exists d2, b, 0.
        repeat (split; [first [reflexivity | assumption | lia]|]). exact Hpart.
      - rewrite Hlo2 in Hl.
        exists (Swap d2 b (hi - 1)), (S b), 1.
        split; [reflexivity|]. split; [now rewrite Swap_length|].
        split.
        { apply (within_trans _ _ _ d2); [exact Hw2|]. apply within_Swap; lia. }
        split.
        { rewrite Swap_lookup by lia. repeat case_decide; try lia. exact Hlo2. }
        split; [lia|]. split; [lia|].
        apply partitioned_swap_last; try lia; assumption. }
    destruct HA as (d3 & c3 & dups3 & -> & Hl3 & Hw3 & Hlo3 & Hbc3 & Hc3 & Hp3).
    cbv beta iota.
    (* the element before the middle part *)
    set (stepB := if negb (Less d3 (b - 1) lo) then _ else _).
    assert (HB : ∃ b4 dups,
              stepB = (b4, dups)
              ∧ b - 1 <= b4 ∧ b4 <= b
              ∧ partitioned less (S lo) b4 c3 hi P d3).
    { subst stepB.
      destruct (Less d3 (b - 1) lo) eqn:Hl; unfold GoSort.slice_Less in Hl;
        cbn [negb].
      - exists b, dups3. split; [reflexivity|]. split; [lia|]. split; [lia|].
        exact Hp3.
      - rewrite Hlo3 in Hl.
        exists (b - 1), (S dups3). split; [reflexivity|]. split; [lia|].
        split; [lia|]. apply partitioned_extend; [lia | exact Hp3 | exact Hl]. }
    destruct HB as (b4 & dups4 & -> & Hb4 & Hb4' & Hp4).
    cbv beta iota.
    (* the element in the middle *)
    destruct (Less d3 m lo) eqn:Hl; unfold GoSort.slice_Less in Hl;
      cbn [negb].
    - exists d3, b4, c3, (1 <? dups4).
      repeat (split; [first [reflexivity | assumption | lia]|]). exact Hp4.
    - rewrite Hlo3 in Hl.
      exists (Swap d3 m (b4 - 1)), (b4 - 1), c3, (1 <? S dups4).
      split; [reflexivity|]. split; [now rewrite Swap_length|].
      split.
      { apply (within_trans _ _ _ d3); [exact Hw3|]. apply within_Swap; lia. }
      split.
      { rewrite Swap_lookup by lia. repeat case_decide; try lia. exact Hlo3. }
      split; [lia|]. split; [lia|]. split; [lia|].
      apply partitioned_swap_mid; try lia; assumption. }
  destruct Hblk as (d5 & b5 & c5 & protect & -> & Hl5 & Hw5 & Hlo5 & Hb5 & Hbc5
                    & Hc5 & Hp5).
  cbv beta iota in Hrun.
  (* the loop against duplicates *)
  set (prot := if protect then _ else _) in Hrun.
  assert (Hprot : ∃ d6 a6 b6,
            prot = (d6, a6, b6)
            ∧ length d6 = length s ∧ within lo hi s d6 ∧ d6 !!! lo = P
            ∧ lo < b6 ∧ b6 <= c5
            ∧ partitioned less (S lo) b6 c5 hi P d6).
  { subst prot. destruct protect.
    2: { exists d5, a, b5.
         repeat (split; [first [reflexivity | assumption | lia]|]). exact Hp5. }
    destruct (GoSort.protect_loop (list A) Less Swap (b5 - a) d5 lo a b5)
      as [[d6 a6] b6] eqn:Hloop.
    apply (protect_loop_spec lo c5 hi) in Hloop; try lia.
    2: { now rewrite Hlo5. }
    rewrite Hlo5 in Hloop. destruct Hloop as (Hw6 & Hb6 & Hb6' & Hp6).
    pose proof (within_length _ _ _ _ Hw6) as Hl6.
    exists d6, a6, b6. split; [reflexivity|]. split; [lia|]. split.
    { apply (within_trans _ _ _ d5); [exact Hw5|].
      eapply within_mono; [| |exact Hw6]; lia. }
    split.
    { rewrite <- Hlo5.
      apply (within_outside_total (S lo) hi); [exact Hw6 | lia]. }
    split; [lia|]. split; [lia | exact Hp6]. }
  destruct Hprot as (d6 & a6 & b6 & -> & Hl6 & Hw6 & Hlo6 & Hb6 & Hbc6 & Hp6).
  cbv beta iota in Hrun. injection Hrun as <- <- <-.
  rewrite <- Hlo6 in Hp6.
  destruct (partitioned_pivot_in lo b6 c5 hi d6 Hb6 Hbc6 Hc5 ltac:(lia) Hp6)
    as [Hpiv Hfin].
  split.
  { apply (within_trans _ _ _ d6); [exact Hw6|]. apply within_Swap; lia. }
  split; [lia|]. split; [lia|]. split; [lia|].
  rewrite Hpiv. exact Hfin.
Qed.

(** **** Quicksort *)

Lemma partitioned_within_low a mlo mhi b P (s s' : list A) :
  within a mlo s s' -> mlo <= mhi -> mlo <= length s ->
  partitioned less a mlo mhi b P s -> partitioned less a mlo mhi b P s'.
Proof.
  intros Hw Hm Hlen (HL & HE & HR). split; [|split].
  - apply (within_Forall a mlo s s' (λ x, less P x = false) Hw Hlen HL).
  - intros k Hk. rewrite (within_outside_total a mlo s s') by (auto; lia).
    now apply HE.
  - intros k Hk. rewrite (within_outside_total a mlo s s') by (auto; lia).
    now apply HR.
Qed.

Lemma partitioned_within_high a mlo mhi b P (s s' : list A) :
  within mhi b s s' -> mlo <= mhi -> b <= length s ->
  partitioned less a mlo mhi b P s -> partitioned less a mlo mhi b P s'.
Proof.
  intros Hw Hm Hlen (HL & HE & HR). split; [|split].
  - intros k Hk. rewrite (within_outside_total mhi b s s') by (auto; lia).
    now apply HL.
  - intros k Hk. rewrite (within_outside_total mhi b s s') by (auto; lia).
    now apply HE.
  - apply (within_Forall mhi b s s' (λ x, less x P = false) Hw Hlen HR).
Qed.

Lemma sorted_of_partitioned a mlo mhi b P (s : list A) :
  partitioned less a mlo mhi b P s ->
  sorted a mlo s -> sorted mhi b s -> sorted a b s.
Proof.
  intros (HL & HE & HR) Hlow Hhigh i j Hi Hij Hj.
  destruct (le_lt_dec mlo j) as [Hmj|Hmj]; [|apply Hlow; lia].
  destruct (le_lt_dec mhi i) as [Hmi|Hmi]; [apply Hhigh; lia|].
  apply less_negtrans with (y := P).
  - destruct (le_lt_dec mlo i); [apply HE | apply HL]; lia.
  - destruct (le_lt_dec mhi j); [apply HR | apply HE]; lia.
Qed.

Lemma shell_pass_within a b (n : nat) :
  ∀ i (s : list A),
    a + 6 <= i -> n <= b - i ->
    within a b s (GoSort.shell_pass (list A) Less Swap n i s).
Proof.
  induction n as [|n IH]; intros i s Hi Hb; cbn [GoSort.shell_pass];
    [constructor|].
  eapply within_trans; [|apply IH; lia].
  destruct (Less s i (i - 6)); [apply within_Swap; lia | constructor].
Qed.

Lemma quickSort_func_spec (maxDepth : nat) :
  ∀ (s : list A) a b,
    b <= length s ->
    let s' := GoSort.quickSort_func (list A) Less Swap maxDepth s a b in
    within a b s s' ∧ sorted a b s'.
Proof.
  induction maxDepth as [|maxDepth IH]; intros s a b Hb;
    cbn [GoSort.quickSort_func]; cbv zeta;
    destruct (Nat.ltb_spec 12 (b - a)) as [Hbig|Hsmall].
  1: { apply heapSort_func_spec; lia. }
  2: { destruct (GoSort.doPivot_func (list A) Less Swap s a b)
         as [[s1 mlo] mhi] eqn:Hpivot.
       apply doPivot_func_spec in Hpivot; [|lia|lia].
       destruct Hpivot as (Hw1 & Hlo & Hmid & Hhi & Hpart).
       pose proof (within_length _ _ _ _ Hw1) as Hl1.
       set (P := s1 !!! mlo) in *. clearbody P.
       destruct (mlo - a <? b - mhi).
       - destruct (IH s1 a mlo ltac:(lia)) as [Hw2 Hs2].
         set (s2 := GoSort.quickSort_func (list A) Less Swap maxDepth s1 a mlo) in *.
         pose proof (within_length _ _ _ _ Hw2) as Hl2.
         destruct (IH s2 mhi b ltac:(lia)) as [Hw3 Hs3].
         set (s3 := GoSort.quickSort_func (list A) Less Swap maxDepth s2 mhi b) in *.
         split.
         + eapply within_trans; [exact Hw1|].
           eapply within_trans; (eapply within_mono; [| |eassumption]; lia).
         + apply (sorted_of_partitioned a mlo mhi b P); [|
             apply (sorted_outside a mlo mhi b s2 s3 Hw3); [lia | exact Hs2]
             | exact Hs3].
           apply (partitioned_within_high a mlo mhi b P s2 s3 Hw3); [lia|lia|].
           apply (partitioned_within_low a mlo mhi b P s1 s2 Hw2); [lia|lia|].
           exact Hpart.
       - destruct (IH s1 mhi b ltac:(lia)) as [Hw2 Hs2].
         set (s2 := GoSort.quickSort_func (list A) Less Swap maxDepth s1 mhi b) in *.
         pose proof (within_length _ _ _ _ Hw2) as Hl2.
         destruct (IH s2 a mlo ltac:(lia)) as [Hw3 Hs3].
         set (s3 := GoSort.quickSort_func (list A) Less Swap maxDepth s2 a mlo) in *.
         split.
         + eapply within_trans; [exact Hw1|].
           eapply within_trans; (eapply within_mono; [| |eassumption]; lia).
         + apply (sorted_of_partitioned a mlo mhi b P); [| exact Hs3 |
             apply (sorted_outside mhi b a mlo s2 s3 Hw3); [lia | exact Hs2]].
           apply (partitioned_within_low a mlo mhi b P s2 s3 Hw3); [lia|lia|].
           apply (partitioned_within_high a mlo mhi b P s1 s2 Hw2); [lia|lia|].
           exact Hpart. }
  all: destruct (Nat.ltb_spec 1 (b - a)) as [Htwo|Hone].
  1, 3: pose proof (shell_pass_within a b (b - (a + 6)) (a + 6) s
                     ltac:(lia) ltac:(lia)) as Hw1;
    set (s1 := GoSort.shell_pass (list A) Less Swap (b - (a + 6)) (a + 6) s) in *;
    pose proof (within_length _ _ _ _ Hw1) as Hl1;
    destruct (insertionSort_func_spec s1 a b ltac:(lia)) as [Hw2 Hs2];
    (split; [eapply within_trans; eassumption | exact Hs2]).
  all: split; [constructor | intros i j Hi Hij Hj; lia].
Qed.

(** [sort.Slice] returns the elements of the slice in ascending order. *)
Lemma sorted_range_StronglySorted (s : list A) :
  sorted 0 (length s) s -> StronglySorted (λ x y, less y x = false) s.
Proof.
  induction s as [|x s IH]; intros Hs; constructor.
  - apply IH. intros i j Hi Hij Hj.
    apply (Hs (S i) (S j)); simpl; lia.
  - apply Forall_lookup_2. intros i y Hy.
    pose proof (lookup_lt_Some _ _ _ Hy) as Hlt.
    specialize (Hs 0 (S i) ltac:(lia) ltac:(lia) ltac:(simpl; lia)).
    rewrite (list_lookup_total_correct (x :: s) (S i) y Hy) in Hs.
    exact Hs.
Qed.

Lemma Slice_sorts (s : list A) :
  GoSort.Slice less s ≡ₚ s
  ∧ StronglySorted (λ x y, less y x = false) (GoSort.Slice less s).
Proof.
  unfold GoSort.Slice.
  destruct (quickSort_func_spec (GoSort.maxDepth (length s)) s 0 (length s)
              ltac:(lia)) as [Hw Hs].
  split; [apply (within_Permutation 0 (length s)); [exact Hw | lia]|].
  apply sorted_range_StronglySorted.
  now rewrite (within_length _ _ _ _ Hw).
Qed.

(** **** Short slices are sorted by insertion alone *)

Lemma bubbled_trans (s1 s2 s3 : list A) :
  bubbled less s1 s2 -> bubbled less s2 s3 -> bubbled less s1 s3.
Proof.
  intros H12 H23. induction H23 as [|s2 s3 j _ IH Hj Hl]; [exact H12|].
  apply bubbled_step; auto.
Qed.

Lemma bubbled_length (s s' : list A) : bubbled less s s' -> length s' = length s.
Proof.
  induction 1 as [|s s' j _ IH Hj Hl]; [reflexivity|].
  now rewrite Swap_length.
Qed.

Lemma insert_down_bubbled a (j : nat) :
  ∀ s : list A, j < length s ->
    bubbled less s (GoSort.insert_down (list A) Less Swap a j s).
Proof.
  induction j as [|j IH]; intros s Hj; cbn [GoSort.insert_down];
    [constructor|].
  destruct (a <? S j); cbn [andb]; [|constructor].
  destruct (Less s (S j) j) eqn:Hl; unfold GoSort.slice_Less in Hl;
    [|constructor].
  apply (bubbled_trans _ (Swap s (S j) j)).
  - apply bubbled_step; [constructor | exact Hj | exact Hl].
  - apply IH. rewrite Swap_length. lia.
Qed.

Lemma insertionSort_loop_bubbled (n : nat) :
  ∀ a i (s : list A), i + n <= length s ->
    bubbled less s (GoSort.insertionSort_loop (list A) Less Swap n a i s).
Proof.
  induction n as [|n IH]; intros a i s Hlen; cbn [GoSort.insertionSort_loop];
    [constructor|].
  pose proof (insert_down_bubbled a i s ltac:(lia)) as Hb.
  apply (bubbled_trans _ _ _ Hb). apply IH.
  rewrite (bubbled_length _ _ Hb). lia.
Qed.

Lemma Slice_short_bubbled (s : list A) :
  length s <= 6 -> bubbled less s (GoSort.Slice less s).
Proof.
  intros Hlen. unfold GoSort.Slice.
  destruct (GoSort.maxDepth (length s)); cbn [GoSort.quickSort_func];
    rewrite Nat.sub_0_r;
    (destruct (Nat.ltb_spec 12 (length s)); [lia|]);
    (destruct (Nat.ltb_spec 1 (length s)); [|constructor]);
    (replace (length s - (0 + 6)) with 0 by lia);
    cbn [GoSort.shell_pass]; unfold GoSort.insertionSort_func;
    apply insertionSort_loop_bubbled; lia.
Qed.

End SortFacts.

(** Swapping two neighbours that do not both satisfy [P] leaves the
    subsequence of the elements satisfying [P] as it is. *)
Lemma filter_swap_neighbours {A} `{Inhabited A} (P : A -> Prop)
  `{∀ x, Decision (P x)} (j : nat) :
  ∀ s : list A,
    (S j < length s)%nat ->
    ¬ (P (s !!! S j) ∧ P (s !!! j)) ->
    filter P (GoSort.slice_Swap s (S j) j) = filter P s.
Proof.
  induction j as [|j IH]; intros [|x [|y s]] Hlen Hnot; simpl in Hlen;
    try lia.
  - change (¬ (P y ∧ P x)) in Hnot.
    change (GoSort.slice_Swap (x :: y :: s) 1 0) with (y :: x :: s).
    rewrite !filter_cons.
    destruct (decide (P x)), (decide (P y)); tauto.
  - change (GoSort.slice_Swap (x :: y :: s) (S (S j)) (S j))
      with (x :: GoSort.slice_Swap (y :: s) (S j) j).
    rewrite !(filter_cons _ x). rewrite IH; [reflexivity | simpl; lia | exact Hnot].
Qed.

Lemma bubbled_filter {A} `{Inhabited A} (less : A -> A -> bool) (P : A -> Prop)
  `{∀ x, Decision (P x)} (s s' : list A) :
  (∀ x y, less x y = true -> ¬ (P x ∧ P y)) ->
  bubbled less s s' -> filter P s' = filter P s.
Proof.
  intros Htie Hb. induction Hb as [|s s' j _ IH Hj Hl]; [reflexivity|].
  rewrite filter_swap_neighbours; [exact IH | exact Hj | now apply Htie].
Qed.

(** *** sortRequests *)

Section StringOrder.

Local Open Scope nat_scope.

Lemma string_lt_irrefl (s : string) : string_lt s s = false.
Proof.
  induction s as [|a s IH]; [reflexivity|].
  cbn [string_lt]. now rewrite Nat.ltb_irrefl, Nat.eqb_refl, IH.
Qed.

Lemma string_lt_trans (x : string) :
  ∀ y z, string_lt x y = true -> string_lt y z = true -> string_lt x z = true.
Proof.
  induction x as [|a x IH]; intros [|b y] [|c z]; cbn [string_lt];
    try congruence.
  rewrite !orb_true_iff, !andb_true_iff, !Nat.ltb_lt, !Nat.eqb_eq.
  intros [H1|[H1 H1']] [H2|[H2 H2']].
  - left. lia.
  - left. lia.
  - left. lia.
  - right. split; [lia|]. eapply IH; eassumption.
Qed.

Lemma string_lt_negtrans (x : string) :
  ∀ y z, string_lt y x = false -> string_lt z y = false ->
         string_lt z x = false.
Proof.
  induction x as [|a x IH]; intros [|b y] [|c z]; cbn [string_lt];
    try congruence.
  rewrite !orb_false_iff, !andb_false_iff, !Nat.ltb_ge, !Nat.eqb_neq.
  intros [H1 H1'] [H2 H2']. split; [lia|].
  destruct (decide (nat_of_ascii c = nat_of_ascii a)) as [Heq|Hne];
    [|now left].
  right. apply (IH y z).
  - destruct H1' as [H1'|H1']; [lia | exact H1'].
  - destruct H2' as [H2'|H2']; [lia | exact H2'].
Qed.

End StringOrder.

Section SortRequestsFacts.

Variable Item : Type.

Local Abbreviation request := (itemRequest Item).
Local Abbreviation less := (request_less Item).

Lemma request_less_irrefl (x : request) : less x x = false.
Proof. apply string_lt_irrefl. Qed.

Lemma request_less_trans (x y z : request) :
  less x y = true -> less y z = true -> less x z = true.
Proof. apply string_lt_trans. Qed.

Lemma request_less_negtrans (x y z : request) :
  less y x = false -> less z y = false -> less z x = false.
Proof. apply string_lt_negtrans. Qed.

Lemma Slice_requests_sorts (R : list request) :
  GoSort.Slice less R ≡ₚ R ∧ StronglySorted key_le (GoSort.Slice less R).
Proof.
  apply (Slice_sorts less request_less_irrefl request_less_trans
           request_less_negtrans).
Qed.

Lemma read_whole (h : GoSlice.heap request) l (R : list request) :
  h !! l = Some R ->
  GoSlice.read h {| GoSlice.array := l; GoSlice.off := 0;
                    GoSlice.len := length R; GoSlice.cap := length R |}
  = Some R.
Proof.
  intros Hl. unfold GoSlice.read. cbn [GoSlice.len GoSlice.array GoSlice.off].
  destruct (decide (length R = O)) as [Hz|Hnz].
  - destruct R; [reflexivity | discriminate].
  - rewrite Hl. rewrite decide_True by (simpl; lia).
    now rewrite drop_0, firstn_all.
Qed.

(** What a call of [sortRequests] does: the elements of [requests] are
    copied to a new array and sorted there; the arrays allocated before
    the call keep their elements. *)
Lemma sortRequests_run (h : GoSlice.heap request) requests (R : list request) :
  GoSlice.read h requests = Some R ->
  ∃ duplicate h',
    sortRequests Item requests h = Some (duplicate, h')
    ∧ GoSlice.read h' duplicate = Some (GoSort.Slice less R)
    ∧ GoSlice.read h' requests = Some R
    ∧ ∀ l arr, h !! l = Some arr -> h' !! l = Some arr.
Proof.
  intros Hread. unfold sortRequests. rewrite Hread.
  unfold GoSlice.append.
  cbn [GoSlice.empty GoSlice.len GoSlice.cap GoSlice.array GoSlice.off].
  destruct R as [|x R].
  - rewrite decide_True by (simpl; lia).
    exists GoSlice.empty, h.
    assert (Hsort : @GoSlice.sort_Slice request _ less h GoSlice.empty = Some h).
    { unfold GoSlice.sort_Slice, GoSlice.read, GoSlice.write.
      cbn [GoSlice.empty GoSlice.len GoSlice.array GoSlice.off].
      rewrite decide_True by reflexivity.
      change (GoSort.Slice less []) with (@nil request).
      destruct (h !! GoSlice.zerobase) as [arr|] eqn:Hz; [|reflexivity].
      change (take 0 arr ++ [] ++ drop (0 + 0) arr) with arr.
      now rewrite insert_id. }
    rewrite Hsort. split; [reflexivity|]. split; [reflexivity|].
    split; [exact Hread | auto].
  - rewrite decide_False by (simpl; lia).
    change (GoSlice.read h GoSlice.empty) with (Some (@nil request)).
    cbv beta iota zeta. cbn [app].
    set (l := fresh ({[GoSlice.zerobase]} ∪ dom h)).
    assert (Hfresh : h !! l = None).
    { apply not_elem_of_dom. intros Hin.
      apply (is_fresh ({[GoSlice.zerobase]} ∪ dom h)). fold l. set_solver. }
    set (R0 := x :: R) in *.
    set (duplicate := {| GoSlice.array := l; GoSlice.off := 0;
                         GoSlice.len := length R0; GoSlice.cap := length R0 |}).
    destruct (Slice_requests_sorts R0) as [Hperm _].
    assert (Hlen : length (GoSort.Slice less R0) = length R0)
      by (now rewrite Hperm).
    assert (Hsort : GoSlice.sort_Slice less (<[l := R0]> h) duplicate
                    = Some (<[l := GoSort.Slice less R0]> h)).
    { unfold GoSlice.sort_Slice. subst duplicate.
      rewrite read_whole by apply lookup_insert_eq.
      unfold GoSlice.write. cbn [GoSlice.array GoSlice.off GoSlice.len].
      rewrite lookup_insert_eq.
      change (take 0 R0 ++ GoSort.Slice less R0 ++ drop (0 + length R0) R0)
        with (GoSort.Slice less R0 ++ drop (length R0) R0).
      rewrite drop_all, app_nil_r. now rewrite insert_insert_eq. }
    rewrite Hsort. exists duplicate, (<[l := GoSort.Slice less R0]> h).
    split; [reflexivity|]. split; [|split].
    + subst duplicate. rewrite <- Hlen. apply read_whole, lookup_insert_eq.
    + unfold GoSlice.read in *.
      destruct (decide (GoSlice.len requests = O)); [exact Hread|].
      destruct (h !! GoSlice.array requests) as [arr|] eqn:Harr;
        [|discriminate].
      rewrite lookup_insert_ne by congruence. now rewrite Harr.
    + intros l0 arr Hl0. rewrite lookup_insert_ne by congruence. exact Hl0.
Qed.

End SortRequestsFacts.

(** C1: [sortRequests] returns a slice whose elements are those of its
    argument (each as often as there), in ascending order of their keys;
    the slice it was given, and every array there was before the call,
    still holds the same elements in the same order. *)
Theorem sortRequests_sorts (Item : Type)
  (h : GoSlice.heap (itemRequest Item)) (requests : GoSlice.slice)
  (R : list (itemRequest Item)) :
  GoSlice.read h requests = Some R ->
  ∃ duplicate h' out,
    sortRequests Item requests h = Some (duplicate, h')
    ∧ GoSlice.read h' duplicate = Some out
    ∧ StronglySorted key_le out
    ∧ out ≡ₚ R
    ∧ GoSlice.read h' requests = Some R
    ∧ ∀ l arr, h !! l = Some arr -> h' !! l = Some arr.
Proof.
  intros Hread.
  destruct (sortRequests_run Item h requests R Hread)
    as (duplicate & h' & Hrun & Hout & Hin & Hkeep).
  destruct (Slice_requests_sorts Item R) as [Hperm Hsorted].
  exists duplicate, h', (GoSort.Slice (request_less Item) R).
  repeat (split; [assumption|]). assumption.
Qed.

(** C2 (as amended): whatever keys are equal, [sortRequests] returns;
    the requests with a given key are the same in the result as in the
    argument, each as often as there, and they keep the order they had
    in the argument when there are at most 6 requests.  (For more
    requests the order among equal keys is not kept in general.) *)
Theorem sortRequests_ties (Item : Type)
  (h : GoSlice.heap (itemRequest Item)) (requests : GoSlice.slice)
  (R : list (itemRequest Item)) :
  GoSlice.read h requests = Some R ->
  ∃ duplicate h' out,
    sortRequests Item requests h = Some (duplicate, h')
    ∧ GoSlice.read h' duplicate = Some out
    ∧ (∀ k, with_key k out ≡ₚ with_key k R)
    ∧ ((length R <= 6)%nat -> ∀ k, with_key k out = with_key k R).
Proof.
  intros Hread.
  destruct (sortRequests_run Item h requests R Hread)
    as (duplicate & h' & Hrun & Hout & _ & _).
  destruct (Slice_requests_sorts Item R) as [Hperm _].
  exists duplicate, h', (GoSort.Slice (request_less Item) R).
  split; [exact Hrun|]. split; [exact Hout|]. split.
  - intros k. unfold with_key. now rewrite Hperm.
  - intros Hshort k. unfold with_key.
    apply (bubbled_filter (request_less Item)).
    + intros x y Hlt [Hx Hy]. unfold request_less in Hlt.
      rewrite Hx, Hy, string_lt_irrefl in Hlt. discriminate.
    + now apply Slice_short_bubbled.
Qed.

Lemma sortRequests_sorts_witness :
  let r := λ id k, {| ID := id; Key := k; Value := @nil_ptr nat |} in
  let h : GoSlice.heap (itemRequest nat) :=
    {[ 2%positive := [r "w" "00"; r "x" "c1"; r "y" "0f"; r "z" "ff"]%string ]} in
  let requests := {| GoSlice.array := 2%positive; GoSlice.off := 1;
                     GoSlice.len := 2; GoSlice.cap := 3 |} in
  let R := [r "x" "c1"; r "y" "0f"]%string in
  GoSlice.read h requests = Some R
  ∧ ∃ duplicate h' out,
      sortRequests nat requests h = Some (duplicate, h')
      ∧ GoSlice.read h' duplicate = Some out
      ∧ StronglySorted key_le out
      ∧ out ≡ₚ R
      ∧ GoSlice.read h' requests = Some R
      ∧ ∀ l arr, h !! l = Some arr -> h' !! l = Some arr.
Proof.
  cbv zeta. split; [reflexivity|].
  apply (sortRequests_sorts nat). reflexivity.
Defined.

Lemma sortRequests_ties_witness :
  let r := λ id k, {| ID := id; Key := k; Value := @nil_ptr nat |} in
  let h : GoSlice.heap (itemRequest nat) :=
    {[ 2%positive := [r "x" "c1"; r "y" "0f"; r "z" "0f"]%string ]} in
  let requests := {| GoSlice.array := 2%positive; GoSlice.off := 0;
                     GoSlice.len := 3; GoSlice.cap := 3 |} in
  let R := [r "x" "c1"; r "y" "0f"; r "z" "0f"]%string in
  GoSlice.read h requests = Some R
  ∧ ∃ duplicate h' out,
      sortRequests nat requests h = Some (duplicate, h')
      ∧ GoSlice.read h' duplicate = Some out
      ∧ (∀ k, with_key k out ≡ₚ with_key k R)
      ∧ ((length R <= 6)%nat -> ∀ k, with_key k out = with_key k R).
Proof.
  cbv zeta. split; [reflexivity|].
  apply (sortRequests_ties nat). reflexivity.
Defined.

(** Slices of 7 to 12 elements go through the pass with gap 6 before
    the insertion sort; 7 requests are enough for it to carry a request
    over another one with its key: the pass swaps the first and the last
    request, and the insertion sort brings the request that was first
    back only as far as the other request with the key "62". *)
Example gap_pass_reorders_ties :
  let r := λ id k (n : nat),
    {| ID := id; Key := k; Value := ptr_to (id, n) |} in
  GoSort.Slice (request_less (string * nat))
    [r "b" "62" 1; r "b" "62" 2; r "c" "63" 3; r "c" "63" 4; r "c" "63" 5;
     r "c" "63" 6; r "a" "61" 7]%string%nat
  = [r "a" "61" 7; r "b" "62" 2; r "b" "62" 1; r "c" "63" 3; r "c" "63" 4;
     r "c" "63" 5; r "c" "63" 6]%string%nat.
Proof. vm_compute. reflexivity. Qed.

(** C2 as stated fails.  Thirteen items, the second and the seventh with
    the ID "b", are turned into requests by [keysForItems] (with the
    bytes of the ID for its digest) and sorted.  The first request, with
    the key "67", is the pivot; the six requests after it have smaller
    keys, the six last ones greater keys, so that nothing moves until
    the pivot is swapped into the middle: that swap puts the seventh
    request, the later one with the key "62", first.  The requests before
    the pivot are then sorted by insertion, which leaves the two requests
    with the key "62" in this order, the reverse of the order they came
    in. *)
Lemma sortRequests_reorders_ties :
  let items : list (string * nat) :=
    [("g", 0); ("b", 1); ("c", 2); ("d", 3); ("e", 4); ("f", 5); ("b", 6);
     ("h", 7); ("i", 8); ("j", 9); ("k", 10); ("l", 11); ("m", 12)]%string
      %nat in
  ∃ R h requests duplicate h' out,
    keysForItems String.list_byte_of_string (string * nat) fst (ptr_to <$> items)
    = Some R
    ∧ GoSlice.read h requests = Some R
    ∧ sortRequests (string * nat) requests h = Some (duplicate, h')
    ∧ GoSlice.read h' duplicate = Some out
    ∧ Value <$> with_key "62" R = [ptr_to ("b", 1); ptr_to ("b", 6)]%string%nat
    ∧ Value <$> with_key "62" out = [ptr_to ("b", 6); ptr_to ("b", 1)]%string%nat
    ∧ with_key "62" out ≠ with_key "62" R.
Proof.
  cbv zeta.
  set (r := λ id k (n : nat),
         {| ID := id; Key := k; Value := ptr_to (id, n) |}).
  set (R := [r "g" "67" 0; r "b" "62" 1; r "c" "63" 2; r "d" "64" 3;
             r "e" "65" 4; r "f" "66" 5; r "b" "62" 6; r "h" "68" 7;
             r "i" "69" 8; r "j" "6a" 9; r "k" "6b" 10; r "l" "6c" 11;
             r "m" "6d" 12]%string%nat).
  set (out := [r "b" "62" 6; r "b" "62" 1; r "c" "63" 2; r "d" "64" 3;
               r "e" "65" 4; r "f" "66" 5; r "g" "67" 0; r "h" "68" 7;
               r "i" "69" 8; r "j" "6a" 9; r "k" "6b" 10; r "l" "6c" 11;
               r "m" "6d" 12]%string%nat).
  exists R, {[ 5%positive := R ]},
    {| GoSlice.array := 5%positive; GoSlice.off := 0;
       GoSlice.len := 13; GoSlice.cap := 13 |},
    {| GoSlice.array := 6%positive; GoSlice.off := 0;
       GoSlice.len := 13; GoSlice.cap := 13 |},
    (<[ 6%positive := out ]> {[ 5%positive := R ]}), out.
  split; [reflexivity|]. split; [reflexivity|].
  split; [vm_compute; reflexivity|].
  split; [reflexivity|]. split; [reflexivity|]. split; [reflexivity|].
  vm_compute. discriminate.
Qed.

(** ** Part III. Further properties of the embedded functions *)

(** *** Strings and firstKey *)

Section MoreStringFacts.

Lemma list_ascii_app (x y : string) :
  list_ascii_of_string (x +:+ y)
  = list_ascii_of_string x ++ list_ascii_of_string y.
Proof.
  induction x as [|c x IH]; [reflexivity|].
  change (c :: list_ascii_of_string (x +:+ y)
          = c :: (list_ascii_of_string x ++ list_ascii_of_string y)).
  now rewrite IH.
Qed.

Lemma take_app_length (p rest : string) :
  GoString.take (String.length p) (p +:+ rest) = p.
Proof.
  induction p as [|c p IH]; [now destruct rest|].
  change (String c (GoString.take (String.length p) (p +:+ rest)) = String c p).
  now rewrite IH.
Qed.


(** A key that starts with [BaseBucketBits/4] bytes [p] has the root
    bucket [p]. *)
Lemma firstKey_of_prefix (s : StoragePackerV2) (p rest : string) :
  GoString.len p = int_div (BaseBucketBits s) 4 ->
  firstKey s (p +:+ rest) = Some (p, None).
Proof.
  intros Hp. unfold firstKey. rewrite <- Hp.
  unfold GoString.len in *. rewrite string_app_length.
  destruct (Z.ltb_spec (Z.of_nat (String.length p + String.length rest))
              (Z.of_nat (String.length p))) as [?|_]; [lia|].
  rewrite slice_prefix
    by (unfold GoString.len; rewrite string_app_length; lia).
  now rewrite Nat2Z.id, take_app_length.
Qed.

(** What [firstKey] returns without an error is [BaseBucketBits/4]
    bytes long. *)
Lemma firstKey_success (s : StoragePackerV2) (key prefix : string) :
  firstKey s key = Some (prefix, None) ->
  GoString.len prefix = int_div (BaseBucketBits s) 4
  ∧ prefix = GoString.take (Z.to_nat (int_div (BaseBucketBits s) 4)) key.
Proof.
  unfold firstKey.
  destruct (Z.ltb_spec (GoString.len key) (int_div (BaseBucketBits s) 4))
    as [?|Hge]; [discriminate|].
  unfold GoString.slice.
  destruct (Z.leb_spec 0 (int_div (BaseBucketBits s) 4)) as [Hn|?];
    [|cbn; discriminate].
  destruct (Z.leb_spec (int_div (BaseBucketBits s) 4) (GoString.len key));
    [|lia].
  cbn [Z.leb andb Z.compare]. rewrite Z.sub_0_r.
  change (Z.to_nat 0) with O. cbn [GoString.drop].
  intros Heq. injection Heq as <-. split; [|reflexivity].
  unfold GoString.len in *. rewrite take_length; lia.
Qed.


End MoreStringFacts.

(** *** hex.EncodeToString and GetItemIDHash *)

Section HexFacts.

Import GoFmt.

Lemma digit_value (n : N) :
  (n < 16)%N ->
  hex_digit_value (Hex.digit n) = Z.of_N n ∧ is_ldigit (Hex.digit n) = true.
Proof.
  intros Hn.
  destruct (ldigit_value (Z.of_N n) ltac:(lia)) as [Hv Hd].
  unfold ldigit in Hv, Hd. rewrite N2Z.id in Hv, Hd. now split.
Qed.

(** The two halves of a byte, and the byte they make up. *)
Lemma nibbles_bound (v : Byte.byte) :
  (N.shiftr (Byte.to_N v) 4 < 16)%N ∧ (N.land (Byte.to_N v) 15 < 16)%N
  ∧ Byte.to_N v
    = (16 * N.shiftr (Byte.to_N v) 4 + N.land (Byte.to_N v) 15)%N.
Proof.
  pose proof (Byte.to_N_bounded v) as Hb.
  rewrite N.shiftr_div_pow2.
  change 15%N with (N.ones 4). rewrite N.land_ones.
  change (2 ^ 4)%N with 16%N.
  pose proof (N.Div0.div_mod (Byte.to_N v) 16) as Hdm.
  pose proof (N.mod_upper_bound (Byte.to_N v) 16 ltac:(lia)).
  assert (Byte.to_N v / 16 < 16)%N
    by (apply N.Div0.div_lt_upper_bound; lia).
  lia.
Qed.

Lemma all_ldigits_no_slash (k : string) :
  all_ldigits k = true -> "/"%char ∉ list_ascii_of_string k.
Proof.
  induction k as [|c k IH]; cbn [all_ldigits list_ascii_of_string].
  - intros _ Hin. inversion Hin.
  - intros [Hc Hk]%andb_true_iff. apply not_elem_of_cons. split.
    + intros <-. discriminate.
    + now apply IH.
Qed.

Lemma all_ldigits_take (n : nat) :
  ∀ k, all_ldigits k = true -> all_ldigits (GoString.take n k) = true.
Proof.
  induction n as [|n IH]; intros [|c k]; cbn [GoString.take all_ldigits];
    try reflexivity.
  intros [Hc Hk]%andb_true_iff. rewrite Hc. now apply IH.
Qed.

Lemma EncodeToString_hex (src : list Byte.byte) :
  String.length (Hex.EncodeToString src) = (2 * length src)%nat
  ∧ all_ldigits (Hex.EncodeToString src) = true.
Proof.
  induction src as [|v src [IHl IHa]]; [split; reflexivity|].
  destruct (nibbles_bound v) as (Hhi & Hlo & _).
  destruct (digit_value _ Hhi) as [_ Hd1].
  destruct (digit_value _ Hlo) as [_ Hd2].
  cbn [Hex.EncodeToString String.length all_ldigits length].
  rewrite IHl, Hd1, Hd2, IHa. split; [lia | reflexivity].
Qed.

Lemma EncodeToString_inj (src1 : list Byte.byte) :
  ∀ src2, Hex.EncodeToString src1 = Hex.EncodeToString src2 -> src1 = src2.
Proof.
  induction src1 as [|v1 src1 IH]; intros [|v2 src2]; cbn [Hex.EncodeToString];
    try discriminate; [reflexivity|].
  intros Heq. injection Heq as Hhi Hlo Hrest.
  destruct (nibbles_bound v1) as (Hhi1 & Hlo1 & Hv1).
  destruct (nibbles_bound v2) as (Hhi2 & Hlo2 & Hv2).
  apply (f_equal hex_digit_value) in Hhi, Hlo.
  rewrite !(proj1 (digit_value _ Hhi1)), !(proj1 (digit_value _ Hhi2)) in Hhi.
  rewrite !(proj1 (digit_value _ Hlo1)), !(proj1 (digit_value _ Hlo2)) in Hlo.
  assert (Hv : Byte.to_N v1 = Byte.to_N v2) by lia.
  f_equal; [|now apply IH].
  pose proof (Byte.of_to_N v1) as H1. pose proof (Byte.of_to_N v2) as H2.
  rewrite Hv in H1. congruence.
Qed.

End HexFacts.

(** X1: the key [GetItemIDHash] returns has two bytes for each byte of
    the digest, all of them lower-case hexadecimal digits; it holds no
    ['/'], so that [GetCacheKey] returns it as it is: the key of an item
    is its own cache key. *)
Theorem GetItemIDHash_is_cache_key
  (Blake2b256Hash : string -> list Byte.byte) (s : StoragePackerV2)
  (itemID : string) :
  let key := GetItemIDHash Blake2b256Hash itemID in
  GoString.len key = 2 * Z.of_nat (length (Blake2b256Hash itemID))
  ∧ GoFmt.all_ldigits key = true
  ∧ GetCacheKey s key = key.
Proof.
  intros key. subst key. unfold GetItemIDHash.
  destruct (EncodeToString_hex (Blake2b256Hash itemID)) as [Hlen Hall].
  split; [unfold GoString.len; lia|]. split; [exact Hall|].
  apply list_ascii_inj. rewrite GetCacheKey_filter.
  apply filter_id_not_in. now apply all_ldigits_no_slash.
Qed.

(** X2: two IDs get the same key from [GetItemIDHash] exactly when
    their digests are the same: the hexadecimal rendering adds no
    collision to those of the hash. *)
Theorem GetItemIDHash_collides_iff
  (Blake2b256Hash : string -> list Byte.byte) (id1 id2 : string) :
  GetItemIDHash Blake2b256Hash id1 = GetItemIDHash Blake2b256Hash id2
  ↔ Blake2b256Hash id1 = Blake2b256Hash id2.
Proof.
  unfold GetItemIDHash. split; [apply EncodeToString_inj | now intros ->].
Qed.

(** *** keysForItems *)

Section MoreRequestFacts.

Variable Blake2b256Hash : string -> list Byte.byte.
Variable Item : Type.
Variable Item_ID : Item -> string.

Lemma keysForItems_loop_None (items : list (pointer Item)) :
  ∀ requests,
    keysForItems_loop Blake2b256Hash Item Item_ID requests items = None
    ↔ nil_ptr ∈ items.
Proof.
  induction items as [|[|it] rest IH]; intros requests; cbn.
  - split; [discriminate | intros Hin; inversion Hin].
  - split; [intros _; now left | reflexivity].
  - rewrite IH. split; [intros Hin; now right|].
    intros Hin. apply elem_of_cons in Hin as [Hin|Hin];
      [discriminate | exact Hin].
Qed.

End MoreRequestFacts.

(** X3: [keysForItems] panics exactly when one of the items is [nil];
    no request is returned then, not even for the items before it. *)
Theorem keysForItems_panics_iff_nil
  (Blake2b256Hash : string -> list Byte.byte)
  (Item : Type) (Item_ID : Item -> string) (items : list (pointer Item)) :
  keysForItems Blake2b256Hash Item Item_ID items = None ↔ nil_ptr ∈ items.
Proof. apply keysForItems_loop_None. Qed.

(** *** sortRequests *)

Section MoreStringOrder.

Local Open Scope nat_scope.

Lemma nat_of_ascii_inj (a b : ascii) : nat_of_ascii a = nat_of_ascii b -> a = b.
Proof.
  intros Hab. rewrite <- (ascii_nat_embedding a), <- (ascii_nat_embedding b).
  now rewrite Hab.
Qed.

(** Of two different strings one is less than the other. *)
Lemma string_lt_total (x : string) :
  ∀ y, string_lt x y = false -> string_lt y x = false -> x = y.
Proof.
  induction x as [|a x IH]; intros [|b y]; cbn [string_lt];
    try congruence.
  rewrite !orb_false_iff, !andb_false_iff, !Nat.ltb_ge, !Nat.eqb_neq.
  intros [H1 H1'] [H2 H2'].
  assert (Hab : nat_of_ascii a = nat_of_ascii b) by lia.
  apply nat_of_ascii_inj in Hab as ->. f_equal.
  apply IH.
  - destruct H1' as [H1'|H1']; [congruence | exact H1'].
  - destruct H2' as [H2'|H2']; [congruence | exact H2'].
Qed.

Lemma string_lt_asym (x y : string) :
  string_lt x y = true -> string_lt y x = false.
Proof.
  intros Hxy. destruct (string_lt y x) eqn:Hyx; [|reflexivity].
  pose proof (string_lt_trans _ _ _ Hxy Hyx) as Hxx.
  now rewrite string_lt_irrefl in Hxx.
Qed.


End MoreStringOrder.

Section MoreSortRequestsFacts.

Variable Item : Type.

Local Abbreviation request := (itemRequest Item).

Lemma NoDup_keys_eq (l : list request) (x y : request) :
  NoDup (Key <$> l) -> x ∈ l -> y ∈ l -> Key x = Key y -> x = y.
Proof.
  induction l as [|z l IH]; intros Hnd Hx Hy Hk; [inversion Hx|].
  cbn [fmap list_fmap] in Hnd. apply NoDup_cons in Hnd as [Hz Hnd].
  apply elem_of_cons in Hx as [->|Hx], Hy as [->|Hy].
  - reflexivity.
  - exfalso. apply Hz. rewrite Hk. now apply list_elem_of_fmap_2.
  - exfalso. apply Hz. rewrite <- Hk. now apply list_elem_of_fmap_2.
  - now apply IH.
Qed.

(** Requests with pairwise different keys have one ascending order. *)
Lemma sorted_keys_unique (l1 : list request) :
  ∀ l2, StronglySorted key_le l1 -> StronglySorted key_le l2 ->
        l1 ≡ₚ l2 -> NoDup (Key <$> l1) -> l1 = l2.
Proof.
  induction l1 as [|x l1 IH]; intros l2 Hs1 Hs2 Hperm Hnd.
  - now apply Permutation_nil_l in Hperm.
  - destruct l2 as [|y l2]; [now apply Permutation_nil_r in Hperm|].
    apply StronglySorted_inv in Hs1 as [Hs1 Hx].
    apply StronglySorted_inv in Hs2 as [Hs2 Hy].
    assert (Hxy : x = y).
    { assert (Hxin : x ∈ y :: l2) by (rewrite <- Hperm; now left).
      assert (Hyin : y ∈ x :: l1) by (rewrite Hperm; now left).
      apply elem_of_cons in Hxin as [Hxin|Hxin]; [exact Hxin|].
      apply elem_of_cons in Hyin as [Hyin|Hyin]; [now symmetry|].
      rewrite Forall_forall in Hx, Hy.
      pose proof (Hx y Hyin) as Hle1. pose proof (Hy x Hxin) as Hle2.
      unfold key_le in Hle1, Hle2.
      apply (NoDup_keys_eq (x :: l1)); [exact Hnd | now left | now right |].
      now apply string_lt_total. }
    subst y. f_equal. apply IH; [exact Hs1 | exact Hs2 | |].
    + now apply Permutation_cons_inv in Hperm.
    + cbn [fmap list_fmap] in Hnd. now apply NoDup_cons in Hnd as [_ Hnd].
Qed.

Lemma sorted_keys_strict (l : list request) :
  StronglySorted key_le l -> NoDup (Key <$> l) -> StronglySorted key_lt l.
Proof.
  induction 1 as [|x l Hs IH Hx]; intros Hnd; constructor.
  - apply IH. cbn [fmap list_fmap] in Hnd. now apply NoDup_cons in Hnd as [_ ?].
  - cbn [fmap list_fmap] in Hnd. apply NoDup_cons in Hnd as [Hnin _].
    rewrite Forall_forall in Hx |- *. intros y Hy.
    specialize (Hx y Hy). unfold key_le in Hx. unfold key_lt.
    destruct (string_lt (Key x) (Key y)) eqn:Hlt; [reflexivity|].
    exfalso. apply Hnin.
    rewrite (string_lt_total _ _ Hlt Hx). now apply list_elem_of_fmap_2.
Qed.

Lemma strict_keys_sorted (l : list request) :
  StronglySorted key_lt l -> StronglySorted key_le l ∧ NoDup (Key <$> l).
Proof.
  induction 1 as [|x l Hs [IHs IHn] Hx]; [split; constructor|].
  rewrite Forall_forall in Hx. split.
  - constructor; [exact IHs|]. rewrite Forall_forall. intros y Hy.
    unfold key_le. apply string_lt_asym. now apply Hx.
  - cbn [fmap list_fmap]. apply NoDup_cons. split; [|exact IHn].
    intros Hin. apply list_elem_of_fmap in Hin as (y & Hk & Hy).
    specialize (Hx y Hy). unfold key_lt in Hx.
    rewrite Hk, string_lt_irrefl in Hx. discriminate.
Qed.


(** The slice [sortRequests] returns, and its array: a new one, unless
    there is no request at all. *)
Lemma sortRequests_alloc (h : GoSlice.heap request) requests (R : list request) :
  GoSlice.read h requests = Some R ->
  ∃ duplicate,
    sortRequests Item requests h
    = Some (duplicate,
            if decide (R = []) then h
            else <[GoSlice.array duplicate :=
                     GoSort.Slice (request_less Item) R]> h)
    ∧ GoSlice.off duplicate = O
    ∧ GoSlice.len duplicate = length R
    ∧ GoSlice.cap duplicate = length R
    ∧ (R ≠ [] -> h !! GoSlice.array duplicate = None).
Proof.
  intros Hread. unfold sortRequests. rewrite Hread.
  unfold GoSlice.append.
  cbn [GoSlice.empty GoSlice.len GoSlice.cap GoSlice.array GoSlice.off].
  destruct R as [|x R].
  - rewrite decide_True by (simpl; lia).
    assert (Hsort : @GoSlice.sort_Slice request _ (request_less Item) h
                      GoSlice.empty = Some h).
    { unfold GoSlice.sort_Slice, GoSlice.read, GoSlice.write.
      cbn [GoSlice.empty GoSlice.len GoSlice.array GoSlice.off].
      rewrite decide_True by reflexivity.
      change (GoSort.Slice (request_less Item) []) with (@nil request).
      destruct (h !! GoSlice.zerobase) as [arr|] eqn:Hz; [|reflexivity].
      change (take 0 arr ++ [] ++ drop (0 + 0) arr) with arr.
      now rewrite insert_id. }
    rewrite Hsort. exists GoSlice.empty.
    rewrite decide_True by reflexivity.
    repeat split; try reflexivity. congruence.
  - rewrite decide_False by (simpl; lia).
    change (GoSlice.read h GoSlice.empty) with (Some (@nil request)).
    cbv beta iota zeta. cbn [app].
    set (l := fresh ({[GoSlice.zerobase]} ∪ dom h)).
    assert (Hfresh : h !! l = None).
    { apply not_elem_of_dom. intros Hin.
      apply (is_fresh ({[GoSlice.zerobase]} ∪ dom h)). fold l. set_solver. }
    set (R0 := x :: R) in *.
    set (d := {| GoSlice.array := l; GoSlice.off := 0;
                 GoSlice.len := length R0; GoSlice.cap := length R0 |}).
    assert (Hsort : GoSlice.sort_Slice (request_less Item) (<[l := R0]> h) d
                    = Some (<[l := GoSort.Slice (request_less Item) R0]> h)).
    { unfold GoSlice.sort_Slice. subst d.
      rewrite read_whole by apply lookup_insert_eq.
      unfold GoSlice.write. cbn [GoSlice.array GoSlice.off GoSlice.len].
      rewrite lookup_insert_eq.
      change (take 0 R0 ++ GoSort.Slice (request_less Item) R0
              ++ drop (0 + length R0) R0)
        with (GoSort.Slice (request_less Item) R0 ++ drop (length R0) R0).
      rewrite drop_all, app_nil_r. now rewrite insert_insert_eq. }
    rewrite Hsort. exists d.
    rewrite decide_False by discriminate.
    repeat split; auto.
Qed.

End MoreSortRequestsFacts.

(** X4: the order [sortRequests] returns is canonical: when no two
    requests have the same key, two slices holding the same requests, in
    whatever order, are returned as the same sequence. *)
Theorem sortRequests_canonical (Item : Type)
  (h1 h2 : GoSlice.heap (itemRequest Item)) (requests1 requests2 : GoSlice.slice)
  (R1 R2 : list (itemRequest Item)) :
  GoSlice.read h1 requests1 = Some R1 ->
  GoSlice.read h2 requests2 = Some R2 ->
  R1 ≡ₚ R2 ->
  NoDup (Key <$> R1) ->
  ∃ duplicate1 h1' duplicate2 h2' out,
    sortRequests Item requests1 h1 = Some (duplicate1, h1')
    ∧ sortRequests Item requests2 h2 = Some (duplicate2, h2')
    ∧ GoSlice.read h1' duplicate1 = Some out
    ∧ GoSlice.read h2' duplicate2 = Some out.
Proof.
  intros Hread1 Hread2 Hperm Hnd.
  destruct (sortRequests_run Item h1 requests1 R1 Hread1)
    as (d1 & h1' & Hrun1 & Hout1 & _).
  destruct (sortRequests_run Item h2 requests2 R2 Hread2)
    as (d2 & h2' & Hrun2 & Hout2 & _).
  destruct (Slice_requests_sorts Item R1) as [Hp1 Hs1].
  destruct (Slice_requests_sorts Item R2) as [Hp2 Hs2].
  exists d1, h1', d2, h2', (GoSort.Slice (request_less Item) R1).
  split; [exact Hrun1|]. split; [exact Hrun2|]. split; [exact Hout1|].
  rewrite Hout2. f_equal. symmetry.
  apply sorted_keys_unique; [exact Hs1 | exact Hs2 | |].
  - now rewrite Hp1, Hp2.
  - now rewrite Hp1.
Qed.

Lemma sortRequests_canonical_witness :
  let r := λ id k, {| ID := id; Key := k; Value := @nil_ptr nat |} in
  let R1 := [r "x" "c1"; r "y" "0f"; r "z" "7a"]%string in
  let R2 := [r "z" "7a"; r "x" "c1"; r "y" "0f"]%string in
  let h1 : GoSlice.heap (itemRequest nat) := {[ 2%positive := R1 ]} in
  let h2 : GoSlice.heap (itemRequest nat) := {[ 3%positive := R2 ]} in
  let requests1 := {| GoSlice.array := 2%positive; GoSlice.off := 0;
                      GoSlice.len := 3; GoSlice.cap := 3 |} in
  let requests2 := {| GoSlice.array := 3%positive; GoSlice.off := 0;
                      GoSlice.len := 3; GoSlice.cap := 3 |} in
  GoSlice.read h1 requests1 = Some R1
  ∧ GoSlice.read h2 requests2 = Some R2
  ∧ R1 ≡ₚ R2
  ∧ NoDup (Key <$> R1)
  ∧ ∃ duplicate1 h1' duplicate2 h2' out,
      sortRequests nat requests1 h1 = Some (duplicate1, h1')
      ∧ sortRequests nat requests2 h2 = Some (duplicate2, h2')
      ∧ GoSlice.read h1' duplicate1 = Some out
      ∧ GoSlice.read h2' duplicate2 = Some out.
Proof.
  cbv zeta.
  set (r := λ id k, {| ID := id; Key := k; Value := @nil_ptr nat |}).
  assert (Hperm : [r "x" "c1"; r "y" "0f"; r "z" "7a"]%string
                  ≡ₚ [r "z" "7a"; r "x" "c1"; r "y" "0f"]%string).
  { symmetry. apply (Permutation_cons_app [_; _] []). reflexivity. }
  assert (Hnd : NoDup (Key <$> [r "x" "c1"; r "y" "0f"; r "z" "7a"]%string)).
  { apply (bool_decide_unpack _). vm_compute. exact I. }
  split; [reflexivity|]. split; [reflexivity|]. split; [exact Hperm|].
  split; [exact Hnd|].
  eapply (sortRequests_canonical nat);
    [reflexivity | reflexivity | exact Hperm | exact Hnd].
Defined.

(** X5: requests that come in strictly ascending order of their keys
    are returned by [sortRequests] in the order they came in. *)
Theorem sortRequests_keeps_sorted (Item : Type)
  (h : GoSlice.heap (itemRequest Item)) (requests : GoSlice.slice)
  (R : list (itemRequest Item)) :
  GoSlice.read h requests = Some R ->
  StronglySorted key_lt R ->
  ∃ duplicate h',
    sortRequests Item requests h = Some (duplicate, h')
    ∧ GoSlice.read h' duplicate = Some R.
Proof.
  intros Hread Hsorted.
  destruct (sortRequests_run Item h requests R Hread)
    as (d & h' & Hrun & Hout & _).
  destruct (Slice_requests_sorts Item R) as [Hp Hs].
  destruct (strict_keys_sorted Item R Hsorted) as [Hle Hnd].
  exists d, h'. split; [exact Hrun|]. rewrite Hout. f_equal.
  apply sorted_keys_unique; [exact Hs | exact Hle | exact Hp |].
  now rewrite Hp.
Qed.

Lemma sortRequests_keeps_sorted_witness :
  let r := λ id k, {| ID := id; Key := k; Value := @nil_ptr nat |} in
  let R := [r "y" "0f"; r "z" "7a"; r "x" "c1"]%string in
  let h : GoSlice.heap (itemRequest nat) := {[ 2%positive := R ]} in
  let requests := {| GoSlice.array := 2%positive; GoSlice.off := 0;
                     GoSlice.len := 3; GoSlice.cap := 3 |} in
  GoSlice.read h requests = Some R
  ∧ StronglySorted key_lt R
  ∧ ∃ duplicate h',
      sortRequests nat requests h = Some (duplicate, h')
      ∧ GoSlice.read h' duplicate = Some R.
Proof.
  cbv zeta.
  set (r := λ id k, {| ID := id; Key := k; Value := @nil_ptr nat |}).
  assert (Hs : StronglySorted key_lt [r "y" "0f"; r "z" "7a"; r "x" "c1"]%string).
  { repeat constructor. }
  split; [reflexivity|]. split; [exact Hs|].
  apply (sortRequests_keeps_sorted nat); [reflexivity | exact Hs].
Defined.

(** X6: the requests [keysForIDs] makes for IDs with pairwise different
    keys come back from [sortRequests] in strictly ascending order of
    their keys, one request for each of the IDs. *)
Theorem sortRequests_of_distinct_keys
  (Blake2b256Hash : string -> list Byte.byte) (Item : Type)
  (ids : list string)
  (h : GoSlice.heap (itemRequest Item)) (requests : GoSlice.slice) :
  NoDup (GetItemIDHash Blake2b256Hash <$> ids) ->
  GoSlice.read h requests = Some (keysForIDs Blake2b256Hash Item ids) ->
  ∃ duplicate h' out,
    sortRequests Item requests h = Some (duplicate, h')
    ∧ GoSlice.read h' duplicate = Some out
    ∧ StronglySorted key_lt out
    ∧ ID <$> out ≡ₚ ids.
Proof.
  intros Hnd Hread.
  destruct (sortRequests_run Item h requests _ Hread)
    as (d & h' & Hrun & Hout & _).
  destruct (Slice_requests_sorts Item (keysForIDs Blake2b256Hash Item ids))
    as [Hp Hs].
  assert (Hkeys : Key <$> keysForIDs Blake2b256Hash Item ids
                  = GetItemIDHash Blake2b256Hash <$> ids).
  { unfold keysForIDs. rewrite keysForIDs_loop_app. cbn [app].
    rewrite <- list_fmap_compose. reflexivity. }
  assert (Hids : ID <$> keysForIDs Blake2b256Hash Item ids = ids).
  { unfold keysForIDs. rewrite keysForIDs_loop_app. cbn [app].
    rewrite <- list_fmap_compose. apply list_fmap_id. }
  eexists d, h', _. split; [exact Hrun|]. split; [exact Hout|]. split.
  - apply sorted_keys_strict; [exact Hs|]. now rewrite Hp, Hkeys.
  - now rewrite Hp, Hids.
Qed.

Lemma sortRequests_of_distinct_keys_witness :
  let hash := String.list_byte_of_string in
  let ids := ["b"; "c"; "a"]%string in
  let h : GoSlice.heap (itemRequest nat) :=
    {[ 2%positive := keysForIDs hash nat ids ]} in
  let requests := {| GoSlice.array := 2%positive; GoSlice.off := 0;
                     GoSlice.len := 3; GoSlice.cap := 3 |} in
  NoDup (GetItemIDHash hash <$> ids)
  ∧ GoSlice.read h requests = Some (keysForIDs hash nat ids)
  ∧ ∃ duplicate h' out,
      sortRequests nat requests h = Some (duplicate, h')
      ∧ GoSlice.read h' duplicate = Some out
      ∧ StronglySorted key_lt out
      ∧ ID <$> out ≡ₚ ids.
Proof.
  cbv zeta.
  assert (Hnd : NoDup (GetItemIDHash String.list_byte_of_string
                         <$> ["b"; "c"; "a"]%string)).
  { apply (bool_decide_unpack _). vm_compute. exact I. }
  split; [exact Hnd|]. split; [reflexivity|].
  apply (sortRequests_of_distinct_keys String.list_byte_of_string nat
           ["b"; "c"; "a"]%string); [exact Hnd | reflexivity].
Defined.



(** X8: the slice [sortRequests] returns is as long as its argument and
    has an array of its own (a new one, when there is a request at all):
    whatever is stored into its elements afterwards, the argument still
    holds the requests it held, in their order. *)
Theorem sortRequests_result_is_separate (Item : Type)
  (h : GoSlice.heap (itemRequest Item)) (requests : GoSlice.slice)
  (R : list (itemRequest Item)) :
  GoSlice.read h requests = Some R ->
  ∃ duplicate h',
    sortRequests Item requests h = Some (duplicate, h')
    ∧ GoSlice.len duplicate = length R
    ∧ (R ≠ [] -> h !! GoSlice.array duplicate = None)
    ∧ ∀ elems, length elems = length R ->
        GoSlice.read (GoSlice.write h' duplicate elems) duplicate = Some elems
        ∧ GoSlice.read (GoSlice.write h' duplicate elems) requests = Some R.
Proof.
  intros Hread.
  destruct (sortRequests_alloc Item h requests R Hread)
    as (d & Hrun & Hoff & Hlen & Hcap & Hfresh).
  eexists d, _. split; [exact Hrun|]. split; [exact Hlen|].
  split; [exact Hfresh|].
  intros elems Helems.
  destruct (decide (R = [])) as [->|Hne].
  - destruct elems; [|discriminate].
    assert (Hw : GoSlice.write h d [] = h).
    { unfold GoSlice.write. rewrite Hoff, Hlen.
      destruct (h !! GoSlice.array d) as [arr|] eqn:Harr; [|reflexivity].
      change (take 0 arr ++ [] ++ drop (0 + length (@nil (itemRequest Item))) arr)
        with arr.
      now rewrite insert_id. }
    rewrite Hw. split; [|exact Hread].
    unfold GoSlice.read. now rewrite Hlen, decide_True by reflexivity.
  - specialize (Hfresh Hne).
    destruct (Slice_requests_sorts Item R) as [Hperm _].
    assert (Hsl : length (GoSort.Slice (request_less Item) R) = length R)
      by now rewrite Hperm.
    assert (Hw : GoSlice.write
                   (<[GoSlice.array d := GoSort.Slice (request_less Item) R]> h)
                   d elems
                 = <[GoSlice.array d := elems]> h).
    { unfold GoSlice.write. rewrite lookup_insert_eq, Hoff, Hlen.
      cbn [Nat.add take app]. rewrite <- Hsl, drop_all, app_nil_r.
      now rewrite insert_insert_eq. }
    rewrite Hw. split.
    + destruct d as [l o n c]. cbn in Hoff, Hlen, Hcap |- *. subst o n c.
      rewrite <- Helems. apply read_whole, lookup_insert_eq.
    + unfold GoSlice.read in *.
      destruct (decide (GoSlice.len requests = O)); [exact Hread|].
      destruct (h !! GoSlice.array requests) as [arr|] eqn:Harr;
        [|discriminate].
      rewrite lookup_insert_ne by congruence. now rewrite Harr.
Qed.

Lemma sortRequests_result_is_separate_witness :
  let r := λ id k, {| ID := id; Key := k; Value := @nil_ptr nat |} in
  let h : GoSlice.heap (itemRequest nat) :=
    {[ 2%positive := [r "x" "c1"; r "y" "0f"]%string ]} in
  let requests := {| GoSlice.array := 2%positive; GoSlice.off := 0;
                     GoSlice.len := 2; GoSlice.cap := 2 |} in
  let R := [r "x" "c1"; r "y" "0f"]%string in
  GoSlice.read h requests = Some R
  ∧ ∃ duplicate h',
      sortRequests nat requests h = Some (duplicate, h')
      ∧ GoSlice.len duplicate = length R
      ∧ (R ≠ [] -> h !! GoSlice.array duplicate = None)
      ∧ ∀ elems, length elems = length R ->
          GoSlice.read (GoSlice.write h' duplicate elems) duplicate = Some elems
          ∧ GoSlice.read (GoSlice.write h' duplicate elems) requests = Some R.
Proof.
  cbv zeta. split; [reflexivity|].
  apply (sortRequests_result_is_separate nat). reflexivity.
Defined.

(** *** checkForDuplicateIds *)

Lemma checkForDuplicateIds_loop_found (ids : list string) :
  ∀ (idsSeen : gmap string bool) id more,
    checkForDuplicateIds_loop idsSeen ids = (true, id) ->
    checkForDuplicateIds_loop idsSeen (ids ++ more) = (true, id).
Proof.
  induction ids as [|x rest IH]; intros idsSeen id more; cbn.
  - discriminate.
  - destruct (idsSeen !! x); [trivial|]. apply IH.
Qed.

Lemma checkForDuplicateIds_false_iff (ids : list string) :
  (checkForDuplicateIds ids).1 = false ↔ NoDup ids.
Proof.
  unfold checkForDuplicateIds.
  destruct (checkForDuplicateIds_loop_spec ids ∅)
    as [(Hnd & _ & Hres) | (pre & id & post & Hids & _ & _ & Hd & Hres)];
    rewrite Hres; cbn [fst].
  - tauto.
  - split; [discriminate|]. intros Hnd. exfalso. subst ids.
    destruct Hd as [Hd|[b Hb]]; [|now rewrite lookup_empty in Hb].
    apply NoDup_app in Hnd as (_ & Hdisj & _).
    apply (Hdisj id Hd). now left.
Qed.

(** X9: the answer [(true, id)] of [checkForDuplicateIds] is settled by
    the IDs read so far: it stays the same whatever IDs follow, and [id]
    is then an ID that the sequence holds twice at least. *)
Theorem checkForDuplicateIds_found_in_prefix (ids more : list string)
  (id : string) :
  checkForDuplicateIds ids = (true, id) ->
  checkForDuplicateIds (ids ++ more) = (true, id)
  ∧ (1 < length (filter (λ x, x = id) ids))%nat.
Proof.
  intros Hres. split; [now apply checkForDuplicateIds_loop_found|].
  unfold checkForDuplicateIds in Hres.
  destruct (checkForDuplicateIds_loop_spec ids ∅)
    as [(_ & _ & Hno) | (pre & d & post & -> & _ & _ & Hd & Hyes)].
  - rewrite Hno in Hres. discriminate.
  - rewrite Hyes in Hres. injection Hres as ->.
    destruct Hd as [Hd|[b Hb]]; [|now rewrite lookup_empty in Hb].
    rewrite filter_app, filter_cons, decide_True by reflexivity.
    rewrite length_app. cbn [length].
    assert (0 < length (filter (λ x, x = id) pre))%nat; [|lia].
    destruct (filter (λ x, x = id) pre) as [|y l] eqn:Hf; [|simpl; lia].
    exfalso. assert (Hin : id ∈ filter (λ x, x = id) pre)
      by (apply list_elem_of_filter; auto).
    rewrite Hf in Hin. inversion Hin.
Qed.

Lemma checkForDuplicateIds_found_in_prefix_witness :
  checkForDuplicateIds ["a"; "b"; "a"]%string = (true, "a"%string)
  ∧ checkForDuplicateIds (["a"; "b"; "a"]%string ++ ["b"; "b"]%string)%list
    = (true, "a"%string)
  ∧ (1 < length (filter (λ x, x = "a"%string) ["a"; "b"; "a"]%string))%nat.
Proof.
  split; [reflexivity|].
  apply (checkForDuplicateIds_found_in_prefix ["a"; "b"; "a"]%string
           ["b"; "b"]%string "a"%string).
  reflexivity.
Defined.

(** X10: whether [checkForDuplicateIds] finds a duplicate does not
    depend on the order of the IDs (the ID it names does: it is "b" for
    a, b, b, a and "a" for b, a, a, b). *)
Theorem checkForDuplicateIds_any_order (ids1 ids2 : list string) :
  ids1 ≡ₚ ids2 ->
  (checkForDuplicateIds ids1).1 = (checkForDuplicateIds ids2).1.
Proof.
  intros Hperm.
  destruct (checkForDuplicateIds ids1).1 eqn:H1,
    (checkForDuplicateIds ids2).1 eqn:H2; try reflexivity.
  - apply checkForDuplicateIds_false_iff in H2. rewrite <- Hperm in H2.
    apply checkForDuplicateIds_false_iff in H2. congruence.
  - apply checkForDuplicateIds_false_iff in H1. rewrite Hperm in H1.
    apply checkForDuplicateIds_false_iff in H1. congruence.
Qed.

Lemma checkForDuplicateIds_any_order_witness :
  ["a"; "b"; "b"; "a"]%string ≡ₚ ["b"; "a"; "a"; "b"]%string
  ∧ checkForDuplicateIds ["a"; "b"; "b"; "a"]%string = (true, "b"%string)
  ∧ checkForDuplicateIds ["b"; "a"; "a"; "b"]%string = (true, "a"%string)
  ∧ (checkForDuplicateIds ["a"; "b"; "b"; "a"]%string).1
    = (checkForDuplicateIds ["b"; "a"; "a"; "b"]%string).1.
Proof.
  assert (H : ["a"; "b"; "b"; "a"]%string ≡ₚ ["b"; "a"; "a"; "b"]%string).
  { apply (bool_decide_unpack _). vm_compute. exact I. }
  split; [exact H|]. split; [reflexivity|]. split; [reflexivity|].
  apply (checkForDuplicateIds_any_order _ _ H).
Defined.

(** *** firstKey *)

(** X11: [firstKey] panics exactly when [BaseBucketBits] is -4 or less,
    and then for every key: the root bucket length is negative, no key is
    shorter than that, and the slice expression has a negative bound.
    With any greater [BaseBucketBits] it returns. *)
Theorem firstKey_panics_iff (s : StoragePackerV2) (key : string) :
  firstKey s key = None ↔ BaseBucketBits s <= -4.
Proof.
  unfold firstKey, int_div.
  assert (Hq : BaseBucketBits s ÷ 4 < 0 ↔ BaseBucketBits s <= -4).
  { Z.to_euclidean_division_equations. lia. }
  set (n := BaseBucketBits s ÷ 4) in *.
  destruct (Z.ltb_spec (GoString.len key) n) as [Hlt|Hge].
  - split; [discriminate|]. intros Hb. apply Hq in Hb.
    unfold GoString.len in Hlt. lia.
  - unfold GoString.slice.
    destruct (Z.leb_spec 0 n) as [Hn|Hn].
    + destruct (Z.leb_spec n (GoString.len key)); [|lia].
      cbn [Z.leb andb Z.compare]. split; [discriminate | lia].
    + cbn [Z.leb andb Z.compare]. split; [intros _; now apply Hq | reflexivity].
Qed.

(** X12: the root bucket depends on the first [BaseBucketBits/4] bytes
    of the key only: a root bucket that [firstKey] returns without error
    is its own root bucket, and the root bucket of every key that starts
    with it. *)
Theorem firstKey_depends_on_prefix (s : StoragePackerV2) (key prefix : string) :
  firstKey s key = Some (prefix, None) ->
  firstKey s prefix = Some (prefix, None)
  ∧ ∀ rest, firstKey s (prefix +:+ rest) = Some (prefix, None).
Proof.
  intros Hk. apply firstKey_success in Hk as [Hlen _].
  split.
  - rewrite <- (string_app_nil_r prefix) at 1. now apply firstKey_of_prefix.
  - intros rest. now apply firstKey_of_prefix.
Qed.

Lemma firstKey_depends_on_prefix_witness :
  let s := {| BaseBucketBits := 8 |} in
  firstKey s "3f9a" = Some ("3f"%string, None)
  ∧ firstKey s "3f" = Some ("3f"%string, None)
  ∧ ∀ rest, firstKey s ("3f" +:+ rest) = Some ("3f"%string, None).
Proof.
  cbv zeta. split; [reflexivity|].
  apply (firstKey_depends_on_prefix {| BaseBucketBits := 8 |} "3f9a" "3f").
  reflexivity.
Defined.

(** X13: for a bucket key made of a first segment [p] of
    [BaseBucketBits/4] bytes, a ['/'] and further segments, the root
    bucket of its cache key is [p]. *)
Theorem firstKey_of_bucket_path (s : StoragePackerV2) (p rest : string) :
  GoString.len p = int_div (BaseBucketBits s) 4 ->
  "/"%char ∉ list_ascii_of_string p ->
  firstKey s (GetCacheKey s (p +:+ "/" +:+ rest)) = Some (p, None).
Proof.
  intros Hlen Hp.
  assert (Heq : GetCacheKey s (p +:+ "/" +:+ rest)
                = p +:+ GetCacheKey s ("/" +:+ rest)).
  { apply list_ascii_inj.
    rewrite list_ascii_app, !GetCacheKey_filter, list_ascii_app, filter_app.
    now rewrite (filter_id_not_in _ _ Hp). }
  rewrite Heq. now apply firstKey_of_prefix.
Qed.

Lemma firstKey_of_bucket_path_witness :
  let s := {| BaseBucketBits := 8 |} in
  GoString.len "3f" = int_div (BaseBucketBits s) 4
  ∧ ("/"%char ∉ list_ascii_of_string "3f")
  ∧ firstKey s (GetCacheKey s ("3f" +:+ "/" +:+ "9/a")) = Some ("3f"%string, None).
Proof.
  cbv zeta.
  assert (H : "/"%char ∉ list_ascii_of_string "3f").
  { apply (bool_decide_unpack _). vm_compute. exact I. }
  split; [reflexivity|]. split; [exact H|].
  apply (firstKey_of_bucket_path {| BaseBucketBits := 8 |} "3f" "9/a");
    [reflexivity | exact H].
Defined.

(** *** getAllBaseBucketKeys *)

Section NumeralFacts.

Import GoFmt.

Lemma is_ldigit_value_bound (c : ascii) :
  is_ldigit c = true -> 0 <= hex_digit_value c < 16.
Proof.
  unfold is_ldigit, hex_digit_value. cbv zeta.
  set (n := Z.of_nat (nat_of_ascii c)).
  destruct (Z.leb_spec 48 n), (Z.leb_spec n 57), (Z.leb_spec 97 n),
    (Z.leb_spec n 102); cbn [andb orb]; intros Hc; try discriminate; lia.
Qed.

(** The digits come in the order of their bytes. *)
Lemma is_ldigit_order (c d : ascii) :
  is_ldigit c = true -> is_ldigit d = true ->
  (hex_digit_value c < hex_digit_value d
   -> (nat_of_ascii c < nat_of_ascii d)%nat)
  ∧ (hex_digit_value c = hex_digit_value d -> c = d).
Proof.
  unfold is_ldigit, hex_digit_value. cbv zeta.
  intros Hc Hd.
  assert (Hinj : nat_of_ascii c = nat_of_ascii d -> c = d)
    by apply nat_of_ascii_inj.
  revert Hc Hd Hinj.
  generalize (nat_of_ascii c) (nat_of_ascii d). intros n m.
  destruct (Z.leb_spec 48 (Z.of_nat n)), (Z.leb_spec (Z.of_nat n) 57),
    (Z.leb_spec 97 (Z.of_nat n)), (Z.leb_spec (Z.of_nat n) 102);
    cbn [andb orb]; intros Hc; try discriminate;
    destruct (Z.leb_spec 48 (Z.of_nat m)), (Z.leb_spec (Z.of_nat m) 57),
      (Z.leb_spec 97 (Z.of_nat m)), (Z.leb_spec (Z.of_nat m) 102);
    cbn [andb orb]; intros Hd Hinj; try discriminate;
    (split; [lia | intros Heq; apply Hinj; lia]).
Qed.

(** The value of a numeral: its first digits weigh more. *)
Lemma hex_value_bound (k : string) :
  all_ldigits k = true ->
  ∀ acc, hex_value acc k
         = acc * 16 ^ Z.of_nat (String.length k) + hex_value 0 k
         ∧ 0 <= hex_value 0 k < 16 ^ Z.of_nat (String.length k).
Proof.
  induction k as [|c k IH]; cbn [all_ldigits hex_value String.length].
  - intros _ acc. cbn. lia.
  - intros [Hc Hk]%andb_true_iff acc.
    pose proof (is_ldigit_value_bound c Hc) as Hv.
    destruct (IH Hk (acc * 16 + hex_digit_value c)) as [-> Hb].
    destruct (IH Hk (0 * 16 + hex_digit_value c)) as [-> _].
    rewrite Nat2Z.inj_succ, Z.pow_succ_r by lia.
    split; [lia | nia].
Qed.

(** Numerals of one length: the less the number, the less the string,
    and one numeral for each number. *)
Lemma hex_numeral_order (a : string) :
  ∀ b, String.length a = String.length b ->
       all_ldigits a = true -> all_ldigits b = true ->
       (hex_value 0 a < hex_value 0 b -> string_lt a b = true)
       ∧ (hex_value 0 a = hex_value 0 b -> a = b).
Proof.
  induction a as [|c a IH]; intros [|d b] Hlen; try discriminate.
  - intros _ _. split; [cbn; lia | reflexivity].
  - cbn [all_ldigits hex_value String.length string_lt] in *.
    intros [Hc Ha]%andb_true_iff [Hd Hb]%andb_true_iff.
    injection Hlen as Hlen.
    destruct (hex_value_bound a Ha (0 * 16 + hex_digit_value c)) as [-> Hba].
    destruct (hex_value_bound b Hb (0 * 16 + hex_digit_value d)) as [-> Hbb].
    rewrite <- Hlen in *.
    destruct (is_ldigit_order c d Hc Hd) as [Hlt Heq].
    destruct (IH b Hlen Ha Hb) as [IHlt IHeq].
    pose proof (is_ldigit_value_bound c Hc).
    pose proof (is_ldigit_value_bound d Hd).
    set (p := 16 ^ Z.of_nat (String.length a)) in *.
    split.
    + intros Hval.
      destruct (Z.lt_trichotomy (hex_digit_value c) (hex_digit_value d))
        as [Hcd|[Hcd|Hcd]].
      * apply orb_true_iff. left. apply Nat.ltb_lt. now apply Hlt.
      * apply orb_true_iff. right. rewrite (Heq Hcd), Nat.eqb_refl.
        cbn [andb]. apply IHlt. nia.
      * nia.
    + intros Hval.
      assert (Hcd : hex_digit_value c = hex_digit_value d) by nia.
      rewrite (Heq Hcd). f_equal. apply IHeq. nia.
Qed.

(** [%x] and [%0nx] of [i]: the numeral of [i], of [n] digits at
    least. *)
Lemma fmtInteger_hex_any (wid : option Z) (i : Z) :
  0 <= i < 16 ^ 16 ->
  let n := match wid with Some w => w | None => 0 end in
  let k := fmtInteger true false wid 16 i in
  all_ldigits k = true ∧ hex_value 0 k = i ∧ n <= GoString.len k.
Proof.
  intros Hi n k. subst k. unfold fmtInteger.
  destruct (Z.ltb_spec i 0) as [?|_]; [lia|].
  rewrite Z.abs_eq by lia.
  destruct (digits_loop_hex 64 i EmptyString 16 Hi ltac:(lia))
    as (ds & -> & Hlen & Hall & Hval).
  rewrite string_app_nil_r.
  set (prec := match wid with Some w => w | None => 0 end).
  replace (match wid with Some w => if true then if false then w - 1 else w else 0
                     | None => 0 end) with prec by (now destruct wid).
  set (zs := padding _ "0").
  assert (Hzs : String.length zs = Z.to_nat (prec - GoString.len ds))
    by (subst zs; apply padding_length).
  assert (Hk : all_ldigits (zs +:+ ds) = true
               ∧ hex_value 0 (zs +:+ ds) = i
               ∧ prec <= GoString.len (zs +:+ ds)).
  { split; [|split].
    - rewrite all_ldigits_app, Hall. subst zs. now rewrite all_ldigits_padding.
    - rewrite hex_value_app. subst zs. rewrite hex_value_padding, Hval. lia.
    - unfold GoString.len in *. rewrite string_app_length, Hzs. lia. }
  destruct wid as [w|]; [|exact Hk]. subst prec n.
  replace (Z.to_nat (w - GoString.len (zs +:+ ds))) with O by lia.
  exact Hk.
Qed.

(** The format of [getAllBaseBucketKeys] for a root bucket length from
    0 to 15, and the key it yields for [i]: for the length 0 the format
    is [%00x], two flags and no width. *)
Lemma bucketKey_format (n : Z) :
  0 <= n <= 15 ->
  ∃ formatString wid,
    Sprintf "%%0%dx" [n] = Some formatString
    ∧ (∀ i, Sprintf formatString [i] = Some (fmtInteger true false wid 16 i))
    ∧ match wid with Some w => w = n | None => n = 0 end.
Proof.
  intros Hn. destruct (Z.eq_dec n 0) as [->|Hnz].
  - exists "%00x"%string, None. split; [reflexivity|]. split; [|reflexivity].
    intros i. unfold Sprintf.
    change (parse Text "%00x") with [Verb true false None "x"].
    change (render [Verb true false None "x"] [i])
      with (Some (fmtInteger true false None 16 i +:+ EmptyString)).
    now rewrite string_app_nil_r.
  - destruct (formatString_parse n ltac:(lia)) as (formatString & Hf & Hp).
    exists formatString, (Some n). split; [exact Hf|]. split; [|reflexivity].
    intros i. now apply Sprintf_hex.
Qed.

(** What [getAllBaseBucketKeys] returns while [make] accepts
    [2^BaseBucketBits] strings. *)
Lemma getAllBaseBucketKeys_run (s : StoragePackerV2) :
  0 <= BaseBucketBits s <= 44 ->
  ∃ wid,
    getAllBaseBucketKeys s
    = Some ((λ i, fmtInteger true false wid 16 i)
              <$> seqZ 0 (2 ^ BaseBucketBits s))
    ∧ match wid with
      | Some w => w = int_div (BaseBucketBits s) 4
      | None => int_div (BaseBucketBits s) 4 = 0
      end.
Proof.
  destruct s as [bits]. cbn [BaseBucketBits]. intros Hbits.
  assert (Hn : 0 <= int_div bits 4 <= 15).
  { unfold int_div. Z.to_euclidean_division_equations. lia. }
  destruct (bucketKey_format _ Hn) as (formatString & wid & Hf & Hkey & Hwid).
  exists wid. split; [|exact Hwid].
  unfold getAllBaseBucketKeys. cbn [BaseBucketBits]. rewrite Hf.
  rewrite (proj2 (makeslice_fits_Pow2 bits)) by lia.
  assert (Hnum : int_of_Pow2 bits = 2 ^ bits).
  { unfold int_of_Pow2.
    destruct (Z.ltb_spec bits 0); [lia|].
    destruct (Z.leb_spec bits 62); [reflexivity | lia]. }
  rewrite Hnum.
  assert (H2 : 0 < 2 ^ bits) by (apply Z.pow_pos_nonneg; lia).
  rewrite (getAllBaseBucketKeys_loop_spec formatString
             (λ i, fmtInteger true false wid 16 i));
    [|intros j _; apply Hkey | lia].
  cbn [app]. now rewrite Z.sub_0_r.
Qed.

Lemma pow2_16 (bits : Z) : 0 <= bits <= 44 -> 2 ^ bits < 16 ^ 16.
Proof.
  intros Hb. change (16 ^ 16) with (2 ^ 64).
  apply Z.pow_lt_mono_r; lia.
Qed.

Lemma lookup_fmap_seqZ {B} (f : Z -> B) (m : Z) (i : nat) (k : B) :
  (f <$> seqZ 0 m) !! i = Some k -> k = f (Z.of_nat i) ∧ 0 <= Z.of_nat i < m.
Proof.
  intros Hi. rewrite list_lookup_fmap in Hi.
  destruct (seqZ 0 m !! i) as [j|] eqn:Hj; [|discriminate].
  apply lookup_seqZ in Hj as [-> Hlt].
  injection Hi as <-. split; [f_equal; lia | lia].
Qed.

(** For a [BaseBucketBits] that is a multiple of 4, from 4 up to 44:
    the keys are the numerals of [BaseBucketBits/4] digits. *)
Lemma getAllBaseBucketKeys_valid (s : StoragePackerV2) :
  0 < BaseBucketBits s -> Z.rem (BaseBucketBits s) 4 = 0 ->
  BaseBucketBits s <= 44 ->
  ∃ key : Z -> string,
    getAllBaseBucketKeys s = Some (key <$> seqZ 0 (2 ^ BaseBucketBits s))
    ∧ ∀ i, 0 <= i < 2 ^ BaseBucketBits s ->
        GoString.len (key i) = int_div (BaseBucketBits s) 4
        ∧ all_ldigits (key i) = true
        ∧ hex_value 0 (key i) = i.
Proof.
  intros Hpos Hrem Hmax.
  destruct (getAllBaseBucketKeys_run s ltac:(lia)) as (wid & Hrun & Hwid).
  set (n := int_div (BaseBucketBits s) 4) in *.
  assert (Hbits : BaseBucketBits s = 4 * n).
  { subst n. unfold int_div. pose proof (Z.quot_rem' (BaseBucketBits s) 4). lia. }
  destruct wid as [w|]; [subst w | lia].
  eexists. split; [exact Hrun|]. intros i Hi. cbv beta.
  assert (Hpow : 2 ^ BaseBucketBits s = 16 ^ Z.of_nat (Z.to_nat n)).
  { rewrite Z2Nat.id by lia. rewrite Hbits.
    change 16 with (2 ^ 4). rewrite <- Z.pow_mul_r by lia. reflexivity. }
  pose proof (fmtInteger_hex (Z.to_nat n) i ltac:(lia)) as Hhex.
  rewrite <- Hpow, Z2Nat.id in Hhex by lia.
  destruct (Hhex Hi) as (Hl & Ha & Hv).
  unfold GoString.len. rewrite Hl. split; [lia|]. now split.
Qed.

(** A string of [BaseBucketBits/4] digits is one of the keys. *)
Lemma numeral_is_key (bits : Z) (key : Z -> string) (k : string) :
  0 < bits -> Z.rem bits 4 = 0 ->
  (∀ i, 0 <= i < 2 ^ bits ->
        GoString.len (key i) = int_div bits 4
        ∧ all_ldigits (key i) = true
        ∧ hex_value 0 (key i) = i) ->
  GoString.len k = int_div bits 4 -> all_ldigits k = true ->
  k ∈ key <$> seqZ 0 (2 ^ bits).
Proof.
  intros Hpos Hrem Hkey Hl Ha.
  set (n := int_div bits 4) in *.
  assert (Hbits : bits = 4 * n).
  { subst n. unfold int_div. pose proof (Z.quot_rem' bits 4). lia. }
  destruct (hex_value_bound k Ha 0) as [_ Hb].
  assert (Hpow : 16 ^ Z.of_nat (String.length k) = 2 ^ bits).
  { unfold GoString.len in Hl. rewrite Hl, Hbits.
    change 16 with (2 ^ 4). rewrite <- Z.pow_mul_r by lia. reflexivity. }
  rewrite Hpow in Hb.
  destruct (Hkey (hex_value 0 k) Hb) as (Hl' & Ha' & Hv').
  apply list_elem_of_fmap. exists (hex_value 0 k).
  split; [|apply elem_of_seqZ; lia].
  symmetry.
  apply (hex_numeral_order (key (hex_value 0 k)) k);
    [unfold GoString.len in *; lia | exact Ha' | exact Ha | exact Hv'].
Qed.

Lemma StronglySorted_lookup {B} (R : B -> B -> Prop) (l : list B) :
  (∀ i j x y, l !! i = Some x -> l !! j = Some y -> (i < j)%nat -> R x y) ->
  StronglySorted R l.
Proof.
  induction l as [|x l IH]; intros Hl; constructor.
  - apply IH. intros i j a b Hi Hj Hij. apply (Hl (S i) (S j)); auto. lia.
  - apply Forall_lookup_2. intros j y Hj. apply (Hl O (S j)); auto. lia.
Qed.

End NumeralFacts.

(** X14: the keys [getAllBaseBucketKeys] returns, for any
    [BaseBucketBits]: none for a negative one (the power of two is
    truncated to 0), [2^BaseBucketBits] keys from 0 up to 44, and a
    panic from 45 on, where [make] refuses the capacity: the array of
    [2^BaseBucketBits] strings would be larger than an allocation may
    be (and from 63 on the power is no [int] any more). *)
Theorem getAllBaseBucketKeys_count (s : StoragePackerV2) :
  (getAllBaseBucketKeys s = None ↔ 45 <= BaseBucketBits s)
  ∧ (BaseBucketBits s < 0 -> getAllBaseBucketKeys s = Some [])
  ∧ (0 <= BaseBucketBits s <= 44 ->
     ∃ keys, getAllBaseBucketKeys s = Some keys
             ∧ Z.of_nat (length keys) = 2 ^ BaseBucketBits s).
Proof.
  split; [apply getAllBaseBucketKeys_panics_iff|]. split.
  - intros Hneg. unfold getAllBaseBucketKeys. cbv zeta.
    destruct (formatString_total (int_div (BaseBucketBits s) 4) 0)
      as (formatString & _ & -> & _).
    rewrite (proj2 (makeslice_fits_Pow2 (BaseBucketBits s))) by lia.
    unfold int_of_Pow2. destruct (Z.ltb_spec (BaseBucketBits s) 0); [|lia].
    reflexivity.
  - intros Hbits.
    destruct (getAllBaseBucketKeys_run s Hbits) as (wid & Hrun & _).
    eexists. split; [exact Hrun|].
    rewrite length_fmap, length_seqZ.
    assert (0 < 2 ^ BaseBucketBits s) by (apply Z.pow_pos_nonneg; lia). lia.
Qed.

(** X15: for every [BaseBucketBits] from 0 to 44, a multiple of 4 or
    not, the keys are pairwise different numerals, the key at index [i]
    denoting [i], of [BaseBucketBits/4] digits at least.  When
    [BaseBucketBits] is not a multiple of 4 the last key has more digits
    than that: it is a key that [firstKey] returns for no cache key. *)
Theorem getAllBaseBucketKeys_any_width (s : StoragePackerV2) :
  0 <= BaseBucketBits s <= 44 ->
  ∃ keys,
    getAllBaseBucketKeys s = Some keys
    ∧ NoDup keys
    ∧ (∀ i k, keys !! i = Some k ->
         GoFmt.all_ldigits k = true
         ∧ GoFmt.hex_value 0 k = Z.of_nat i
         ∧ int_div (BaseBucketBits s) 4 <= GoString.len k)
    ∧ (Z.rem (BaseBucketBits s) 4 ≠ 0 ->
       ∃ k, last keys = Some k
            ∧ int_div (BaseBucketBits s) 4 < GoString.len k
            ∧ ∀ cacheKey, firstKey s cacheKey ≠ Some (k, None)).
Proof.
  intros Hbits.
  destruct (getAllBaseBucketKeys_run s Hbits) as (wid & Hrun & Hwid).
  set (n := int_div (BaseBucketBits s) 4) in *.
  set (key := λ i, GoFmt.fmtInteger true false wid 16 i) in *.
  assert (Hwn : match wid with Some w => w | None => 0 end = n)
    by (destruct wid; congruence).
  assert (Hkey : ∀ i, 0 <= i < 2 ^ BaseBucketBits s ->
            GoFmt.all_ldigits (key i) = true
            ∧ GoFmt.hex_value 0 (key i) = i
            ∧ n <= GoString.len (key i)).
  { intros i Hi. pose proof (pow2_16 _ Hbits).
    pose proof (fmtInteger_hex_any wid i ltac:(lia)) as Hany.
    cbv zeta in Hany. now rewrite Hwn in Hany. }
  assert (H2 : 0 < 2 ^ BaseBucketBits s) by (apply Z.pow_pos_nonneg; lia).
  eexists. split; [exact Hrun|]. split; [|split].
  - apply NoDup_fmap_2_strong; [|apply NoDup_seqZ].
    intros x y Hx Hy Heq. apply elem_of_seqZ in Hx, Hy.
    destruct (Hkey x ltac:(lia)) as (_ & Hvx & _).
    destruct (Hkey y ltac:(lia)) as (_ & Hvy & _).
    rewrite <- Hvx, <- Hvy, Heq. reflexivity.
  - intros i k Hi. apply lookup_fmap_seqZ in Hi as [-> Hi]. now apply Hkey.
  - intros Hrem.
    set (m := 2 ^ BaseBucketBits s) in *.
    assert (Hlast : last (key <$> seqZ 0 m) = Some (key (m - 1))).
    { rewrite last_lookup, length_fmap, length_seqZ, list_lookup_fmap.
      rewrite (proj2 (lookup_seqZ 0 m (Nat.pred (Z.to_nat m)) (m - 1)));
        [reflexivity | lia]. }
    exists (key (m - 1)). split; [exact Hlast|].
    destruct (Hkey (m - 1) ltac:(lia)) as (Ha & Hv & _).
    destruct (hex_value_bound _ Ha 0) as [_ Hb]. rewrite Hv in Hb.
    assert (Hlen : n < GoString.len (key (m - 1))).
    { unfold GoString.len.
      destruct (Z_lt_le_dec n (Z.of_nat (String.length (key (m - 1)))))
        as [Hlt|Hge]; [exact Hlt|exfalso].
      assert (Hnn : 0 <= n)
        by (subst n; unfold int_div; apply Z.quot_pos; lia).
      assert (Hp : 16 ^ Z.of_nat (String.length (key (m - 1))) <= 16 ^ n)
        by (apply Z.pow_le_mono_r; lia).
      assert (Hq : 2 ^ (4 * n + 1) <= m).
      { subst m. apply Z.pow_le_mono_r; [lia|].
        subst n. unfold int_div. revert Hrem.
        Z.to_euclidean_division_equations. lia. }
      rewrite Z.pow_add_r, Z.pow_mul_r in Hq by lia.
      change (2 ^ 4) with 16 in Hq. change (2 ^ 1) with 2 in Hq.
      assert (0 < 16 ^ n) by (apply Z.pow_pos_nonneg; lia).
      lia. }
    split; [exact Hlen|].
    intros cacheKey Hfirst. apply firstKey_success in Hfirst as [Hl _].
    fold n in Hl. lia.
Qed.

Lemma getAllBaseBucketKeys_any_width_witness :
  let s := {| BaseBucketBits := 6 |} in
  0 <= BaseBucketBits s <= 44
  ∧ (last <$> getAllBaseBucketKeys s) = Some (Some "3f"%string)
  ∧ ∃ keys,
      getAllBaseBucketKeys s = Some keys
      ∧ NoDup keys
      ∧ (∀ i k, keys !! i = Some k ->
           GoFmt.all_ldigits k = true
           ∧ GoFmt.hex_value 0 k = Z.of_nat i
           ∧ int_div (BaseBucketBits s) 4 <= GoString.len k)
      ∧ (Z.rem (BaseBucketBits s) 4 ≠ 0 ->
         ∃ k, last keys = Some k
              ∧ int_div (BaseBucketBits s) 4 < GoString.len k
              ∧ ∀ cacheKey, firstKey s cacheKey ≠ Some (k, None)).
Proof.
  cbv zeta. split; [cbn; lia|]. split; [vm_compute; reflexivity|].
  apply (getAllBaseBucketKeys_any_width {| BaseBucketBits := 6 |}).
  cbn; lia.
Defined.

(** X16: for a [BaseBucketBits] that is a multiple of 4, from 4 up to
    44, the keys are all the strings of [BaseBucketBits/4] lower-case
    hexadecimal digits, and nothing else. *)
Theorem getAllBaseBucketKeys_complete (s : StoragePackerV2) :
  0 < BaseBucketBits s -> Z.rem (BaseBucketBits s) 4 = 0 ->
  BaseBucketBits s <= 44 ->
  ∃ keys,
    getAllBaseBucketKeys s = Some keys
    ∧ ∀ k, k ∈ keys
           ↔ GoString.len k = int_div (BaseBucketBits s) 4
             ∧ GoFmt.all_ldigits k = true.
Proof.
  intros Hpos Hrem Hmax.
  destruct (getAllBaseBucketKeys_valid s Hpos Hrem Hmax) as (key & Hrun & Hkey).
  eexists. split; [exact Hrun|]. intros k. split.
  - intros Hin. apply list_elem_of_fmap in Hin as (i & -> & Hi).
    apply elem_of_seqZ in Hi. destruct (Hkey i ltac:(lia)) as (Hl & Ha & _).
    now split.
  - intros [Hl Ha]. now apply numeral_is_key.
Qed.

Lemma getAllBaseBucketKeys_complete_witness :
  let s := {| BaseBucketBits := 8 |} in
  0 < BaseBucketBits s
  ∧ Z.rem (BaseBucketBits s) 4 = 0
  ∧ BaseBucketBits s <= 44
  ∧ ∃ keys,
      getAllBaseBucketKeys s = Some keys
      ∧ ∀ k, k ∈ keys
             ↔ GoString.len k = int_div (BaseBucketBits s) 4
               ∧ GoFmt.all_ldigits k = true.
Proof.
  cbv zeta. split; [reflexivity|]. split; [reflexivity|].
  split; [cbn; lia|].
  apply (getAllBaseBucketKeys_complete {| BaseBucketBits := 8 |});
    cbn; [lia | reflexivity | lia].
Defined.

(** X17: the root bucket of an item is one of the buckets that are
    enumerated: for a [BaseBucketBits] that is a multiple of 4, from 4
    up to 44, and a digest of [BaseBucketBits] bits at least, [firstKey]
    returns without error for the key [GetItemIDHash] gives the item, and
    what it returns is among the keys of [getAllBaseBucketKeys]. *)
Theorem firstKey_of_item_is_listed
  (Blake2b256Hash : string -> list Byte.byte) (s : StoragePackerV2)
  (itemID : string) :
  0 < BaseBucketBits s -> Z.rem (BaseBucketBits s) 4 = 0 ->
  BaseBucketBits s <= 44 ->
  BaseBucketBits s <= 8 * Z.of_nat (length (Blake2b256Hash itemID)) ->
  ∃ keys bucket,
    getAllBaseBucketKeys s = Some keys
    ∧ firstKey s (GetItemIDHash Blake2b256Hash itemID) = Some (bucket, None)
    ∧ bucket ∈ keys.
Proof.
  intros Hpos Hrem Hmax Hdigest.
  destruct (getAllBaseBucketKeys_valid s Hpos Hrem Hmax) as (key & Hrun & Hkey).
  set (n := int_div (BaseBucketBits s) 4) in *.
  assert (Hbits : BaseBucketBits s = 4 * n).
  { subst n. unfold int_div.
    pose proof (Z.quot_rem' (BaseBucketBits s) 4). lia. }
  destruct (EncodeToString_hex (Blake2b256Hash itemID)) as [Hlen Hall].
  fold (GetItemIDHash Blake2b256Hash itemID) in Hlen, Hall.
  set (k := GetItemIDHash Blake2b256Hash itemID) in *.
  set (b := GoString.take (Z.to_nat n) k).
  assert (Hfirst : firstKey s k = Some (b, None)).
  { unfold firstKey. fold n.
    destruct (Z.ltb_spec (GoString.len k) n) as [Hlt|_];
      [unfold GoString.len in Hlt; lia|].
    rewrite slice_prefix by (unfold GoString.len; lia). reflexivity. }
  assert (Hb : String.length b = Z.to_nat n)
    by (subst b; apply take_length; lia).
  eexists _, b. split; [exact Hrun|]. split; [exact Hfirst|].
  apply numeral_is_key; [exact Hpos | exact Hrem | exact Hkey | |].
  - unfold GoString.len. fold n. lia.
  - now apply all_ldigits_take.
Qed.

Lemma firstKey_of_item_is_listed_witness :
  let s := {| BaseBucketBits := 8 |} in
  let hash := String.list_byte_of_string in
  0 < BaseBucketBits s
  ∧ Z.rem (BaseBucketBits s) 4 = 0
  ∧ BaseBucketBits s <= 44
  ∧ BaseBucketBits s <= 8 * Z.of_nat (length (hash "item"))
  ∧ firstKey s (GetItemIDHash hash "item") = Some ("69"%string, None)
  ∧ ∃ keys bucket,
      getAllBaseBucketKeys s = Some keys
      ∧ firstKey s (GetItemIDHash hash "item") = Some (bucket, None)
      ∧ bucket ∈ keys.
Proof.
  cbv zeta. split; [reflexivity|]. split; [reflexivity|].
  split; [cbn; lia|]. split; [cbn; lia|]. split; [reflexivity|].
  apply (firstKey_of_item_is_listed String.list_byte_of_string
           {| BaseBucketBits := 8 |} "item");
    cbn; [lia | reflexivity | lia | lia].
Defined.

(** X18: for a [BaseBucketBits] that is a multiple of 4, from 4 up to
    44, every key of [getAllBaseBucketKeys] is a root bucket and a cache
    key as it stands: [firstKey] returns it for itself, without error,
    and [GetCacheKey] leaves it as it is. *)
Theorem bucket_keys_are_root_buckets (s : StoragePackerV2) :
  0 < BaseBucketBits s -> Z.rem (BaseBucketBits s) 4 = 0 ->
  BaseBucketBits s <= 44 ->
  ∃ keys,
    getAllBaseBucketKeys s = Some keys
    ∧ ∀ k, k ∈ keys ->
        firstKey s k = Some (k, None) ∧ GetCacheKey s k = k.
Proof.
  intros Hpos Hrem Hmax.
  destruct (getAllBaseBucketKeys_valid s Hpos Hrem Hmax) as (key & Hrun & Hkey).
  eexists. split; [exact Hrun|]. intros k Hin.
  apply list_elem_of_fmap in Hin as (i & -> & Hi).
  apply elem_of_seqZ in Hi. destruct (Hkey i ltac:(lia)) as (Hl & Ha & _).
  split.
  - rewrite <- (string_app_nil_r (key i)) at 1. now apply firstKey_of_prefix.
  - apply list_ascii_inj. rewrite GetCacheKey_filter.
    apply filter_id_not_in. now apply all_ldigits_no_slash.
Qed.

Lemma bucket_keys_are_root_buckets_witness :
  let s := {| BaseBucketBits := 8 |} in
  0 < BaseBucketBits s
  ∧ Z.rem (BaseBucketBits s) 4 = 0
  ∧ BaseBucketBits s <= 44
  ∧ ∃ keys,
      getAllBaseBucketKeys s = Some keys
      ∧ ∀ k, k ∈ keys ->
          firstKey s k = Some (k, None) ∧ GetCacheKey s k = k.
Proof.
  cbv zeta. split; [reflexivity|]. split; [reflexivity|].
  split; [cbn; lia|].
  apply (bucket_keys_are_root_buckets {| BaseBucketBits := 8 |});
    cbn; [lia | reflexivity | lia].
Defined.

(** X19: for a [BaseBucketBits] that is a multiple of 4, from 4 up to
    44, the keys of [getAllBaseBucketKeys] ascend strictly in the order
    [<] of strings as well, the order [sortRequests] sorts keys by. *)
Theorem getAllBaseBucketKeys_in_string_order (s : StoragePackerV2) :
  0 < BaseBucketBits s -> Z.rem (BaseBucketBits s) 4 = 0 ->
  BaseBucketBits s <= 44 ->
  ∃ keys,
    getAllBaseBucketKeys s = Some keys
    ∧ StronglySorted (λ k1 k2, string_lt k1 k2 = true) keys.
Proof.
  intros Hpos Hrem Hmax.
  destruct (getAllBaseBucketKeys_valid s Hpos Hrem Hmax) as (key & Hrun & Hkey).
  eexists. split; [exact Hrun|].
  apply StronglySorted_lookup. intros i j x y Hi Hj Hij.
  apply lookup_fmap_seqZ in Hi as [-> Hi]. apply lookup_fmap_seqZ in Hj as [-> Hj].
  destruct (Hkey _ Hi) as (Hli & Hai & Hvi).
  destruct (Hkey _ Hj) as (Hlj & Haj & Hvj).
  apply hex_numeral_order; [unfold GoString.len in *; lia | exact Hai | exact Haj |].
  rewrite Hvi, Hvj. lia.
Qed.

Lemma getAllBaseBucketKeys_in_string_order_witness :
  let s := {| BaseBucketBits := 8 |} in
  0 < BaseBucketBits s
  ∧ Z.rem (BaseBucketBits s) 4 = 0
  ∧ BaseBucketBits s <= 44
  ∧ ∃ keys,
      getAllBaseBucketKeys s = Some keys
      ∧ StronglySorted (λ k1 k2, string_lt k1 k2 = true) keys.
Proof.
  cbv zeta. split; [reflexivity|]. split; [reflexivity|].
  split; [cbn; lia|].
  apply (getAllBaseBucketKeys_in_string_order {| BaseBucketBits := 8 |});
    cbn; [lia | reflexivity | lia].
Defined.

(** *** GetCacheKey *)

(** X20: [GetCacheKey] goes through concatenation: the cache key of two
    strings put together is made of their cache keys. *)
Theorem GetCacheKey_app (s : StoragePackerV2) (x y : string) :
  GetCacheKey s (x +:+ y) = GetCacheKey s x +:+ GetCacheKey s y.
Proof.
  apply list_ascii_inj.
  rewrite list_ascii_app, !GetCacheKey_filter, list_ascii_app.
  apply filter_app.
Qed.
